(** * Huffman coding engine of huffman-visualizer (src/lib/huffman.ts)

    A shallow embedding of the TypeScript module [huffman.ts] and the
    verification of the properties its design document states about it.

    JavaScript values are modelled as follows.
    - A string is the list of its UTF-16 code units ([jsstring]).  The two
      ways the source walks a string are kept apart: [for (const c of s)]
      walks code points ([codePoints]), [s.split('')] walks code units
      ([split_units]).
    - A [Record<string, V>] is the list of its own properties in creation
      order ([set], [get]); [Object.entries] lists integer-like keys first,
      in ascending numeric order, then the others in creation order.
    - A [number] used as a count is a [nat] (counts stay far below 2^53,
      where doubles are exact); the compression ratio is an IEEE double.
    - [HuffmanNode | null] is [option HuffmanNode].
    - A run either returns normally or throws a [TypeError] (property access
      on [null] or [undefined]); recursion and loops are driven by a fuel
      that the callers set from the index or the heap size, and running out
      of it is a third outcome, shown never to happen.
    - Strings, arrays and the call stack are unbounded: the limits of an
      engine on string length, array length and recursion depth are not
      modelled.
    - The engine is given twice: once with the contents of its objects
      passed from step to step, and once with the objects it creates (the
      two tables and the array of the heap) held in a store, which is what
      a statement about two invocations in one program is about.  The
      second is shown to compute what the first computes. *)

From Stdlib Require Import Floats ZArith NArith Uint63 Lia.
From stdpp Require Import base list sorting.

Open Scope nat_scope.
#[local] Set Warnings "-clear-no-such-hyp".

(* ===================================================================== *)
(** * Part I: the embedding *)
(* ===================================================================== *)

(** ** Strings *)

Abbreviation jsstring := (list N).

Definition isHighSurrogate (c : N) : bool := ((0xD800 <=? c) && (c <=? 0xDBFF))%N.
Definition isLowSurrogate (c : N) : bool := ((0xDC00 <=? c) && (c <=? 0xDFFF))%N.

(** The string iterator ([for (const ch of s)]): one element per code point;
    a high surrogate followed by a low surrogate is one two-unit element,
    every other code unit is an element of its own. *)
Fixpoint codePoints (s : jsstring) : list jsstring :=
  match s with
  | [] => []
  | c :: rest =>
      match rest with
      | d :: rest' =>
          if isHighSurrogate c && isLowSurrogate d
          then [c; d] :: codePoints rest'
          else [c] :: codePoints rest
      | [] => [[c]]
      end
  end.

(** [s.split('')]: one element per UTF-16 code unit. *)
Definition split_units (s : jsstring) : list jsstring := map (λ c, [c]) s.

(** [arr.join('')] on an array whose elements are strings or [undefined]:
    [undefined] is joined as the empty string. *)
Definition join_empty (arr : list (option jsstring)) : jsstring :=
  concat (map (default []) arr).

Definition str_0 : jsstring := [48%N].
Definition str_1 : jsstring := [49%N].

(** ** Completions *)

Inductive Completion (A : Type) : Type :=
| Normal (a : A)
| TypeError
| OutOfFuel.
Arguments Normal {A} a.
Arguments TypeError {A}.
Arguments OutOfFuel {A}.

#[global] Instance Completion_ret : MRet Completion := λ A a, Normal a.
#[global] Instance Completion_bind : MBind Completion := λ A B f m,
  match m with
  | Normal a => f a
  | TypeError => TypeError
  | OutOfFuel => OutOfFuel
  end.

(** ** Records (plain objects used as maps) *)

(** The keys this module uses are strings of one code point or of one code
    unit; none of them names a property of [Object.prototype], so a lookup
    sees own properties only. *)

Section JSRecord.
Context {V : Type}.

Fixpoint get (o : list (jsstring * V)) (k : jsstring) : option V :=
  match o with
  | [] => None
  | (k', v) :: o' => if decide (k' = k) then Some v else get o' k
  end.

(** [o[k] = v]: an existing property keeps its place, a new one is
    created after all the others. *)
Fixpoint set (o : list (jsstring * V)) (k : jsstring) (v : V) : list (jsstring * V) :=
  match o with
  | [] => [(k, v)]
  | (k', v') :: o' => if decide (k' = k) then (k, v) :: o' else (k', v') :: set o' k v
  end.

Definition isDigit (c : N) : bool := ((48 <=? c) && (c <=? 57))%N.

Definition digitsValue (k : jsstring) : N :=
  fold_left (λ acc c, acc * 10 + (c - 48))%N k 0%N.

(** A property key is an array index when it is the canonical decimal
    form of an integer below 2^32 - 1. *)
Definition arrayIndex (k : jsstring) : option N :=
  match k with
  | [] => None
  | c :: rest =>
      if forallb isDigit k
         && (negb (c =? 48)%N || bool_decide (rest = []))
         && (length k <=? 10)
         && (digitsValue k <? 4294967295)%N
      then Some (digitsValue k) else None
  end.

Definition indexEntries (o : list (jsstring * V)) : list (N * (jsstring * V)) :=
  omap (λ e, (λ i, (i, e)) <$> arrayIndex e.1) o.

Definition index_le (a b : N * (jsstring * V)) : Prop := (a.1 ≤ b.1)%N.

#[global] Instance index_le_dec : RelDecision index_le.
Proof. intros a b. unfold index_le. apply _. Defined.

(** [Object.entries(o)] (own property order of ordinary objects). *)
Definition entries (o : list (jsstring * V)) : list (jsstring * V) :=
  (snd <$> merge_sort index_le (indexEntries o))
    ++ filter (λ e, arrayIndex e.1 = None) o.

Definition keys (o : list (jsstring * V)) : list jsstring := fst <$> o.
End JSRecord.

(** ** Nodes *)

#[local] Unset Elimination Schemes.
Inductive HuffmanNode : Type := mkNode {
  char : option jsstring;
  freq : nat;
  left : option HuffmanNode;
  right : option HuffmanNode
}.
#[local] Set Elimination Schemes.

Record HuffmanResult : Type := mkResult {
  frequencies : list (jsstring * nat);
  codes : list (jsstring * jsstring);
  encoded : jsstring;
  decoded : jsstring;
  compressionRatio : float;
  originalSize : nat;
  compressedSize : nat
}.

Definition createNode (char : option jsstring) (freq : nat)
    (left right : option HuffmanNode) : HuffmanNode :=
  mkNode char freq left right.

(** Conversion of a count to a double (exact below 2^53). *)
Definition number_of_nat (n : nat) : float :=
  PrimFloat.of_uint63 (Uint63.of_Z (Z.of_nat n)).

(** ** class MinHeap

    The private field [heap] is threaded through the methods: each method
    takes the array and returns the array it leaves behind. *)

Module MinHeap.

Definition getParentIndex (index : nat) : nat := (index - 1) / 2.
Definition getLeftChildIndex (index : nat) : nat := 2 * index + 1.
Definition getRightChildIndex (index : nat) : nat := 2 * index + 2.

(** [this.heap[i].freq]: reading [freq] of [undefined] throws. *)
Definition freqAt (heap : list HuffmanNode) (i : nat) : Completion nat :=
  match heap !! i with
  | Some n => Normal (freq n)
  | None => TypeError
  end.

(** [[h[i1], h[i2]] = [h[i2], h[i1]]]: the right-hand side is read first,
    then [h[i1]] and [h[i2]] are written in that order.  Every call site
    has read [.freq] at both indices before, so both are in range; an
    out-of-range swap (which would grow a JavaScript array) is not
    reachable and leaves the list as it is. *)
Definition swap (heap : list HuffmanNode) (index1 index2 : nat) : list HuffmanNode :=
  match heap !! index2, heap !! index1 with
  | Some a, Some b => <[index2 := b]> (<[index1 := a]> heap)
  | _, _ => heap
  end.

Fixpoint heapifyUp_fuel (fuel : nat) (heap : list HuffmanNode) (index : nat)
    : Completion (list HuffmanNode) :=
  if decide (index = 0) then Normal heap else
  match fuel with
  | 0 => OutOfFuel
  | S fuel' =>
      let parentIndex := getParentIndex index in
      fp ← freqAt heap parentIndex;
      fi ← freqAt heap index;
      if fi <? fp
      then heapifyUp_fuel fuel' (swap heap parentIndex index) parentIndex
      else Normal heap
  end.

(** The parent index is smaller than the index, so [index] calls suffice. *)
Definition heapifyUp (heap : list HuffmanNode) (index : nat) : Completion (list HuffmanNode) :=
  heapifyUp_fuel index heap index.

Fixpoint heapifyDown_fuel (fuel : nat) (heap : list HuffmanNode) (index : nat)
    : Completion (list HuffmanNode) :=
  match fuel with
  | 0 => OutOfFuel
  | S fuel' =>
      let leftChildIndex := getLeftChildIndex index in
      let rightChildIndex := getRightChildIndex index in
      let smallest := index in
      smallest ←
        (if leftChildIndex <? length heap then
           fl ← freqAt heap leftChildIndex;
           fs ← freqAt heap smallest;
           mret (if fl <? fs then leftChildIndex else smallest)
         else mret smallest);
      smallest ←
        (if rightChildIndex <? length heap then
           fr ← freqAt heap rightChildIndex;
           fs ← freqAt heap smallest;
           mret (if fr <? fs then rightChildIndex else smallest)
         else mret smallest);
      if decide (smallest ≠ index)
      then heapifyDown_fuel fuel' (swap heap index smallest) smallest
      else Normal heap
  end.

(** The index grows with every call and a call recurses only at an index
    inside the array, so [length heap + 1] calls suffice. *)
Definition heapifyDown (heap : list HuffmanNode) (index : nat) : Completion (list HuffmanNode) :=
  heapifyDown_fuel (S (length heap)) heap index.

(** [Array.prototype.pop]: the last element and the shortened array, or
    [undefined] and the array unchanged when it is empty. *)
Definition pop (heap : list HuffmanNode) : option HuffmanNode * list HuffmanNode :=
  (last heap, take (length heap - 1) heap).

Definition insert (heap : list HuffmanNode) (node : HuffmanNode) : Completion (list HuffmanNode) :=
  let heap := heap ++ [node] in
  heapifyUp heap (length heap - 1).

(** Returns the extracted node ([null] on an empty heap) and the array
    left behind.  In the last branch [pop] is applied to an array of at
    least two elements, so it returns an element; the model has no array
    slot to hold the [undefined] that [this.heap[0] = undefined] would
    store, and that unreachable case is left as a [TypeError]. *)
Definition extractMin (heap : list HuffmanNode)
    : Completion (option HuffmanNode * list HuffmanNode) :=
  if decide (length heap = 0) then Normal (None, heap)
  else if decide (length heap = 1) then Normal (pop heap)
  else
    let min := heap !! 0 in
    let '(lastNode, heap) := pop heap in
    match lastNode with
    | Some lastNode =>
        heap ← heapifyDown (<[0 := lastNode]> heap) 0;
        Normal (min, heap)
    | None => TypeError
    end.

Definition size (heap : list HuffmanNode) : nat := length heap.

End MinHeap.

(** ** The engine *)

(** [(frequencies[char] || 0)]: [undefined] and [0] are both falsy. *)
Definition orZero (v : option nat) : nat :=
  match v with
  | Some (S n) => S n
  | _ => 0
  end.

(** The body of the loop of [calculateFrequencies]. *)
Definition countStep (frequencies : list (jsstring * nat)) (char : jsstring)
    : list (jsstring * nat) :=
  set frequencies char (orZero (get frequencies char) + 1).

Definition calculateFrequencies (text : jsstring) : list (jsstring * nat) :=
  fold_left countStep (codePoints text) [].

Fixpoint insertLeaves (es : list (jsstring * nat)) (heap : list HuffmanNode)
    : Completion (list HuffmanNode) :=
  match es with
  | [] => Normal heap
  | (char, freq) :: es' =>
      heap ← MinHeap.insert heap (createNode (Some char) freq None None);
      insertLeaves es' heap
  end.

(** The [while (heap.size() > 1)] loop; every round shortens the heap by
    one, so [heap.size()] rounds suffice. *)
Fixpoint mergeLoop (fuel : nat) (heap : list HuffmanNode) : Completion (list HuffmanNode) :=
  if 1 <? MinHeap.size heap then
    match fuel with
    | 0 => OutOfFuel
    | S fuel' =>
        '(left, heap) ← MinHeap.extractMin heap;
        '(right, heap) ← MinHeap.extractMin heap;
        match left, right with
        | Some l, Some r =>
            let merged := createNode None (freq l + freq r) left right in
            heap ← MinHeap.insert heap merged;
            mergeLoop fuel' heap
        | _, _ => TypeError
        end
    end
  else Normal heap.

Definition buildHuffmanTree (frequencies : list (jsstring * nat))
    : Completion (option HuffmanNode) :=
  heap ← insertLeaves (entries frequencies) [];
  if decide (MinHeap.size heap = 1) then
    '(node, heap) ← MinHeap.extractMin heap;
    match node with
    | Some n => Normal (Some (createNode None (freq n) node None))
    | None => TypeError
    end
  else
    heap ← mergeLoop (MinHeap.size heap) heap;
    '(root, heap) ← MinHeap.extractMin heap;
    Normal root.

(** [codes] is one object, mutated by every call and handed on: the model
    threads it through the traversal, left subtree first. *)
Fixpoint generateCodesNode (root : HuffmanNode) (code : jsstring)
    (codes : list (jsstring * jsstring)) : list (jsstring * jsstring) :=
  match char root with
  | Some c => set codes c (if decide (code = []) then str_0 else code)
  | None =>
      let codes :=
        match left root with
        | Some l => generateCodesNode l (code ++ str_0) codes
        | None => codes
        end in
      match right root with
      | Some r => generateCodesNode r (code ++ str_1) codes
      | None => codes
      end
  end.

Definition generateCodes (root : option HuffmanNode) (code : jsstring)
    (codes : list (jsstring * jsstring)) : list (jsstring * jsstring) :=
  match root with
  | None => codes
  | Some root => generateCodesNode root code codes
  end.

Definition encodeText (text : jsstring) (codes : list (jsstring * jsstring)) : jsstring :=
  join_empty (map (λ char, get codes char) (split_units text)).

(** The body of [for (const bit of encoded)], with the loop state
    [(decoded, current)]; [current] is [null] after a step into an absent
    child, and the next [current.char] then throws. *)
Fixpoint decodeLoop (root : HuffmanNode) (bits : list jsstring) (decoded : jsstring)
    (current : option HuffmanNode) : Completion (jsstring * option HuffmanNode) :=
  match bits with
  | [] => Normal (decoded, current)
  | bit :: bits' =>
      match current with
      | None => TypeError
      | Some cur =>
          let '(decoded, cur) :=
            match char cur with
            | Some c => (decoded ++ c, root)
            | None => (decoded, cur)
            end in
          let current := if decide (bit = str_0) then left cur else right cur in
          decodeLoop root bits' decoded current
      end
  end.

Definition decodeText (encoded : jsstring) (root : option HuffmanNode) : Completion jsstring :=
  match root with
  | None => Normal []
  | Some root =>
      if decide (encoded = []) then Normal []
      else
        '(decoded, current) ← decodeLoop root (codePoints encoded) [] (Some root);
        match current with
        | None => TypeError
        | Some cur =>
            match char cur with
            | Some c => Normal (decoded ++ c)
            | None => Normal decoded
            end
        end
  end.

Definition huffmanEncode (text : jsstring) : Completion HuffmanResult :=
  if decide (text = []) then
    Normal (mkResult [] [] [] [] 0%float 0 0)
  else
    let frequencies := calculateFrequencies text in
    root ← buildHuffmanTree frequencies;
    let codes := generateCodes root [] [] in
    let encoded := encodeText text codes in
    decoded ← decodeText encoded root;
    let originalSize := length text * 8 in
    let compressedSize := length encoded in
    let compressionRatio :=
      if 0 <? originalSize
      then (number_of_nat compressedSize / number_of_nat originalSize * 100)%float
      else 0%float in
    Normal (mkResult frequencies codes encoded decoded
                     compressionRatio originalSize compressedSize).

(** ** The engine with its objects in a store

    The engine above passes the contents of its objects from one step to
    the next.  What two invocations in one program have in common is the
    store of objects, so the engine is given once more with the objects
    it creates and writes to held in a store: the frequency table
    ([frequencies = {}]), the array of a heap ([new MinHeap()]) and the
    code table (the default [codes = {}] of [generateCodes]).  An object
    is known by its place in the store, and a new object takes the next
    free place.  A node is never written after [createNode] and a string
    is a primitive value: both stay values. *)

Inductive Cell : Type :=
| FreqObj (o : list (jsstring * nat))
| CodeObj (o : list (jsstring * jsstring))
| HeapArr (heap : list HuffmanNode).

Abbreviation Store := (list Cell).

Module Realm.

(** A computation reads and writes the store and returns or throws. *)
Record M (A : Type) : Type := mkM { run : Store → Completion (A * Store) }.
Arguments mkM {A} run.
Arguments run {A} m σ.

#[global] Instance M_ret : MRet M := λ A a, mkM (λ σ, Normal (a, σ)).
#[global] Instance M_bind : MBind M := λ A B f m,
  mkM (λ σ,
    match run m σ with
    | Normal (a, σ') => run (f a) σ'
    | TypeError => TypeError
    | OutOfFuel => OutOfFuel
    end).

Definition throw {A} : M A := mkM (λ _, TypeError).

(** A step of the engine that touches no object. *)
Definition pure {A} (c : Completion A) : M A :=
  mkM (λ σ, match c with
            | Normal a => Normal (a, σ)
            | TypeError => TypeError
            | OutOfFuel => OutOfFuel
            end).

(** A new object: the next free place of the store. *)
Definition alloc (c : Cell) : M nat := mkM (λ σ, Normal (length σ, σ ++ [c])).

(** Reading an object as a table or as an array.  The engine reads an
    object only through the variable it was created for, so the other
    cases do not occur; they are left as [TypeError]. *)
Definition readFreq (ref : nat) : M (list (jsstring * nat)) :=
  mkM (λ σ, match σ !! ref with
            | Some (FreqObj o) => Normal (o, σ)
            | _ => TypeError
            end).

Definition readCodes (ref : nat) : M (list (jsstring * jsstring)) :=
  mkM (λ σ, match σ !! ref with
            | Some (CodeObj o) => Normal (o, σ)
            | _ => TypeError
            end).

Definition readHeap (ref : nat) : M (list HuffmanNode) :=
  mkM (λ σ, match σ !! ref with
            | Some (HeapArr heap) => Normal (heap, σ)
            | _ => TypeError
            end).

Definition write (ref : nat) (c : Cell) : M unit :=
  mkM (λ σ, Normal (tt, <[ref := c]> σ)).

(** [class MinHeap]: an instance is the place of its array; a method
    runs on the array of [this] and leaves there the array it ends with. *)
Definition MinHeap_new : M nat := alloc (HeapArr []).

Definition MinHeap_insert (this : nat) (node : HuffmanNode) : M unit :=
  heap ← readHeap this;
  heap ← pure (MinHeap.insert heap node);
  write this (HeapArr heap).

Definition MinHeap_extractMin (this : nat) : M (option HuffmanNode) :=
  heap ← readHeap this;
  '(min, heap) ← pure (MinHeap.extractMin heap);
  _ ← write this (HeapArr heap);
  mret min.

Definition MinHeap_size (this : nat) : M nat :=
  heap ← readHeap this;
  mret (MinHeap.size heap).

(** The loop of [calculateFrequencies] on the object [frequencies]. *)
Fixpoint countLoop (frequencies : nat) (chars : list jsstring) : M unit :=
  match chars with
  | [] => mret tt
  | char :: chars' =>
      o ← readFreq frequencies;
      _ ← write frequencies (FreqObj (set o char (orZero (get o char) + 1)));
      countLoop frequencies chars'
  end.

Definition calculateFrequencies (text : jsstring) : M nat :=
  frequencies ← alloc (FreqObj []);
  _ ← countLoop frequencies (codePoints text);
  mret frequencies.

Fixpoint insertLeaves (heap : nat) (es : list (jsstring * nat)) : M unit :=
  match es with
  | [] => mret tt
  | (char, freq) :: es' =>
      _ ← MinHeap_insert heap (createNode (Some char) freq None None);
      insertLeaves heap es'
  end.

Fixpoint mergeLoop (fuel : nat) (heap : nat) : M unit :=
  n ← MinHeap_size heap;
  if 1 <? n then
    match fuel with
    | 0 => pure OutOfFuel
    | S fuel' =>
        left ← MinHeap_extractMin heap;
        right ← MinHeap_extractMin heap;
        match left, right with
        | Some l, Some r =>
            let merged := createNode None (freq l + freq r) left right in
            _ ← MinHeap_insert heap merged;
            mergeLoop fuel' heap
        | _, _ => throw
        end
    end
  else mret tt.

Definition buildHuffmanTree (frequencies : nat) : M (option HuffmanNode) :=
  heap ← MinHeap_new;
  o ← readFreq frequencies;
  _ ← insertLeaves heap (entries o);
  n ← MinHeap_size heap;
  if decide (n = 1) then
    node ← MinHeap_extractMin heap;
    match node with
    | Some n => mret (Some (createNode None (freq n) node None))
    | None => throw
    end
  else
    _ ← mergeLoop n heap;
    MinHeap_extractMin heap.

(** The traversal of [generateCodes] below a node, writing to the one
    object [codes] that every call is handed. *)
Fixpoint generateCodesNode (root : HuffmanNode) (code : jsstring) (codes : nat)
    : M unit :=
  match char root with
  | Some c =>
      o ← readCodes codes;
      write codes (CodeObj (set o c (if decide (code = []) then str_0 else code)))
  | None =>
      _ ← match left root with
          | Some l => generateCodesNode l (code ++ str_0) codes
          | None => mret tt
          end;
      match right root with
      | Some r => generateCodesNode r (code ++ str_1) codes
      | None => mret tt
      end
  end.

(** [codes = {}]: a call without the third argument creates the object. *)
Definition generateCodes (root : option HuffmanNode) (code : jsstring)
    (codes : option nat) : M nat :=
  codes ← match codes with
          | Some codes => mret codes
          | None => alloc (CodeObj [])
          end;
  _ ← match root with
      | Some root => generateCodesNode root code codes
      | None => mret tt
      end;
  mret codes.

Definition encodeText (text : jsstring) (codes : nat) : M jsstring :=
  o ← readCodes codes;
  mret (encodeText text o).

(** The result: the two tables are objects, the other fields are values. *)
Record HuffmanResult : Type := mkResult {
  frequencies : nat;
  codes : nat;
  encoded : jsstring;
  decoded : jsstring;
  compressionRatio : float;
  originalSize : nat;
  compressedSize : nat
}.

Definition huffmanEncode (text : jsstring) : M HuffmanResult :=
  if decide (text = []) then
    frequencies ← alloc (FreqObj []);
    codes ← alloc (CodeObj []);
    mret (mkResult frequencies codes [] [] 0%float 0 0)
  else
    frequencies ← calculateFrequencies text;
    root ← buildHuffmanTree frequencies;
    codes ← generateCodes root [] None;
    encoded ← encodeText text codes;
    decoded ← pure (decodeText encoded root);
    let originalSize := length text * 8 in
    let compressedSize := length encoded in
    let compressionRatio :=
      if 0 <? originalSize
      then (number_of_nat compressedSize / number_of_nat originalSize * 100)%float
      else 0%float in
    mret (mkResult frequencies codes encoded decoded
                   compressionRatio originalSize compressedSize).

End Realm.

(** The tables of a result, read from a store. *)
Definition frequenciesIn (σ : Store) (r : Realm.HuffmanResult)
    : option (list (jsstring * nat)) :=
  match σ !! Realm.frequencies r with
  | Some (FreqObj o) => Some o
  | _ => None
  end.

Definition codesIn (σ : Store) (r : Realm.HuffmanResult)
    : option (list (jsstring * jsstring)) :=
  match σ !! Realm.codes r with
  | Some (CodeObj o) => Some o
  | _ => None
  end.


(** ** Vocabulary of the statements *)

Definition optP (P : HuffmanNode → Prop) (o : option HuffmanNode) : Prop :=
  match o with
  | Some n => P n
  | None => True
  end.

(** Structural induction over a node and its children. *)
Fixpoint HuffmanNode_ind (P : HuffmanNode → Prop)
    (H : ∀ c f l r, optP P l → optP P r → P (mkNode c f l r))
    (n : HuffmanNode) : P n :=
  match n with
  | mkNode c f l r =>
      H c f l r
        (match l with Some x => HuffmanNode_ind P H x | None => I end)
        (match r with Some x => HuffmanNode_ind P H x | None => I end)
  end.

(** The leaves under a node, left to right, as (symbol, weight).  As in
    [generateCodes] and [decodeText], a node is a leaf when its [char] is
    not [null]. *)
Fixpoint leafList (n : HuffmanNode) : list (jsstring * nat) :=
  match char n with
  | Some c => [(c, freq n)]
  | None =>
      match left n with Some l => leafList l | None => [] end
      ++ match right n with Some r => leafList r | None => [] end
  end.

(** The leaves under a node with the path that leads to each: ["0"] for a
    step to the left, ["1"] for a step to the right. *)
Fixpoint leafPaths (n : HuffmanNode) : list (jsstring * jsstring) :=
  match char n with
  | Some c => [(c, [])]
  | None =>
      match left n with
      | Some l => (λ cp, (cp.1, 48%N :: cp.2)) <$> leafPaths l
      | None => []
      end
      ++ match right n with
         | Some r => (λ cp, (cp.1, 49%N :: cp.2)) <$> leafPaths r
         | None => []
         end
  end.

(** The node a path leads to; a path does not continue below a leaf. *)
Fixpoint descend (path : jsstring) (n : HuffmanNode) : option HuffmanNode :=
  match path with
  | [] => Some n
  | b :: path' =>
      match char n with
      | Some _ => None
      | None =>
          if decide (b = 48%N) then left n ≫= descend path'
          else if decide (b = 49%N) then right n ≫= descend path'
          else None
      end
  end.

(** A strict binary tree with positive leaf weights in which the weight of
    an internal node is the sum of the weights of its children. *)
Fixpoint properTree (n : HuffmanNode) : Prop :=
  match char n with
  | Some _ => left n = None ∧ right n = None ∧ 1 ≤ freq n
  | None =>
      match left n, right n with
      | Some l, Some r => freq n = freq l + freq r ∧ properTree l ∧ properTree r
      | _, _ => False
      end
  end.

(** The weights of all nodes strictly below a node. *)
Fixpoint innerFreqs (n : HuffmanNode) : list nat :=
  match left n with Some l => freq l :: innerFreqs l | None => [] end
  ++ match right n with Some r => freq r :: innerFreqs r | None => [] end.

(** For every node with two children, the weights of the two. *)
Fixpoint siblingPairs (n : HuffmanNode) : list (nat * nat) :=
  match left n, right n with
  | Some l, Some r => (freq l, freq r) :: siblingPairs l ++ siblingPairs r
  | Some l, None => siblingPairs l
  | None, Some r => siblingPairs r
  | None, None => []
  end.

(** Two sibling pairs do not interleave: both weights of one are at most
    both weights of the other. *)
Definition pairLe (x y : nat * nat) : Prop :=
  x.1 ≤ y.1 ∧ x.1 ≤ y.2 ∧ x.2 ≤ y.1 ∧ x.2 ≤ y.2.
Definition apart (x y : nat * nat) : Prop := pairLe x y ∨ pairLe y x.

Fixpoint allApart (l : list (nat * nat)) : Prop :=
  match l with
  | [] => True
  | x :: l' => Forall (apart x) l' ∧ allApart l'
  end.

Definition sumCounts (o : list (jsstring * nat)) : nat := sum_list (snd <$> o).

Definition isChild (i c : nat) : Prop :=
  c = MinHeap.getLeftChildIndex i ∨ c = MinHeap.getRightChildIndex i.

(** The min-heap order of the array: no element is lighter than the
    element at its parent index. *)
Definition heapOrdered (heap : list HuffmanNode) : Prop :=
  ∀ i c x y, isChild i c →
    heap !! i = Some x → heap !! c = Some y → freq x ≤ freq y.

(** The order while [heapifyUp] is at index [k]: only the element at [k]
    may be lighter than its parent, and the parent of [k] is no heavier
    than the children of [k]. *)
Definition orderedAbove (heap : list HuffmanNode) (k : nat) : Prop :=
  (∀ i c x y, isChild i c → c ≠ k →
     heap !! i = Some x → heap !! c = Some y → freq x ≤ freq y)
  ∧ (∀ g c x y, isChild g k → isChild k c →
     heap !! g = Some x → heap !! c = Some y → freq x ≤ freq y).

(** The order while [heapifyDown] is at index [k]: only the element at [k]
    may be heavier than its children. *)
Definition orderedBelow (heap : list HuffmanNode) (k : nat) : Prop :=
  (∀ i c x y, isChild i c → i ≠ k →
     heap !! i = Some x → heap !! c = Some y → freq x ≤ freq y)
  ∧ (∀ g c x y, isChild g k → isChild k c →
     heap !! g = Some x → heap !! c = Some y → freq x ≤ freq y).

(** The first half of the body of [heapifyDown]: the index among [index]
    and its children in range that holds the lightest element. *)
Definition smallestOf (heap : list HuffmanNode) (index : nat) : Completion nat :=
  let leftChildIndex := MinHeap.getLeftChildIndex index in
  let rightChildIndex := MinHeap.getRightChildIndex index in
  let smallest := index in
  smallest ←
    (if leftChildIndex <? length heap then
       fl ← MinHeap.freqAt heap leftChildIndex;
       fs ← MinHeap.freqAt heap smallest;
       mret (if fl <? fs then leftChildIndex else smallest)
     else mret smallest);
  (if rightChildIndex <? length heap then
     fr ← MinHeap.freqAt heap rightChildIndex;
     fs ← MinHeap.freqAt heap smallest;
     mret (if fr <? fs then rightChildIndex else smallest)
   else mret smallest).

(** The weights of the two children of a node. *)
Definition childFreqs (n : HuffmanNode) : option (nat * nat) :=
  match left n, right n with
  | Some l, Some r => Some (freq l, freq r)
  | _, _ => None
  end.

(** The leaf [buildHuffmanTree] creates for an entry of the table. *)
Definition leafOf (e : jsstring * nat) : HuffmanNode :=
  createNode (Some e.1) e.2 None None.

(** What holds of the heap between two rounds of [buildHuffmanTree]: the
    array is heap-ordered, its elements are proper trees, no node below a
    root is heavier than any root, and no two sibling pairs interleave. *)
Definition forestInv (heap : list HuffmanNode) : Prop :=
  heapOrdered heap
  ∧ Forall properTree heap
  ∧ (∀ t1 t2 w, t1 ∈ heap → t2 ∈ heap → w ∈ innerFreqs t1 → w ≤ freq t2)
  ∧ allApart (heap ≫= siblingPairs).

(** [code || "0"]: the empty string is falsy. *)
Definition orStr0 (code : jsstring) : jsstring :=
  if decide (code = []) then str_0 else code.

(** The symbols [encodeText] finds in the code table, each with its code,
    in the order of the text. *)
Definition encodedSymbols (text : jsstring) (codes : list (jsstring * jsstring))
    : list (jsstring * jsstring) :=
  omap (λ u, (λ v, (u, v)) <$> get codes u) (split_units text).

(** The text a state of the decoding loop stands for: what was emitted,
    and the symbol of the leaf the walk is at, if it is at one. *)
Definition pendingText (st : jsstring * option HuffmanNode) : jsstring :=
  st.1 ++ match st.2 with
          | Some cur => default [] (char cur)
          | None => []
          end.

(** No code of the table is a prefix of the code of another symbol. *)
Definition prefixFreeTable (codes : list (jsstring * jsstring)) : Prop :=
  ∀ s1 s2 c1 c2, s1 ≠ s2 →
    get codes s1 = Some c1 → get codes s2 = Some c2 → ¬ c1 `prefix_of` c2.

(** The single-symbol tree: one internal node over one leaf on the left. *)
Definition wrapperTree (c : jsstring) (f : nat) : HuffmanNode :=
  createNode None f (Some (createNode (Some c) f None None)) None.

Definition noHighSurrogate (s : jsstring) : Prop :=
  Forall (λ c, isHighSurrogate c = false) s.

(** No high surrogate of the string is followed by a low surrogate. *)
Fixpoint noSurrogatePair (s : jsstring) : Prop :=
  match s with
  | [] => True
  | c :: rest =>
      match rest with
      | d :: _ => isHighSurrogate c && isLowSurrogate d = false
      | [] => True
      end
      ∧ noSurrogatePair rest
  end.

(** ** Vocabulary of the further properties *)

(** A strict binary tree in which the weight of an internal node is the
    sum of the weights of its children (leaf weights are not constrained). *)
Fixpoint strictTree (n : HuffmanNode) : Prop :=
  match char n with
  | Some _ => left n = None ∧ right n = None
  | None =>
      match left n, right n with
      | Some l, Some r => freq n = freq l + freq r ∧ strictTree l ∧ strictTree r
      | _, _ => False
      end
  end.

(** At every node with two children the left child is no heavier than the
    right child. *)
Fixpoint leftLighter (n : HuffmanNode) : Prop :=
  match left n, right n with
  | Some l, Some r => freq l ≤ freq r ∧ leftLighter l ∧ leftLighter r
  | Some l, None => leftLighter l
  | None, Some r => leftLighter r
  | None, None => True
  end.

(** The number of times an element occurs in a list. *)
Definition occurrences {A} `{EqDecision A} (x : A) (l : list A) : nat :=
  length (filter (λ y, y = x) l).

(** The distinct elements of a list, each at the place of its first
    occurrence. *)
Definition firstOccurrences {A} `{EqDecision A} (l : list A) : list A :=
  reverse (remove_dups (reverse l)).

(** The length of the text encoded with a code table, read off the
    frequency table: each symbol counts with the length of its code, as
    often as it occurs (a symbol without a code counts with length 0). *)
Definition tableCost (fr : list (jsstring * nat)) (codes : list (jsstring * jsstring))
    : nat :=
  sum_list_with (λ e, e.2 * length (default [] (get codes e.1))) fr.

Definition isBit (b : N) : Prop := b = 48%N ∨ b = 49%N.

(** A string read the way the loop of [decodeText] reads it: one bit per
    element of the string iterator, ['0'] for the element ["0"] and ['1']
    for any other element. *)
Definition asBits (encoded : jsstring) : jsstring :=
  (λ bit, if decide (bit = str_0) then 48%N else 49%N) <$> codePoints encoded.

(** A small strict tree: a leaf ["a"] on the left, and on the right an
    internal node over the leaves ["b"] and ["c"]. *)
Definition tree_a_bc : HuffmanNode :=
  createNode None 4
    (Some (createNode (Some [97%N]) 2 None None))
    (Some (createNode None 2
             (Some (createNode (Some [98%N]) 1 None None))
             (Some (createNode (Some [99%N]) 1 None None)))).

(** The leaves under a node, left to right: symbol, weight and path. *)
Fixpoint leafRows (n : HuffmanNode) : list (jsstring * (nat * jsstring)) :=
  match char n with
  | Some c => [(c, (freq n, []))]
  | None =>
      match left n with
      | Some l => (λ row, (row.1, (row.2.1, 48%N :: row.2.2))) <$> leafRows l
      | None => []
      end
      ++ match right n with
         | Some r => (λ row, (row.1, (row.2.1, 49%N :: row.2.2))) <$> leafRows r
         | None => []
         end
  end.

(** An assignment of depths (code lengths) to weights, as (weight, depth)
    pairs, and what it costs: weight times depth, summed. *)
Definition assignmentCost (l : list (nat * nat)) : nat :=
  sum_list_with (λ wd, wd.1 * wd.2) l.

(** The weight and depth of every leaf under a node, and the weighted
    path length of the node. *)
Definition weightedDepths (n : HuffmanNode) : list (nat * nat) :=
  (λ row, (row.2.1, length row.2.2)) <$> leafRows n.

Definition pathCost (n : HuffmanNode) : nat := assignmentCost (weightedDepths n).

(** Kraft's sum of a list of depths, scaled by [2 ^ D], and Kraft's
    inequality for an assignment. *)
Definition kraftSum (D : nat) (ds : list nat) : nat :=
  sum_list_with (λ d, 2 ^ (D - d)) ds.

Definition kraft (l : list (nat * nat)) : Prop :=
  ∃ D, Forall (λ wd, wd.2 ≤ D) l ∧ kraftSum D (l.*2) ≤ 2 ^ D.

(** The cost of merging weights the way [buildHuffmanTree] does: the two
    lightest are replaced by their sum, at the price of that sum, until
    one weight is left. *)
Inductive huffmanCost : list nat → nat → Prop :=
| huffmanCost_one w : huffmanCost [w] 0
| huffmanCost_merge W a b W' c :
    W ≡ₚ a :: b :: W' → a ≤ b → Forall (λ x, b ≤ x) W' →
    huffmanCost ((a + b) :: W') c →
    huffmanCost W (a + b + c).

(** A list of words none of which is a prefix of another one. *)
Fixpoint prefixFreeWords (ws : list jsstring) : Prop :=
  match ws with
  | [] => True
  | w :: ws' =>
      Forall (λ v, ¬ w `prefix_of` v ∧ ¬ v `prefix_of` w) ws' ∧ prefixFreeWords ws'
  end.

(** The words that start with [b], without that first character. *)
Definition tailsAfter (b : N) (ws : list jsstring) : list jsstring :=
  omap (λ w, match w with
             | c :: t => if decide (c = b) then Some t else None
             | [] => None
             end) ws.

(** A three-bit code for the five symbols of ["abracadabra"]. *)
Definition fixedCodes_abracadabra : list (jsstring * jsstring) :=
  [([97%N], [48; 48; 48]%N); ([98%N], [48; 48; 49]%N); ([114%N], [48; 49; 48]%N);
   ([99%N], [48; 49; 49]%N); ([100%N], [49; 48; 48]%N)].

(** ** Sample inputs *)

(** ["aaaa"] *)
Definition text_aaaa : jsstring := [97; 97; 97; 97]%N.

(** ["ab"] *)
Definition text_ab : jsstring := [97; 98]%N.

(** ["abracadabra"] *)
Definition text_abracadabra : jsstring :=
  [97; 98; 114; 97; 99; 97; 100; 97; 98; 114; 97]%N.

(** The one-character text U+1F600, the surrogate pair D83D DE00. *)
Definition text_grin : jsstring := [0xD83D; 0xDE00]%N.

Definition result_aaaa : HuffmanResult :=
  mkResult [([97%N], 4)] [([97%N], str_0)] [48; 48; 48; 48]%N text_aaaa
           12.5%float 32 4.

(* ===================================================================== *)
(** * Part II: properties *)
(* ===================================================================== *)

(** ** Strings *)

Lemma codePoints_units s : noSurrogatePair s → codePoints s = split_units s.
Proof.
  induction s as [|c s IH]; [done|].
  cbn [noSurrogatePair codePoints]. intros [Hc Hs]. destruct s as [|d s'].
  - done.
  - rewrite Hc. by rewrite (IH Hs).
Qed.

Lemma noHighSurrogate_noSurrogatePair s : noHighSurrogate s → noSurrogatePair s.
Proof.
  induction 1 as [|c s Hc Hs IH]; [done|]. cbn. split; [|done].
  destruct s; [done|]. by rewrite Hc.
Qed.

Lemma codePoints_nil_inv s : codePoints s = [] → s = [].
Proof.
  destruct s as [|c [|d s]]; [done|done|]. cbn [codePoints].
  by destruct (isHighSurrogate c && isLowSurrogate d).
Qed.

(** ** Records *)

Section RecordFacts.
Context {V : Type}.
Implicit Types (o : list (jsstring * V)) (k : jsstring) (v : V).

Lemma get_set_eq o k v : get (set o k v) k = Some v.
Proof.
  induction o as [|[k' v'] o IH]; cbn.
  - by rewrite decide_True.
  - destruct (decide (k' = k)) as [->|Hne]; cbn.
    + by rewrite decide_True.
    + by rewrite decide_False.
Qed.

Lemma get_set_ne o k k' v : k ≠ k' → get (set o k v) k' = get o k'.
Proof.
  intros Hne. induction o as [|[k1 v1] o IH]; cbn.
  - by rewrite decide_False.
  - destruct (decide (k1 = k)) as [->|Hne1]; cbn.
    + by rewrite !decide_False.
    + by rewrite IH.
Qed.

Lemma get_None o k : get o k = None ↔ k ∉ keys o.
Proof.
  unfold keys. induction o as [|[k1 v1] o IH]; cbn.
  - split; [intros _; apply not_elem_of_nil | done].
  - rewrite not_elem_of_cons. destruct (decide (k1 = k)) as [->|Hne].
    + split; [done | intros [? _]; done].
    + rewrite IH. split; [intros ?; split; [congruence|done] | intros [_ ?]; done].
Qed.

Lemma get_Some_elem o k v : get o k = Some v → (k, v) ∈ o.
Proof.
  induction o as [|[k1 v1] o IH]; cbn; [done|].
  destruct (decide (k1 = k)) as [->|Hne].
  - intros [= ->]. apply list_elem_of_here.
  - intros H. apply list_elem_of_further. auto.
Qed.

Lemma elem_get o k v : NoDup (keys o) → (k, v) ∈ o → get o k = Some v.
Proof.
  unfold keys. induction o as [|[k1 v1] o IH]; cbn.
  - intros _ H. by apply elem_of_nil in H.
  - intros Hnd H. apply NoDup_cons in Hnd as [Hk1 Hnd].
    apply elem_of_cons in H as [[= -> ->]|H].
    + by rewrite decide_True.
    + rewrite decide_False; [auto|].
      intros ->. apply Hk1. apply list_elem_of_fmap. by exists (k, v).
Qed.

Lemma keys_set o k v :
  keys (set o k v) = if decide (k ∈ keys o) then keys o else keys o ++ [k].
Proof.
  unfold keys. induction o as [|[k1 v1] o IH]; cbn.
  - rewrite decide_False; [done | apply not_elem_of_nil].
  - destruct (decide (k1 = k)) as [->|Hne]; cbn.
    + rewrite decide_True; [done | apply list_elem_of_here].
    + rewrite IH. destruct (decide (k ∈ o.*1)) as [Hin|Hnin].
      * rewrite decide_True; [done | by apply list_elem_of_further].
      * rewrite decide_False; [done|].
        rewrite not_elem_of_cons. split; [congruence | done].
Qed.

Lemma NoDup_keys_set o k v : NoDup (keys o) → NoDup (keys (set o k v)).
Proof.
  intros Hnd. rewrite keys_set. case_decide; [done|].
  apply NoDup_app. split_and!; [done | | apply NoDup_singleton].
  intros x Hx Hx'. apply list_elem_of_singleton in Hx'. by subst.
Qed.

Lemma Forall_set (P : jsstring * V → Prop) o k v :
  Forall P o → P (k, v) → Forall P (set o k v).
Proof.
  intros Ho Hkv. induction Ho as [|[k1 v1] o H1 Ho IH]; cbn.
  - by apply Forall_singleton.
  - case_decide; apply Forall_cons; auto.
Qed.

Lemma indexEntries_cons e o :
  indexEntries (e :: o) =
    match arrayIndex e.1 with
    | Some i => (i, e) :: indexEntries o
    | None => indexEntries o
    end.
Proof. unfold indexEntries. cbn. by destruct (arrayIndex e.1). Qed.

Lemma entries_perm o : entries o ≡ₚ o.
Proof.
  unfold entries. rewrite merge_sort_Permutation.
  induction o as [|e o IH]; [done|].
  rewrite indexEntries_cons, filter_cons.
  destruct (arrayIndex e.1) as [i|] eqn:Hi.
  - rewrite decide_False by done. cbn. by rewrite IH.
  - rewrite decide_True by done. rewrite <- Permutation_middle. by rewrite IH.
Qed.

Lemma entries_nil_inv o : entries o = [] → o = [].
Proof. intros H. apply Permutation_nil_r. by rewrite <- H, entries_perm. Qed.
End RecordFacts.

Lemma sumCounts_set (o : list (jsstring * nat)) k v :
  sumCounts (set o k v) + default 0 (get o k) = sumCounts o + v.
Proof.
  unfold sumCounts. induction o as [|[k1 v1] o IH]; cbn.
  - lia.
  - destruct (decide (k1 = k)) as [->|Hne]; cbn; lia.
Qed.

Lemma sumCounts_perm (o1 o2 : list (jsstring * nat)) :
  o1 ≡ₚ o2 → sumCounts o1 = sumCounts o2.
Proof. unfold sumCounts. by intros ->. Qed.

(** ** calculateFrequencies *)

Lemma countStep_spec o c :
  NoDup (keys o) → Forall (λ e, 1 ≤ e.2) o →
  NoDup (keys (countStep o c)) ∧ Forall (λ e, 1 ≤ e.2) (countStep o c)
  ∧ sumCounts (countStep o c) = sumCounts o + 1
  ∧ (∀ k, k ∈ keys (countStep o c) ↔ k ∈ keys o ∨ k = c).
Proof.
  intros Hnd Hpos. unfold countStep. split_and!.
  - by apply NoDup_keys_set.
  - apply Forall_set; [done | cbn; lia].
  - pose proof (sumCounts_set o c (orZero (get o c) + 1)) as Hs.
    destruct (get o c) as [n|] eqn:Hg; simpl in Hs |- *; [|lia].
    apply get_Some_elem in Hg.
    rewrite Forall_forall in Hpos. specialize (Hpos _ Hg). cbn [snd] in Hpos.
    destruct n; simpl in Hs |- *; lia.
  - intros k. rewrite keys_set. case_decide as Hin.
    + split; [by left | intros [?| ->]; done].
    + rewrite elem_of_app, list_elem_of_singleton. done.
Qed.

Lemma countFold_spec cps o :
  NoDup (keys o) → Forall (λ e, 1 ≤ e.2) o →
  let o' := fold_left countStep cps o in
  NoDup (keys o') ∧ Forall (λ e, 1 ≤ e.2) o'
  ∧ sumCounts o' = sumCounts o + length cps
  ∧ (∀ k, k ∈ keys o' ↔ k ∈ keys o ∨ k ∈ cps).
Proof.
  revert o. induction cps as [|c cps IH]; intros o Hnd Hpos; cbn zeta; cbn [fold_left length].
  - split_and!; [done | done | lia |].
    intros k. split; [by left | intros [?|H]; [done | by apply elem_of_nil in H]].
  - destruct (countStep_spec o c Hnd Hpos) as (Hnd1 & Hpos1 & Hsum1 & Hk1).
    destruct (IH _ Hnd1 Hpos1) as (Hnd2 & Hpos2 & Hsum2 & Hk2).
    split_and!; [done | done | lia |].
    intros k. rewrite Hk2, Hk1, elem_of_cons. tauto.
Qed.

Lemma calculateFrequencies_spec text :
  let fr := calculateFrequencies text in
  NoDup (keys fr) ∧ Forall (λ e, 1 ≤ e.2) fr
  ∧ sumCounts fr = length (codePoints text)
  ∧ (∀ k, k ∈ keys fr ↔ k ∈ codePoints text).
Proof.
  destruct (countFold_spec (codePoints text) []) as (H1 & H2 & H3 & H4).
  { apply NoDup_nil_2. } { apply Forall_nil_2. }
  split_and!; [done | done | done |].
  intros k. rewrite H4. split; [intros [H|H]; [by apply elem_of_nil in H | done] | by right].
Qed.

Lemma calculateFrequencies_nonempty text :
  text ≠ [] → calculateFrequencies text ≠ [].
Proof.
  intros Ht Hfr. destruct (calculateFrequencies_spec text) as (_ & _ & Hsum & _).
  rewrite Hfr in Hsum. cbn in Hsum. symmetry in Hsum.
  apply length_zero_iff_nil, codePoints_nil_inv in Hsum. done.
Qed.

(** ** MinHeap *)

Section HeapFacts.
Import MinHeap.
Implicit Types (h heap : list HuffmanNode) (x y : HuffmanNode).

Lemma bind_Normal {A B} (f : A → Completion B) (a : A) :
  (Normal a ≫= f) = f a.
Proof. reflexivity. Qed.

Lemma parent_child k : k ≠ 0 → isChild (getParentIndex k) k.
Proof.
  unfold isChild, getParentIndex, getLeftChildIndex, getRightChildIndex.
  intros Hk. pose proof (Nat.div_mod_eq (k - 1) 2) as H1.
  pose proof (Nat.mod_upper_bound (k - 1) 2) as H2. lia.
Qed.

Lemma isChild_lt i c : isChild i c → i < c.
Proof. unfold isChild, getLeftChildIndex, getRightChildIndex. lia. Qed.

Lemma isChild_parent i c : isChild i c → i = getParentIndex c.
Proof.
  intros Hc. assert (c ≠ 0) as Hc0 by (apply isChild_lt in Hc; lia).
  pose proof (parent_child c Hc0) as Hp. revert Hc Hp.
  unfold isChild, getLeftChildIndex, getRightChildIndex. lia.
Qed.

Lemma freqAt_Some h i x : h !! i = Some x → freqAt h i = Normal (freq x).
Proof. unfold freqAt. by intros ->. Qed.

Lemma insert_perm {A} (l : list A) (i : nat) (a b : A) :
  l !! i = Some a → <[i:=b]> l ≡ₚ b :: delete i l.
Proof.
  revert i. induction l as [|z l IH]; intros [|i] Hi; cbn in *; try done.
  rewrite (IH i Hi). apply Permutation_swap.
Qed.

Lemma swap_length h i j : length (swap h i j) = length h.
Proof.
  unfold swap. destruct (h !! j), (h !! i); try done.
  by rewrite !length_insert.
Qed.

Lemma swap_lookup h i j a b k :
  h !! i = Some a → h !! j = Some b → i ≠ j →
  swap h i j !! k =
    if decide (k = i) then Some b else if decide (k = j) then Some a else h !! k.
Proof.
  intros Hi Hj Hne. unfold swap. rewrite Hi, Hj.
  assert (i < length h) by (by eapply lookup_lt_Some).
  assert (j < length h) by (by eapply lookup_lt_Some).
  destruct (decide (k = i)) as [->|Hki].
  - rewrite list_lookup_insert_ne by done.
    by rewrite list_lookup_insert_eq.
  - destruct (decide (k = j)) as [->|Hkj].
    + by rewrite list_lookup_insert_eq by (by rewrite length_insert).
    + by rewrite !list_lookup_insert_ne.
Qed.

Lemma swap_perm h i j : swap h i j ≡ₚ h.
Proof.
  unfold swap. destruct (h !! j) as [a|] eqn:Hj; [|done].
  destruct (h !! i) as [b|] eqn:Hi; [|done].
  destruct (decide (i = j)) as [->|Hne].
  - assert (a = b) as -> by congruence.
    by rewrite (list_insert_id h j b Hi), (list_insert_id h j b Hi).
  - set (h1 := <[i:=a]> h).
    assert (h1 !! j = Some a) as Hj1.
    { unfold h1. by rewrite list_lookup_insert_ne. }
    rewrite (insert_perm h1 j a b Hj1).
    rewrite (delete_Permutation h i b Hi).
    apply Permutation_cons; [done|].
    apply (Permutation_cons_inv (a:=a)).
    rewrite <- (delete_Permutation h1 j a Hj1).
    unfold h1. by rewrite (insert_perm h i b a Hi).
Qed.

Lemma heapifyUp_fuel_eq fuel h k :
  heapifyUp_fuel fuel h k =
    if decide (k = 0) then Normal h else
    match fuel with
    | 0 => OutOfFuel
    | S fuel' =>
        fp ← freqAt h (getParentIndex k);
        fi ← freqAt h k;
        if fi <? fp
        then heapifyUp_fuel fuel' (swap h (getParentIndex k) k) (getParentIndex k)
        else Normal h
    end.
Proof. by destruct fuel. Qed.

Lemma heapifyDown_fuel_eq fuel h k :
  heapifyDown_fuel (S fuel) h k =
    (smallest ← smallestOf h k;
     if decide (smallest ≠ k)
     then heapifyDown_fuel fuel (swap h k smallest) smallest
     else Normal h).
Proof.
  cbn [heapifyDown_fuel]. unfold smallestOf.
  destruct (getLeftChildIndex k <? length h); [|done].
  destruct (freqAt h (getLeftChildIndex k)); [|done..].
  cbn. destruct (freqAt h k); done.
Qed.

Lemma orderedAbove_root h : orderedAbove h 0 → heapOrdered h.
Proof.
  intros [H1 _] i c x y Hc. apply H1; [done|].
  apply isChild_lt in Hc. lia.
Qed.

Lemma orderedAbove_snoc h x : heapOrdered h → orderedAbove (h ++ [x]) (length h).
Proof.
  intros Ho. split.
  - intros i c a b Hc Hne Hi Hb.
    assert (c < length (h ++ [x])) as Hlt by (by eapply lookup_lt_Some).
    rewrite length_app in Hlt. cbn in Hlt.
    pose proof (isChild_lt _ _ Hc).
    rewrite lookup_app_l in Hi, Hb by lia. eauto.
  - intros g c a b _ Hc _ Hb.
    apply lookup_lt_Some in Hb. rewrite length_app in Hb. cbn in Hb.
    apply isChild_lt in Hc. lia.
Qed.

Lemma orderedAbove_done h k xp xk :
  k ≠ 0 → h !! getParentIndex k = Some xp → h !! k = Some xk →
  freq xp ≤ freq xk → orderedAbove h k → heapOrdered h.
Proof.
  intros Hk Hp Hxk Hle [H1 _] i c x y Hc Hi Hy.
  destruct (decide (c = k)) as [->|Hne]; [|eauto].
  apply isChild_parent in Hc. subst i. congruence.
Qed.

Lemma orderedAbove_swap h k p xp xk :
  isChild p k → h !! p = Some xp → h !! k = Some xk →
  freq xk < freq xp → orderedAbove h k →
  orderedAbove (swap h p k) p.
Proof.
  intros Hpk Hp Hxk Hlt [H1 H2].
  pose proof (isChild_lt _ _ Hpk) as Hpk_lt.
  assert (p ≠ k) as Hne by lia.
  split.
  - intros i c x y Hc Hcp. rewrite !(swap_lookup h p k xp xk) by done.
    pose proof (isChild_lt _ _ Hc) as Hic.
    assert (c = k → i = p) as Hpar.
    { intros ->. rewrite (isChild_parent _ _ Hc). by rewrite (isChild_parent _ _ Hpk). }
    repeat case_decide; intros ? ?; simplify_eq; try lia.
    + assert (freq xp ≤ freq y) by (eapply (H1 p c); eauto). lia.
    + eapply (H2 p c); eauto.
    + eapply (H1 i c); eauto.
  - intros g c x y Hg Hc. rewrite !(swap_lookup h p k xp xk) by done.
    pose proof (isChild_lt _ _ Hg) as Hgp.
    pose proof (isChild_lt _ _ Hc) as Hpc.
    repeat case_decide; intros ? ?; simplify_eq; try lia.
    + eapply (H1 g p); eauto; lia.
    + assert (freq x ≤ freq xp) by (eapply (H1 g p); eauto; lia).
      assert (freq xp ≤ freq y) by (eapply (H1 p c); eauto). lia.
Qed.

Lemma heapifyUp_fuel_spec fuel h k :
  k < length h → k ≤ fuel →
  ∃ h', heapifyUp_fuel fuel h k = Normal h' ∧ h' ≡ₚ h
        ∧ (orderedAbove h k → heapOrdered h').
Proof.
  revert h k. induction fuel as [|fuel IH]; intros h k Hk Hfuel;
    rewrite heapifyUp_fuel_eq; destruct (decide (k = 0)) as [->|Hk0].
  - exists h. eauto using orderedAbove_root.
  - lia.
  - exists h. eauto using orderedAbove_root.
  - pose proof (isChild_lt _ _ (parent_child k Hk0)) as Hp_lt.
    destruct (lookup_lt_is_Some_2 h k Hk) as [xk Hxk].
    destruct (lookup_lt_is_Some_2 h (getParentIndex k)) as [xp Hxp]; [lia|].
    rewrite (freqAt_Some _ _ _ Hxp), bind_Normal.
    rewrite (freqAt_Some _ _ _ Hxk), bind_Normal.
    destruct (freq xk <? freq xp) eqn:Hcmp.
    + apply Nat.ltb_lt in Hcmp.
      destruct (IH (swap h (getParentIndex k) k) (getParentIndex k))
        as (h' & Hrun & Hperm & Hord).
      { rewrite swap_length. lia. } { lia. }
      exists h'. split_and!; [done | by rewrite Hperm, swap_perm |].
      intros Hinv. apply Hord. eapply orderedAbove_swap; eauto using parent_child.
    + apply Nat.ltb_ge in Hcmp.
      exists h. split_and!; [done | done |].
      intros Hinv. by eapply orderedAbove_done.
Qed.

Lemma insert_spec h x :
  ∃ h', insert h x = Normal h' ∧ h' ≡ₚ x :: h ∧ (heapOrdered h → heapOrdered h').
Proof.
  unfold insert, heapifyUp.
  assert (length (h ++ [x]) - 1 = length h) as -> by (rewrite length_app; cbn; lia).
  destruct (heapifyUp_fuel_spec (length h) (h ++ [x]) (length h))
    as (h' & Hrun & Hperm & Hord).
  { rewrite length_app. cbn. lia. } { lia. }
  exists h'. split_and!; [done | |].
  - rewrite Hperm. by rewrite <- Permutation_cons_append.
  - intros Ho. apply Hord. by apply orderedAbove_snoc.
Qed.
Lemma smallestOf_spec h k xk :
  h !! k = Some xk →
  ∃ s xs, smallestOf h k = Normal s ∧ h !! s = Some xs
    ∧ (s = k ∨ (isChild k s ∧ freq xs < freq xk))
    ∧ (∀ c y, isChild k c → h !! c = Some y → freq xs ≤ freq y).
Proof.
  intros Hk. unfold smallestOf.
  set (l := getLeftChildIndex k). set (r := getRightChildIndex k).
  assert (isChild k l) as Hcl by (by left).
  assert (isChild k r) as Hcr by (by right).
  assert (r = S l) as Hrl by (unfold r, l, getLeftChildIndex, getRightChildIndex; lia).
  assert (∀ c, isChild k c → c = l ∨ c = r) as Hcases by (intros c [?|?]; auto).
  destruct (l <? length h) eqn:Hl; [apply Nat.ltb_lt in Hl | apply Nat.ltb_ge in Hl];
    (destruct (r <? length h) eqn:Hr; [apply Nat.ltb_lt in Hr | apply Nat.ltb_ge in Hr]);
    try lia.
  - destruct (lookup_lt_is_Some_2 h l Hl) as [xl Hxl].
    destruct (lookup_lt_is_Some_2 h r Hr) as [xr Hxr].
    rewrite (freqAt_Some _ _ _ Hxl), bind_Normal, (freqAt_Some _ _ _ Hk), bind_Normal.
    cbn [mret Completion_ret]. rewrite bind_Normal, (freqAt_Some _ _ _ Hxr), bind_Normal.
    destruct (freq xl <? freq xk) eqn:C1;
      [apply Nat.ltb_lt in C1; rewrite (freqAt_Some _ _ _ Hxl)
      |apply Nat.ltb_ge in C1; rewrite (freqAt_Some _ _ _ Hk)];
      rewrite bind_Normal;
      match goal with |- context [?a <? ?b] => destruct (a <? b) eqn:C2 end;
      [apply Nat.ltb_lt in C2 | apply Nat.ltb_ge in C2
      |apply Nat.ltb_lt in C2 | apply Nat.ltb_ge in C2];
      eexists _, _; (split; [reflexivity|]); (split; [eassumption|]);
      (split; [first [by left | right; split; [done | lia]]|]);
      intros c y Hc Hy; destruct (Hcases c Hc) as [-> | ->]; simplify_eq; lia.
  - destruct (lookup_lt_is_Some_2 h l Hl) as [xl Hxl].
    rewrite (freqAt_Some _ _ _ Hxl), bind_Normal, (freqAt_Some _ _ _ Hk), bind_Normal.
    cbn [mret Completion_ret]. rewrite bind_Normal.
    destruct (freq xl <? freq xk) eqn:C1;
      [apply Nat.ltb_lt in C1 | apply Nat.ltb_ge in C1];
      eexists _, _; (split; [reflexivity|]); (split; [eassumption|]);
      (split; [first [by left | right; split; [done | lia]]|]);
      intros c y Hc Hy; destruct (Hcases c Hc) as [-> | ->]; simplify_eq;
      try lia; apply lookup_lt_Some in Hy; lia.
  - cbn [mret Completion_ret]. rewrite bind_Normal.
    exists k, xk. split_and!; [done | done | by left |].
    intros c y Hc Hy. apply lookup_lt_Some in Hy.
    destruct (Hcases c Hc) as [-> | ->]; lia.
Qed.

Lemma orderedBelow_done h k xk :
  h !! k = Some xk →
  (∀ c y, isChild k c → h !! c = Some y → freq xk ≤ freq y) →
  orderedBelow h k → heapOrdered h.
Proof.
  intros Hk Hmin [H1 _] i c x y Hc Hi Hy.
  destruct (decide (i = k)) as [->|Hne]; [|eauto].
  simplify_eq. eauto.
Qed.

Lemma orderedBelow_swap h k s xk xs :
  isChild k s → h !! k = Some xk → h !! s = Some xs →
  freq xs < freq xk →
  (∀ c y, isChild k c → h !! c = Some y → freq xs ≤ freq y) →
  orderedBelow h k → orderedBelow (swap h k s) s.
Proof.
  intros Hks Hk Hs Hlt Hmin [H1 H2].
  pose proof (isChild_lt _ _ Hks) as Hks_lt.
  assert (k ≠ s) as Hne by lia.
  split.
  - intros i c x y Hc His. rewrite !(swap_lookup h k s xk xs) by done.
    pose proof (isChild_lt _ _ Hc) as Hic.
    assert (c = s → i = k) as Hpar.
    { intros ->. rewrite (isChild_parent _ _ Hc). by rewrite (isChild_parent _ _ Hks). }
    repeat case_decide; intros ? ?; simplify_eq; try lia.
    + eapply Hmin; eauto.
    + eapply (H2 i s); eauto.
    + eapply (H1 i c); eauto.
  - intros g c x y Hg Hc. rewrite !(swap_lookup h k s xk xs) by done.
    pose proof (isChild_lt _ _ Hg) as Hgs.
    pose proof (isChild_lt _ _ Hc) as Hsc.
    assert (g = k) as ->.
    { rewrite (isChild_parent _ _ Hg). by rewrite (isChild_parent _ _ Hks). }
    repeat case_decide; intros ? ?; simplify_eq; try lia.
    eapply (H1 s c); eauto.
Qed.

Lemma heapifyDown_fuel_spec fuel h k :
  k < length h → length h - k ≤ fuel →
  ∃ h', heapifyDown_fuel fuel h k = Normal h' ∧ h' ≡ₚ h
        ∧ (orderedBelow h k → heapOrdered h').
Proof.
  revert h k. induction fuel as [|fuel IH]; intros h k Hk Hfuel; [lia|].
  rewrite heapifyDown_fuel_eq.
  destruct (lookup_lt_is_Some_2 h k Hk) as [xk Hxk].
  destruct (smallestOf_spec h k xk Hxk) as (s & xs & -> & Hxs & Hcase & Hmin).
  rewrite bind_Normal.
  destruct Hcase as [->|[Hks Hlt]].
  - rewrite decide_False by (intros ?; done).
    exists h. split_and!; [done | done |].
    simplify_eq. by apply orderedBelow_done with xk.
  - pose proof (isChild_lt _ _ Hks) as Hks_lt.
    rewrite decide_True by lia.
    apply lookup_lt_Some in Hxs as Hs_lt.
    destruct (IH (swap h k s) s) as (h' & Hrun & Hperm & Hord).
    { by rewrite swap_length. } { rewrite swap_length. lia. }
    exists h'. split_and!; [done | by rewrite Hperm, swap_perm |].
    intros Hinv. apply Hord. by eapply orderedBelow_swap.
Qed.

Lemma heapOrdered_root_min h m :
  heapOrdered h → h !! 0 = Some m → Forall (λ y, freq m ≤ freq y) h.
Proof.
  intros Ho Hm. apply Forall_lookup. intros i.
  induction (lt_wf i) as [i _ IH]. intros y Hy.
  destruct (decide (i = 0)) as [->|Hi]; [simplify_eq; lia|].
  pose proof (parent_child i Hi) as Hc.
  pose proof (isChild_lt _ _ Hc) as Hlt.
  apply lookup_lt_Some in Hy as Hi_len.
  destruct (lookup_lt_is_Some_2 h (getParentIndex i)) as [yp Hyp]; [lia|].
  specialize (IH _ Hlt _ Hyp). specialize (Ho _ _ _ _ Hc Hyp Hy). lia.
Qed.

Lemma heapOrdered_nil : heapOrdered [].
Proof. intros i c x y _ Hi. done. Qed.

Lemma orderedBelow_replace_root m z t :
  heapOrdered (m :: t ++ [z]) → orderedBelow (z :: t) 0.
Proof.
  intros Ho. split.
  - intros i c x y Hc Hi Hx Hy. pose proof (isChild_lt _ _ Hc) as Hic.
    destruct i as [|i]; [done|]. destruct c as [|c]; [lia|].
    change (t !! i = Some x) in Hx. change (t !! c = Some y) in Hy.
    apply (Ho (S i) (S c)); [done | |].
    + change ((t ++ [z]) !! i = Some x).
      rewrite lookup_app_l; eauto using lookup_lt_Some.
    + change ((t ++ [z]) !! c = Some y).
      rewrite lookup_app_l; eauto using lookup_lt_Some.
  - intros g c x y Hg. apply isChild_lt in Hg. lia.
Qed.

Lemma extractMin_nil : extractMin [] = Normal (None, []).
Proof. reflexivity. Qed.

Lemma extractMin_spec h :
  h ≠ [] →
  ∃ m h', extractMin h = Normal (Some m, h') ∧ h ≡ₚ m :: h'
    ∧ (heapOrdered h → heapOrdered h' ∧ Forall (λ y, freq m ≤ freq y) h').
Proof.
  intros Hne. unfold extractMin.
  destruct h as [|m t]; [done|]. rewrite decide_False by done.
  destruct t as [|x t'].
  - rewrite decide_True by done. exists m, []. cbn.
    split_and!; [done | done |]. intros _. split; [apply heapOrdered_nil | done].
  - rewrite decide_False by (cbn; lia).
    destruct (last_is_Some (x :: t')) as [_ Hlast].
    destruct Hlast as [z Hz]; [done|].
    apply last_Some in Hz as [t0 Ht0].
    unfold pop. rewrite Ht0. cbn [length].
    rewrite last_cons, last_snoc.
    replace (S (length (t0 ++ [z])) - 1) with (S (length t0))
      by (rewrite length_app; cbn; lia).
    cbn [take]. rewrite take_app_length.
    change (<[0:=z]> (m :: t0)) with (z :: t0).
    unfold heapifyDown.
    destruct (heapifyDown_fuel_spec (S (length (z :: t0))) (z :: t0) 0)
      as (h' & Hrun & Hperm & Hord).
    { cbn. lia. } { cbn. lia. }
    rewrite Hrun, bind_Normal. exists m, h'.
    split_and!; [done | |].
    + rewrite Hperm. apply Permutation_cons; [done|].
      by rewrite <- Permutation_cons_append.
    + intros Ho. split.
      * apply Hord. by apply orderedBelow_replace_root with m.
      * pose proof (heapOrdered_root_min _ m Ho eq_refl) as Hmin.
        apply Forall_cons in Hmin as [_ Hmin].
        rewrite Hperm. apply Forall_cons.
        rewrite Forall_app, Forall_singleton in Hmin. tauto.
Qed.
End HeapFacts.

(** ** Trees *)

Lemma apart_sym x y : apart x y → apart y x.
Proof. unfold apart. tauto. Qed.

Lemma allApart_perm l1 l2 : l1 ≡ₚ l2 → allApart l1 → allApart l2.
Proof.
  induction 1 as [|x l1 l2 Hp IH|x y l|l1 l2 l3 _ IH1 _ IH2]; cbn.
  - done.
  - intros [Hx Hl]. split; [by rewrite <- Hp | auto].
  - intros (Hy & Hx & Hl). apply Forall_cons in Hy as [Hyx Hy].
    split_and!; [|done..]. apply Forall_cons. split; [by apply apart_sym | done].
  - auto.
Qed.

#[global] Instance allApart_proper : Proper ((≡ₚ) ==> iff) allApart.
Proof. intros l1 l2 Hp. split; apply allApart_perm; [done | by symmetry]. Qed.

Lemma allApart_app l1 l2 :
  allApart (l1 ++ l2) ↔
  allApart l1 ∧ allApart l2 ∧ (∀ x y, x ∈ l1 → y ∈ l2 → apart x y).
Proof.
  induction l1 as [|a l1 IH]; cbn.
  - split; [intros ?; split_and!; [done | done |] | tauto].
    intros x y Hx. by apply elem_of_nil in Hx.
  - rewrite IH, Forall_app. split.
    + intros ([H1 H2] & H3 & H4 & H5). split_and!; try done.
      intros x y Hx Hy. apply elem_of_cons in Hx as [->|Hx]; [|auto].
      rewrite Forall_forall in H2. auto.
    + intros ([H1 H2] & H3 & H4). split_and!; try done.
      * apply Forall_forall. intros y Hy. apply H4; [apply list_elem_of_here | done].
      * intros x y Hx Hy. apply H4; [by apply list_elem_of_further | done].
Qed.

Lemma siblingPairs_inner t x :
  x ∈ siblingPairs t → x.1 ∈ innerFreqs t ∧ x.2 ∈ innerFreqs t.
Proof.
  induction t as [c f l r IHl IHr] using HuffmanNode_ind.
  cbn. destruct l as [l|], r as [r|]; cbn in *;
    rewrite ?elem_of_cons, ?elem_of_app, ?elem_of_cons, ?elem_of_nil; naive_solver.
Qed.

Lemma properTree_leafOf e : 1 ≤ e.2 → properTree (leafOf e).
Proof. cbn. auto. Qed.

(** ** buildHuffmanTree *)

Section BuilderFacts.
Import MinHeap.
Implicit Types (h heap : list HuffmanNode).

Lemma forestInv_nil : forestInv [].
Proof.
  split_and!; [apply heapOrdered_nil | done | | done].
  intros t1 t2 w H. by apply elem_of_nil in H.
Qed.

Lemma insertLeaves_spec es h :
  ∃ h', insertLeaves es h = Normal h' ∧ h' ≡ₚ (leafOf <$> es) ++ h
        ∧ (heapOrdered h → heapOrdered h').
Proof.
  revert h. induction es as [|[c f] es IH]; intros h; cbn [insertLeaves].
  - exists h. done.
  - destruct (insert_spec h (leafOf (c, f))) as (h1 & Hrun & Hperm & Hord).
    change (createNode (Some c) f None None) with (leafOf (c, f)).
    rewrite Hrun, bind_Normal.
    destruct (IH h1) as (h' & Hrun' & Hperm' & Hord').
    exists h'. split_and!; [done | | auto].
    rewrite Hperm', Hperm. cbn. by rewrite Permutation_middle.
Qed.

Lemma leaves_no_pairs es : (leafOf <$> es) ≫= siblingPairs = [].
Proof. induction es as [|e es IH]; [done|]. cbn. by rewrite IH. Qed.

Lemma leaves_leafList es : (leafOf <$> es) ≫= leafList = es.
Proof.
  induction es as [|[c f] es IH]; [done|].
  rewrite fmap_cons, bind_cons, IH. done.
Qed.

Lemma forestInv_leaves h es :
  h ≡ₚ leafOf <$> es → Forall (λ e, 1 ≤ e.2) es → heapOrdered h → forestInv h.
Proof.
  intros Hperm Hpos Ho. split_and!; [done | | |].
  - rewrite Hperm. apply Forall_fmap. eapply Forall_impl; [done|].
    intros e He. by apply properTree_leafOf.
  - intros t1 t2 w Ht1 _. rewrite Hperm in Ht1.
    apply list_elem_of_fmap in Ht1 as (e & -> & _). cbn.
    intros Hw. by apply elem_of_nil in Hw.
  - rewrite Hperm, leaves_no_pairs. done.
Qed.

Lemma forestInv_merge h A h1 B h2 h3 :
  forestInv h →
  h ≡ₚ A :: h1 → Forall (λ y, freq A ≤ freq y) h1 →
  h1 ≡ₚ B :: h2 → Forall (λ y, freq B ≤ freq y) h2 →
  h3 ≡ₚ createNode None (freq A + freq B) (Some A) (Some B) :: h2 →
  heapOrdered h3 →
  forestInv h3.
Proof.
  intros (_ & Hp & Hj & Ha) HA HminA HB HminB H3 Ho3.
  set (M := createNode None (freq A + freq B) (Some A) (Some B)) in *.
  assert (h ≡ₚ A :: B :: h2) as Hh by (by rewrite HA, HB).
  rewrite HB in HminA. apply Forall_cons in HminA as [HAB HminA].
  rewrite Forall_forall in HminA, HminB.
  rewrite Hh in Hp. apply Forall_cons in Hp as [HpA Hp].
  apply Forall_cons in Hp as [HpB Hp].
  assert (A ∈ h) as HAin by (rewrite Hh; apply list_elem_of_here).
  assert (B ∈ h) as HBin
    by (rewrite Hh; apply list_elem_of_further, list_elem_of_here).
  assert (∀ t, t ∈ h2 → t ∈ h) as H2in
    by (intros t Ht; rewrite Hh; by do 2 apply list_elem_of_further).
  split_and!; [done | | |].
  - rewrite H3. apply Forall_cons. split; [|done]. unfold M. cbn. auto.
  - intros t1 t2 w. rewrite !H3, !elem_of_cons.
    assert (w ∈ innerFreqs M → w ≤ freq A + freq B ∧ ∀ t, t ∈ h2 → w ≤ freq t)
      as HM.
    { unfold M. cbn. rewrite elem_of_cons, elem_of_app, elem_of_cons.
      intros [->|[Hw|[->|Hw]]]; (split; [|intros t Ht]).
      - lia.
      - specialize (HminA t Ht). lia.
      - specialize (Hj A A w HAin HAin Hw). lia.
      - apply (Hj A t w); auto.
      - lia.
      - by apply HminB.
      - specialize (Hj B B w HBin HBin Hw). lia.
      - apply (Hj B t w); auto. }
    intros [->|H1] [->|H2] Hw.
    + by destruct (HM Hw).
    + destruct (HM Hw) as [_ H]. by apply H.
    + unfold M. cbn. specialize (Hj t1 A w (H2in _ H1) HAin Hw). lia.
    + apply (Hj t1 t2 w); auto.
  - rewrite H3, bind_cons. unfold M. cbn [siblingPairs left right freq createNode].
    eapply allApart_perm.
    { rewrite <- app_comm_cons, <- app_assoc.
      rewrite <- (bind_cons siblingPairs B h2), <- (bind_cons siblingPairs A (B :: h2)).
      by rewrite <- Hh. }
    cbn. split; [|done].
    apply Forall_forall. intros x Hx.
    apply list_elem_of_bind in Hx as (t & Hx & Ht).
    apply siblingPairs_inner in Hx as [Hx1 Hx2].
    pose proof (Hj t A _ Ht HAin Hx1). pose proof (Hj t B _ Ht HBin Hx1).
    pose proof (Hj t A _ Ht HAin Hx2). pose proof (Hj t B _ Ht HBin Hx2).
    unfold apart, pairLe. cbn. lia.
Qed.
Lemma mergeLoop_eq fuel h :
  mergeLoop fuel h =
    if 1 <? size h then
      match fuel with
      | 0 => OutOfFuel
      | S fuel' =>
          '(left, heap) ← extractMin h;
          '(right, heap) ← extractMin heap;
          match left, right with
          | Some l, Some r =>
              heap ← insert heap (createNode None (freq l + freq r) left right);
              mergeLoop fuel' heap
          | _, _ => TypeError
          end
      end
    else Normal h.
Proof. by destruct fuel. Qed.

Lemma mergeLoop_spec fuel h :
  length h ≤ fuel → h ≠ [] → forestInv h →
  ∃ root, mergeLoop fuel h = Normal [root] ∧ forestInv [root]
    ∧ leafList root ≡ₚ h ≫= leafList
    ∧ freq root = sum_list_with freq h
    ∧ (h = [root] ∨ char root = None).
Proof.
  revert h. induction fuel as [|fuel IH]; intros h Hfuel Hne Hinv;
    rewrite mergeLoop_eq; unfold size;
    (destruct (1 <? length h) eqn:Hlen;
      [apply Nat.ltb_lt in Hlen | apply Nat.ltb_ge in Hlen]); try lia.
  1,3: destruct h as [|x [|y h]]; [done | | cbn in Hlen; lia];
    exists x; split_and!;
      [done | done | by rewrite bind_singleton | cbn; lia | by left].
  destruct (extractMin_spec h Hne) as (A & h1 & -> & HA & HordA).
  rewrite bind_Normal. cbn beta iota.
  pose proof (Permutation_length HA) as HlenA. cbn in HlenA.
  assert (h1 ≠ []) as Hne1 by (intros ->; cbn in HlenA; lia).
  destruct (extractMin_spec h1 Hne1) as (B & h2 & -> & HB & HordB).
  rewrite bind_Normal. cbn beta iota.
  pose proof (Permutation_length HB) as HlenB. cbn in HlenB.
  destruct (insert_spec h2 (createNode None (freq A + freq B) (Some A) (Some B)))
    as (h3 & -> & H3 & Hord3).
  rewrite bind_Normal.
  pose proof (Permutation_length H3) as Hlen3. cbn in Hlen3.
  destruct (HordA (proj1 Hinv)) as [Ho1 HminA].
  destruct (HordB Ho1) as [Ho2 HminB].
  assert (forestInv h3) as Hinv3
    by (eapply (forestInv_merge h A h1 B h2 h3); eauto).
  destruct (IH h3) as (root & Hrun & Hroot & Hleaves & Hfreq & Hchar).
  { lia. } { intros ->. cbn in Hlen3. lia. } { done. }
  exists root. split_and!; [done | done | | |].
  - rewrite Hleaves, H3, HA, HB, !bind_cons. cbn. by rewrite <- app_assoc.
  - rewrite Hfreq, H3, HA, HB. cbn. lia.
  - right. destruct Hchar as [->|?]; [|done].
    apply Permutation_singleton_l in H3. by injection H3 as -> _.
Qed.

Lemma sum_freq_leaves es : sum_list_with freq (leafOf <$> es) = sumCounts es.
Proof.
  unfold sumCounts. induction es as [|e es IH]; [done|]. cbn. by rewrite IH.
Qed.

Lemma buildHuffmanTree_nil : buildHuffmanTree [] = Normal None.
Proof. reflexivity. Qed.

Lemma buildHuffmanTree_spec fr :
  fr ≠ [] → Forall (λ e, 1 ≤ e.2) fr →
  ∃ root, buildHuffmanTree fr = Normal (Some root)
    ∧ char root = None
    ∧ leafList root ≡ₚ fr
    ∧ freq root = sumCounts fr
    ∧ ((∃ c f, fr = [(c, f)] ∧ root = wrapperTree c f)
       ∨ (properTree root ∧ allApart (siblingPairs root))).
Proof.
  intros Hne Hpos. unfold buildHuffmanTree.
  destruct (insertLeaves_spec (entries fr) []) as (h & -> & Hperm & Hord).
  rewrite bind_Normal. rewrite app_nil_r in Hperm.
  specialize (Hord heapOrdered_nil).
  pose proof (entries_perm fr) as Hent.
  assert (forestInv h) as Hinv.
  { apply forestInv_leaves with (entries fr); [done | by rewrite Hent | done]. }
  pose proof (Permutation_length Hperm) as Hlen. rewrite length_fmap in Hlen.
  pose proof (Permutation_length Hent) as Hlen'.
  unfold size. destruct (decide (length h = 1)) as [H1|H1].
  - destruct (entries fr) as [|[c f] [|? ?]] eqn:He; cbn in Hlen; try lia.
    cbn in Hperm. apply Permutation_singleton_r in Hperm. subst h.
    apply Permutation_singleton_l in Hent. subst fr.
    exists (wrapperTree c f). split_and!; try done.
    left. by exists c, f.
  - assert (h ≠ []) as Hhne.
    { intros ->. cbn in Hlen. destruct fr; [done | cbn in *; lia]. }
    destruct (mergeLoop_spec (length h) h) as (root & -> & Hroot & Hleaves & Hfreq & Hchar);
      [lia | done | done |].
    rewrite bind_Normal. exists root.
    destruct Hroot as (_ & Hproper & _ & Hapart).
    rewrite Forall_singleton in Hproper.
    rewrite bind_singleton in Hapart.
    split_and!; [reflexivity | | | | right; by split].
    + destruct Hchar as [->|?]; [done | done].
    + by rewrite Hleaves, Hperm, leaves_leafList.
    + by rewrite Hfreq, Hperm, sum_freq_leaves, (sumCounts_perm _ _ Hent).
Qed.
End BuilderFacts.

(** ** generateCodes *)

Section CodeFacts.
Implicit Types (n m root : HuffmanNode) (p code : jsstring).

Lemma fold_left_fmap {A B C} (f : A → C → A) (g : B → C) (l : list B) (a : A) :
  fold_left f (g <$> l) a = fold_left (λ acc x, f acc (g x)) l a.
Proof. revert a. induction l as [|x l IH]; intros a; cbn; [done | by rewrite IH]. Qed.

Lemma fold_left_ext {A B} (f g : A → B → A) (l : list B) (a : A) :
  (∀ acc x, f acc x = g acc x) → fold_left f l a = fold_left g l a.
Proof.
  intros Hfg. revert a. induction l as [|x l IH]; intros a; cbn; [done|].
  by rewrite Hfg, IH.
Qed.

Lemma generateCodesNode_fold n code codes :
  generateCodesNode n code codes =
    fold_left (λ acc cp, set acc cp.1 (orStr0 (code ++ cp.2))) (leafPaths n) codes.
Proof.
  revert code codes.
  induction n as [c f l r IHl IHr] using HuffmanNode_ind. intros code codes.
  cbn. destruct c as [c|]; cbn.
  - by rewrite app_nil_r.
  - rewrite fold_left_app.
    assert (∀ (b : N) o (k : list (jsstring * jsstring)) cs,
      optP (λ x, ∀ code codes, generateCodesNode x code codes =
        fold_left (λ acc cp, set acc cp.1 (orStr0 (code ++ cp.2))) (leafPaths x) codes) o →
      match o with
      | Some x => generateCodesNode x (code ++ [b]) cs
      | None => cs
      end =
      fold_left (λ acc cp, set acc cp.1 (orStr0 (code ++ cp.2)))
        (match o with
         | Some x => (λ cp, (cp.1, b :: cp.2)) <$> leafPaths x
         | None => []
         end) cs) as Hside.
    { intros b [x|] k cs Hx; cbn in *; [|done].
      rewrite Hx, fold_left_fmap. apply fold_left_ext.
      intros acc [c' p']. cbn. by rewrite <- app_assoc. }
    unfold str_0, str_1.
    rewrite <- (Hside 49%N r [] _ IHr). f_equal.
    by rewrite <- (Hside 48%N l [] _ IHl).
Qed.

Lemma get_fold_set_inv (F : jsstring → jsstring) (l : list (jsstring * jsstring))
    (codes : list (jsstring * jsstring)) k v :
  get (fold_left (λ acc cp, set acc cp.1 (F cp.2)) l codes) k = Some v →
  (∃ p, (k, p) ∈ l ∧ v = F p) ∨ get codes k = Some v.
Proof.
  revert codes. induction l as [|[c p] l IH]; intros codes; cbn; [by right|].
  intros H. destruct (IH _ H) as [(p' & Hin & ->)|Hg].
  - left. exists p'. split; [by apply list_elem_of_further | done].
  - destruct (decide (c = k)) as [->|Hne].
    + rewrite get_set_eq in Hg. injection Hg as <-.
      left. exists p. split; [apply list_elem_of_here | done].
    + rewrite get_set_ne in Hg by done. by right.
Qed.

Lemma get_fold_set_is_Some (F : jsstring → jsstring) (l : list (jsstring * jsstring))
    (codes : list (jsstring * jsstring)) k :
  k ∈ l.*1 ∨ is_Some (get codes k) →
  is_Some (get (fold_left (λ acc cp, set acc cp.1 (F cp.2)) l codes) k).
Proof.
  revert codes. induction l as [|[c p] l IH]; intros codes; cbn.
  - intros [H|H]; [by apply elem_of_nil in H | done].
  - intros H. apply IH. rewrite elem_of_cons in H.
    destruct (decide (c = k)) as [->|Hne].
    + right. by rewrite get_set_eq.
    + rewrite get_set_ne by done. destruct H as [[H|H]|H]; [congruence | by left | by right].
Qed.

Lemma leafPaths_keys n : (leafPaths n).*1 = (leafList n).*1.
Proof.
  induction n as [c f l r IHl IHr] using HuffmanNode_ind.
  cbn. destruct c as [c|]; [done|]. cbn. rewrite !fmap_app. f_equal.
  - destruct l as [l|]; [|done]. cbn in *. rewrite <- IHl, <- list_fmap_compose.
    by apply list_fmap_ext.
  - destruct r as [r|]; [|done]. cbn in *. rewrite <- IHr, <- list_fmap_compose.
    by apply list_fmap_ext.
Qed.

Lemma descend_leaf n c p m :
  char n = Some c → descend p n = Some m → p = [] ∧ m = n.
Proof. intros Hc. destruct p; cbn; rewrite ?Hc; [by intros [= ->] | done]. Qed.

Lemma descend_app p k n : descend (p ++ k) n = descend p n ≫= descend k.
Proof.
  revert n. induction p as [|b p IH]; intros n; [done|].
  cbn. destruct (char n); [done|].
  repeat case_decide; try done.
  - destruct (left n); cbn; [apply IH | done].
  - destruct (right n); cbn; [apply IH | done].
Qed.

Lemma leafPaths_descend n c p :
  (c, p) ∈ leafPaths n → ∃ m, descend p n = Some m ∧ char m = Some c.
Proof.
  revert p. induction n as [c' f l r IHl IHr] using HuffmanNode_ind. intros p.
  cbn. destruct c' as [c'|]; cbn.
  - intros H. apply list_elem_of_singleton in H as [= -> ->]. by eexists.
  - rewrite elem_of_app. intros [H|H].
    + destruct l as [l|]; [|by apply elem_of_nil in H].
      apply list_elem_of_fmap in H as ([c1 p1] & [= -> ->] & H).
      cbn in *. rewrite decide_True by done. cbn. by apply IHl.
    + destruct r as [r|]; [|by apply elem_of_nil in H].
      apply list_elem_of_fmap in H as ([c1 p1] & [= -> ->] & H).
      cbn in *. rewrite decide_False by done. rewrite decide_True by done.
      cbn. by apply IHr.
Qed.

Lemma leafPaths_bits n c p :
  (c, p) ∈ leafPaths n → Forall (λ b, b = 48%N ∨ b = 49%N) p.
Proof.
  revert p. induction n as [c' f l r IHl IHr] using HuffmanNode_ind. intros p.
  cbn. destruct c' as [c'|]; cbn.
  - intros H. apply list_elem_of_singleton in H as [= -> ->]. done.
  - rewrite elem_of_app. intros [H|H].
    + destruct l as [l|]; [|by apply elem_of_nil in H].
      apply list_elem_of_fmap in H as ([c1 p1] & [= -> ->] & H).
      apply Forall_cons. split; [by left | by apply IHl].
    + destruct r as [r|]; [|by apply elem_of_nil in H].
      apply list_elem_of_fmap in H as ([c1 p1] & [= -> ->] & H).
      apply Forall_cons. split; [by right | by apply IHr].
Qed.

Lemma leafPaths_nonempty n c p :
  char n = None → (c, p) ∈ leafPaths n → p ≠ [].
Proof.
  intros Hn H ->. apply leafPaths_descend in H as (m & [= ->] & Hm). congruence.
Qed.

(** No path to a leaf continues another path to a leaf. *)
Lemma leafPaths_prefix n c1 p1 c2 p2 :
  (c1, p1) ∈ leafPaths n → (c2, p2) ∈ leafPaths n →
  p1 `prefix_of` p2 → c1 = c2.
Proof.
  intros H1 H2 [k ->].
  apply leafPaths_descend in H1 as (m1 & Hd1 & Hc1).
  apply leafPaths_descend in H2 as (m2 & Hd2 & Hc2).
  rewrite descend_app, Hd1 in Hd2. cbn in Hd2.
  destruct (descend_leaf _ _ _ _ Hc1 Hd2) as [_ ->]. congruence.
Qed.

Lemma descend_leafList p n m c :
  descend p n = Some m → char m = Some c → (c, freq m) ∈ leafList n.
Proof.
  revert p. induction n as [c' f l r IHl IHr] using HuffmanNode_ind. intros p Hd Hm.
  destruct p as [|b p].
  - injection Hd as <-. cbn in *. rewrite Hm. apply list_elem_of_here.
  - cbn in *. destruct c' as [c'|]; [done|]. cbn. rewrite elem_of_app.
    repeat case_decide; try done.
    + left. destruct l as [l|]; [|done]. cbn in *. eauto.
    + right. destruct r as [r|]; [|done]. cbn in *. eauto.
Qed.
End CodeFacts.

(** ** decodeText *)

Section DecodeFacts.
Implicit Types (n m root : HuffmanNode) (p : jsstring).

Lemma split_units_app s1 s2 : split_units (s1 ++ s2) = split_units s1 ++ split_units s2.
Proof. unfold split_units. apply map_app. Qed.

Lemma bits_noHighSurrogate p :
  Forall (λ b, b = 48%N ∨ b = 49%N) p → noHighSurrogate p.
Proof. intros H. eapply Forall_impl; [done|]. by intros b [-> | ->]. Qed.

(** Walking the path of a leaf from an internal node ends at that leaf
    and emits nothing on the way. *)
Lemma decodeLoop_walk root n c p rest out :
  char n = None → (c, p) ∈ leafPaths n →
  ∃ m, char m = Some c
    ∧ decodeLoop root (split_units p ++ rest) out (Some n)
      = decodeLoop root rest out (Some m).
Proof.
  revert p. induction n as [c' f l r IHl IHr] using HuffmanNode_ind.
  intros p Hn. cbn in Hn. subst c'. cbn [leafPaths char left right].
  assert (∀ (b : N) o p',
    optP (λ x, ∀ p, char x = None → (c, p) ∈ leafPaths x →
      ∃ m, char m = Some c
        ∧ decodeLoop root (split_units p ++ rest) out (Some x)
          = decodeLoop root rest out (Some m)) o →
    (c, p') ∈ match o with Some x => leafPaths x | None => [] end →
    ∃ m, char m = Some c
      ∧ decodeLoop root (split_units p' ++ rest) out o
        = decodeLoop root rest out (Some m)) as Hchild.
  { intros b [x|] p' IH Hin; [|by apply elem_of_nil in Hin]. cbn in IH.
    destruct (char x) as [cx|] eqn:Hx.
    - revert Hin. destruct x as [cx' fx lx rx]. cbn in Hx. subst cx'. cbn.
      intros Hin. apply list_elem_of_singleton in Hin as [= -> ->].
      eexists. split; [|reflexivity]. done.
    - by apply IH. }
  rewrite elem_of_app. intros [H|H].
  - assert (∃ p', p = 48%N :: p'
        ∧ (c, p') ∈ match l with Some x => leafPaths x | None => [] end)
      as (p' & -> & Hin).
    { destruct l as [l|]; [|by apply elem_of_nil in H].
      apply list_elem_of_fmap in H as ([c1 p1] & [= -> ->] & H). eauto. }
    destruct (Hchild 48%N l p' IHl Hin) as (m & Hm & Hrun).
    exists m. split; [done|]. rewrite <- Hrun. reflexivity.
  - assert (∃ p', p = 49%N :: p'
        ∧ (c, p') ∈ match r with Some x => leafPaths x | None => [] end)
      as (p' & -> & Hin).
    { destruct r as [r|]; [|by apply elem_of_nil in H].
      apply list_elem_of_fmap in H as ([c1 p1] & [= -> ->] & H). eauto. }
    destruct (Hchild 49%N r p' IHr Hin) as (m & Hm & Hrun).
    exists m. split; [done|]. rewrite <- Hrun. reflexivity.
Qed.

(** A leaf reached by the previous bit is emitted by the next round,
    which then goes on from the root. *)
Lemma decodeLoop_pending root m c0 bit bits out :
  char root = None → char m = Some c0 →
  decodeLoop root (bit :: bits) out (Some m)
  = decodeLoop root (bit :: bits) (out ++ c0) (Some root).
Proof. intros Hroot Hm. cbn. by rewrite Hm, Hroot. Qed.

Lemma decodeLoop_symbols root syms out cur :
  char root = None →
  Forall (λ cp, cp ∈ leafPaths root) syms →
  cur = root ∨ is_Some (char cur) →
  ∃ out' cur',
    decodeLoop root (split_units (concat (syms.*2))) out (Some cur)
      = Normal (out', Some cur')
    ∧ (cur' = root ∨ is_Some (char cur'))
    ∧ pendingText (out', Some cur') = pendingText (out, Some cur) ++ concat (syms.*1).
Proof.
  intros Hroot Hsyms. revert out cur.
  induction Hsyms as [|[c p] syms Hcp Hsyms IH]; intros out cur Hcur.
  - exists out, cur. cbn. split_and!; [done | done | by rewrite app_nil_r].
  - cbn [fmap list_fmap concat fst snd]. rewrite split_units_app.
    pose proof (leafPaths_nonempty _ _ _ Hroot Hcp) as Hp.
    assert (∃ m, char m = Some c ∧
      decodeLoop root (split_units p ++ split_units (concat syms.*2)) out (Some cur)
      = decodeLoop root (split_units (concat syms.*2))
          (pendingText (out, Some cur)) (Some m)) as (m & Hm & ->).
    { destruct Hcur as [->|[c0 Hc0]].
      - destruct (decodeLoop_walk root root c p (split_units (concat syms.*2)) out
                    Hroot Hcp) as (m & Hm & ->).
        exists m. split; [done|]. unfold pendingText. cbn.
        by rewrite Hroot, app_nil_r.
      - destruct p as [|b p]; [done|]. cbn [split_units map app].
        rewrite (decodeLoop_pending root cur c0) by done.
        destruct (decodeLoop_walk root root c (b :: p) (split_units (concat syms.*2))
                    (out ++ c0) Hroot Hcp) as (m & Hm & Hrun).
        exists m. split; [done|]. cbn [split_units map app] in Hrun.
        rewrite Hrun. unfold pendingText. cbn. by rewrite Hc0. }
    destruct (IH (pendingText (out, Some cur)) m) as (out' & cur' & -> & Hcur' & Htext).
    { right. by rewrite Hm. }
    exists out', cur'. split_and!; [done | done |].
    rewrite Htext. unfold pendingText at 1. cbn. rewrite Hm. cbn.
    by rewrite <- app_assoc.
Qed.

Lemma concat_nil_inv {A} (ls : list (list A)) :
  concat ls = [] → Forall (λ l, l ≠ []) ls → ls = [].
Proof.
  destruct ls as [|l ls]; [done|]. cbn. intros H Hne.
  apply Forall_cons in Hne as [Hl _]. by destruct l.
Qed.

(** Decoding the codes of a sequence of symbols of the tree gives the
    sequence back. *)
Lemma decodeText_symbols root syms :
  char root = None →
  Forall (λ cp, cp ∈ leafPaths root) syms →
  decodeText (concat (syms.*2)) (Some root) = Normal (concat (syms.*1)).
Proof.
  intros Hroot Hsyms. unfold decodeText.
  destruct (decide (concat syms.*2 = [])) as [Hnil|Hne].
  - apply concat_nil_inv in Hnil.
    + apply fmap_nil_inv in Hnil. by subst.
    + apply Forall_fmap. eapply Forall_impl; [done|].
      intros [c p] Hcp. cbn. by eapply leafPaths_nonempty.
  - rewrite codePoints_units.
    2: { apply noHighSurrogate_noSurrogatePair, bits_noHighSurrogate,
           Forall_concat, Forall_fmap.
         eapply Forall_impl; [done|]. intros [c p] Hcp. cbn.
         by eapply leafPaths_bits. }
    destruct (decodeLoop_symbols root syms [] root Hroot Hsyms)
      as (out' & cur' & -> & Hcur' & Htext); [by left|].
    rewrite bind_Normal. cbn beta iota.
    unfold pendingText in Htext. cbn in Htext. rewrite Hroot in Htext.
    cbn in Htext. rewrite <- Htext.
    destruct (char cur'); cbn; [done | by rewrite app_nil_r].
Qed.
End DecodeFacts.

(** ** Depth and weight in the built tree *)

Section DepthFacts.
Implicit Types (n m root : HuffmanNode) (p q : jsstring).

Lemma properTree_inner n :
  properTree n → char n = None →
  ∃ l r, left n = Some l ∧ right n = Some r
    ∧ freq n = freq l + freq r ∧ properTree l ∧ properTree r.
Proof.
  destruct n as [c f [l|] [r|]]; cbn; intros H ->; try done.
  exists l, r. tauto.
Qed.

Lemma descend_cons_inv b p n m :
  descend (b :: p) n = Some m →
  char n = None
  ∧ ∃ x, descend p x = Some m
      ∧ ((b = 48%N ∧ left n = Some x) ∨ (b = 49%N ∧ right n = Some x)).
Proof.
  cbn. destruct (char n); [done|]. intros H. split; [done|].
  repeat case_decide; try done.
  - destruct (left n) as [x|]; [|done]. exists x. auto.
  - destruct (right n) as [x|]; [|done]. exists x. auto.
Qed.

Lemma descend_proper p n m : properTree n → descend p n = Some m → properTree m.
Proof.
  revert n. induction p as [|b p IH]; intros n Hn; [by intros [= <-]|].
  intros (Hc & x & Hd & Hx)%descend_cons_inv.
  destruct (properTree_inner n Hn Hc) as (l & r & Hl & Hr & _ & Hpl & Hpr).
  destruct Hx as [[_ Hx]|[_ Hx]]; apply (IH x); congruence.
Qed.

Lemma descend_freq_le p n m : properTree n → descend p n = Some m → freq m ≤ freq n.
Proof.
  revert n. induction p as [|b p IH]; intros n Hn; [by intros [= <-]|].
  intros (Hc & x & Hd & Hx)%descend_cons_inv.
  destruct (properTree_inner n Hn Hc) as (l & r & Hl & Hr & Hf & Hpl & Hpr).
  destruct Hx as [[_ Hx]|[_ Hx]]; simplify_eq.
  - specialize (IH _ Hpl Hd). lia.
  - specialize (IH _ Hpr Hd). lia.
Qed.

Lemma descend_snoc_inv q b n v :
  descend (q ++ [b]) n = Some v →
  ∃ Q, descend q n = Some Q ∧ char Q = None
    ∧ ((b = 48%N ∧ left Q = Some v) ∨ (b = 49%N ∧ right Q = Some v)).
Proof.
  rewrite descend_app. destruct (descend q n) as [Q|]; [|done]. cbn [mbind option_bind].
  intros (Hc & x & [= ->] & Hx)%descend_cons_inv. eauto.
Qed.

Lemma descend_pairs p n P x :
  properTree n → descend p n = Some P → childFreqs P = Some x → x ∈ siblingPairs n.
Proof.
  revert n. induction p as [|b p IH]; intros n Hn.
  - intros [= <-]. unfold childFreqs. destruct n as [c f [l|] [r|]]; cbn; try done.
    intros [= <-]. apply list_elem_of_here.
  - intros (Hc & y & Hd & Hy)%descend_cons_inv Hx.
    destruct (properTree_inner n Hn Hc) as (l & r & Hl & Hr & _ & Hpl & Hpr).
    destruct n as [c f l' r']. cbn in *. subst.
    apply list_elem_of_further, elem_of_app.
    destruct Hy as [[_ Hy]|[_ Hy]]; simplify_eq; [left | right]; eauto.
Qed.

(** Two different internal nodes of the tree have sibling pairs that do
    not interleave. *)
Lemma apart_of_paths n p q P Q x y :
  properTree n → allApart (siblingPairs n) → p ≠ q →
  descend p n = Some P → descend q n = Some Q →
  childFreqs P = Some x → childFreqs Q = Some y → apart x y.
Proof.
  revert n q. induction p as [|b p IH]; intros n q Hn Ha Hpq HP HQ Hx Hy.
  - destruct q as [|b' q]; [done|]. injection HP as <-.
    apply descend_cons_inv in HQ as (Hc & z & Hd & Hz).
    destruct (properTree_inner n Hn Hc) as (l & r & Hl & Hr & _ & Hpl & Hpr).
    destruct n as [c f l' r']. cbn in *. subst.
    unfold childFreqs in Hx. cbn in Hx. injection Hx as <-.
    destruct Ha as [Ha _]. rewrite Forall_forall in Ha. apply Ha.
    apply elem_of_app.
    destruct Hz as [[_ Hz]|[_ Hz]]; simplify_eq; [left | right];
      eauto using descend_pairs.
  - apply descend_cons_inv in HP as (Hc & z & Hd & Hz).
    destruct (properTree_inner n Hn Hc) as (l & r & Hl & Hr & _ & Hpl & Hpr).
    destruct n as [c f l' r']. cbn in Hc, Hl, Hr, Hz, Ha. subst.
    destruct Ha as [Ha Hrest]. rewrite Forall_forall in Ha.
    apply allApart_app in Hrest as (Hal & Har & Hcross).
    destruct q as [|b' q].
    + injection HQ as <-. unfold childFreqs in Hy. cbn in Hy. injection Hy as <-.
      apply apart_sym, Ha, elem_of_app.
      destruct Hz as [[_ Hz]|[_ Hz]]; simplify_eq; [left | right];
        eauto using descend_pairs.
    + apply descend_cons_inv in HQ as (_ & z' & Hd' & Hz'). cbn in Hz'.
      destruct Hz as [[-> Hz]|[-> Hz]], Hz' as [[-> Hz']|[-> Hz']]; simplify_eq.
      * apply (IH z q); auto. congruence.
      * apply Hcross; eauto using descend_pairs.
      * apply apart_sym, Hcross; eauto using descend_pairs.
      * apply (IH z q); auto. congruence.
Qed.

Lemma child_childFreqs Q v b :
  properTree Q → char Q = None →
  (b = 48%N ∧ left Q = Some v) ∨ (b = 49%N ∧ right Q = Some v) →
  ∃ x, childFreqs Q = Some x ∧ freq Q = x.1 + x.2 ∧ (freq v = x.1 ∨ freq v = x.2).
Proof.
  intros HQ Hc Hv.
  destruct (properTree_inner Q HQ Hc) as (l & r & Hl & Hr & Hf & _).
  exists (freq l, freq r). unfold childFreqs. rewrite Hl, Hr. cbn.
  split_and!; [done | done |].
  destruct Hv as [[_ Hv]|[_ Hv]]; simplify_eq; auto.
Qed.

(** In the built tree a strictly lighter node is never closer to the
    root than a heavier one. *)
Lemma depth_mono root q :
  properTree root → allApart (siblingPairs root) →
  ∀ p u v, descend p root = Some u → descend q root = Some v →
    freq u < freq v → length q ≤ length p.
Proof.
  intros Hroot Ha. induction q as [|b q IH] using rev_ind; intros p u v Hu Hv Hlt.
  - cbn. lia.
  - apply descend_snoc_inv in Hv as (Q & HQ & HcQ & Hv).
    destruct p as [|b' p _] using rev_ind.
    + injection Hu as <-.
      pose proof (descend_freq_le _ _ _ Hroot HQ) as H1.
      pose proof (descend_proper _ _ _ Hroot HQ) as HpQ.
      destruct (child_childFreqs Q v b HpQ HcQ Hv) as (y & _ & Hf & Hvy). lia.
    + apply descend_snoc_inv in Hu as (P & HP & HcP & Hu).
      rewrite !length_app. cbn.
      destruct (decide (p = q)) as [->|Hne]; [lia|].
      pose proof (descend_proper _ _ _ Hroot HP) as HpP.
      pose proof (descend_proper _ _ _ Hroot HQ) as HpQ.
      destruct (child_childFreqs P u b' HpP HcP Hu) as (x & Hx & Hfx & Hux).
      destruct (child_childFreqs Q v b HpQ HcQ Hv) as (y & Hy & Hfy & Hvy).
      pose proof (apart_of_paths root p q P Q x y Hroot Ha Hne HP HQ Hx Hy) as Hap.
      assert (freq P < freq Q) as HPQ.
      { unfold apart, pairLe in Hap. lia. }
      specialize (IH p P Q HP HQ HPQ). lia.
Qed.
End DepthFacts.

(** ** huffmanEncode *)

Section EngineFacts.
Implicit Types (root : HuffmanNode) (text : jsstring).

Lemma codes_of_tree root :
  char root = None →
  (∀ k v, get (generateCodes (Some root) [] []) k = Some v → (k, v) ∈ leafPaths root)
  ∧ (∀ k, k ∈ (leafList root).*1 → is_Some (get (generateCodes (Some root) [] []) k)).
Proof.
  intros Hroot. unfold generateCodes. rewrite generateCodesNode_fold. split.
  - intros k v Hg.
    apply (get_fold_set_inv (λ p, orStr0 ([] ++ p))) in Hg as [(p & Hin & ->)|Hg];
      [|done].
    cbn. unfold orStr0. rewrite decide_False; [done|].
    by eapply leafPaths_nonempty.
  - intros k Hk. apply (get_fold_set_is_Some (λ p, orStr0 ([] ++ p))).
    left. by rewrite leafPaths_keys.
Qed.

Lemma encodeText_symbols text codes :
  encodeText text codes = concat (encodedSymbols text codes).*2.
Proof.
  unfold encodeText, encodedSymbols, join_empty, split_units.
  induction text as [|c text IH]; [done|]. cbn.
  destruct (get codes [c]) as [v|]; cbn; by rewrite IH.
Qed.

Lemma encodedSymbols_lookup text codes cp :
  cp ∈ encodedSymbols text codes → get codes cp.1 = Some cp.2.
Proof.
  unfold encodedSymbols. intros H.
  apply list_elem_of_omap in H as (u & _ & Hu).
  destruct (get codes u) as [v|] eqn:Hg; [|done].
  cbn in Hu. by injection Hu as <-.
Qed.

Lemma encodedSymbols_all text codes :
  (∀ u, u ∈ split_units text → is_Some (get codes u)) →
  concat (encodedSymbols text codes).*1 = text.
Proof.
  unfold encodedSymbols, split_units.
  induction text as [|c text IH]; intros Hall; [done|]. cbn.
  destruct (Hall [c]) as [v Hv]; [apply list_elem_of_here|].
  rewrite Hv. cbn. rewrite IH; [done|].
  intros u Hu. apply Hall. by apply list_elem_of_further.
Qed.

(** What a run of [huffmanEncode] on a non-empty text does. *)
Lemma huffmanEncode_run text :
  text ≠ [] →
  ∃ root r,
    buildHuffmanTree (calculateFrequencies text) = Normal (Some root)
    ∧ huffmanEncode text = Normal r
    ∧ frequencies r = calculateFrequencies text
    ∧ codes r = generateCodes (Some root) [] []
    ∧ encoded r = encodeText text (codes r)
    ∧ decoded r = concat (encodedSymbols text (codes r)).*1
    ∧ originalSize r = length text * 8
    ∧ compressedSize r = length (encoded r)
    ∧ char root = None
    ∧ leafList root ≡ₚ calculateFrequencies text
    ∧ freq root = sumCounts (calculateFrequencies text)
    ∧ ((∃ c f, calculateFrequencies text = [(c, f)] ∧ root = wrapperTree c f)
       ∨ (properTree root ∧ allApart (siblingPairs root))).
Proof.
  intros Hne.
  destruct (calculateFrequencies_spec text) as (Hnd & Hpos & Hsum & Hkeys).
  destruct (buildHuffmanTree_spec (calculateFrequencies text))
    as (root & Hbuild & Hchar & Hleaves & Hfreq & Hshape);
    [by apply calculateFrequencies_nonempty | done |].
  destruct (codes_of_tree root Hchar) as [Hcodes _].
  unfold huffmanEncode. rewrite decide_False by done.
  rewrite Hbuild, bind_Normal.
  rewrite encodeText_symbols.
  rewrite (decodeText_symbols root); [|done|].
  2: { apply Forall_forall. intros [u v] Hin.
       apply encodedSymbols_lookup in Hin. by apply Hcodes. }
  rewrite bind_Normal. eexists root, _. split; [done|]. split; [reflexivity|].
  cbn [frequencies codes encoded decoded originalSize compressedSize].
  rewrite encodeText_symbols. split_and!; done.
Qed.
End EngineFacts.

(** ** Sample runs *)

(** [Object.entries] on the table of ["ba1bb0ac"]: the digit keys come
    first, in numeric order, then the letters in the order they were met. *)
Example entries_digits_first :
  entries (calculateFrequencies [98; 97; 49; 98; 98; 48; 97; 99]%N)
  = [([48%N], 1); ([49%N], 1); ([98%N], 3); ([97%N], 2); ([99%N], 1)].
Proof. vm_compute. reflexivity. Qed.

(** ["ba1bb0ac"]: the heap pops ["0"] and ["c"] first, then ["1"] and their
    merge, then ["a"] and that merge, then ["b"] and the rest. *)
Example run_ba1bb0ac :
  ∃ r, huffmanEncode [98; 97; 49; 98; 98; 48; 97; 99]%N = Normal r
    ∧ codes r = [([98%N], [48%N]); ([97%N], [49; 48]%N); ([49%N], [49; 49; 48]%N);
                 ([48%N], [49; 49; 49; 48]%N); ([99%N], [49; 49; 49; 49]%N)]
    ∧ decoded r = [98; 97; 49; 98; 98; 48; 97; 99]%N
    ∧ compressedSize r = 18.
Proof. eexists. split; [vm_compute; reflexivity|]. done. Qed.

(** ["ab"]: two codes of one bit, two bits in all. *)
Example run_ab :
  ∃ r, huffmanEncode text_ab = Normal r
    ∧ codes r = [([97%N], str_0); ([98%N], str_1)]
    ∧ encoded r = [48; 49]%N
    ∧ decoded r = text_ab
    ∧ originalSize r = 16 ∧ compressedSize r = 2
    ∧ compressionRatio r = 12.5%float.
Proof. eexists. split; [vm_compute; reflexivity|]. done. Qed.

(** A text with a surrogate pair whose two halves also occur on their own
    is decoded back to itself: every code unit is then a key by itself. *)
Example run_pair_and_lone_halves :
  ∃ r, huffmanEncode [0xDC00; 0xD83D; 0xDC00; 0xD83D]%N = Normal r
    ∧ keys (frequencies r) = [[0xDC00]; [0xD83D; 0xDC00]; [0xD83D]]%N
    ∧ decoded r = [0xDC00; 0xD83D; 0xDC00; 0xD83D]%N.
Proof. eexists. split; [vm_compute; reflexivity|]. done. Qed.

(** ** The engine in a store *)

Section RealmFacts.
Implicit Types (σ : Store) (h heap : list HuffmanNode) (this ref : nat).

Lemma run_bind {A B} (m : Realm.M A) (f : A → Realm.M B) σ :
  Realm.run (m ≫= f) σ
  = match Realm.run m σ with
    | Normal (a, σ') => Realm.run (f a) σ'
    | TypeError => TypeError
    | OutOfFuel => OutOfFuel
    end.
Proof. reflexivity. Qed.

Lemma run_ret {A} (a : A) σ : Realm.run (mret a) σ = Normal (a, σ).
Proof. reflexivity. Qed.

Lemma run_pure {A} (c : Completion A) (a : A) σ :
  c = Normal a → Realm.run (Realm.pure c) σ = Normal (a, σ).
Proof. by intros ->. Qed.

Lemma run_readHeap this h σ :
  σ !! this = Some (HeapArr h) → Realm.run (Realm.readHeap this) σ = Normal (h, σ).
Proof. intros H. cbn. by rewrite H. Qed.

Lemma run_readFreq ref o σ :
  σ !! ref = Some (FreqObj o) → Realm.run (Realm.readFreq ref) σ = Normal (o, σ).
Proof. intros H. cbn. by rewrite H. Qed.

Lemma run_readCodes ref o σ :
  σ !! ref = Some (CodeObj o) → Realm.run (Realm.readCodes ref) σ = Normal (o, σ).
Proof. intros H. cbn. by rewrite H. Qed.

Lemma lookup_written ref (c c' : Cell) σ :
  σ !! ref = Some c → <[ref := c']> σ !! ref = Some c'.
Proof. intros H. apply list_lookup_insert_eq. by eapply lookup_lt_Some. Qed.

(** A method of [MinHeap] does to the array of [this] what the method
    does to the array it is passed above, and touches no other object. *)
Lemma run_MinHeap_insert this node h h' σ :
  σ !! this = Some (HeapArr h) → MinHeap.insert h node = Normal h' →
  Realm.run (Realm.MinHeap_insert this node) σ
  = Normal (tt, <[this := HeapArr h']> σ).
Proof.
  intros Hthis Hins. unfold Realm.MinHeap_insert.
  rewrite run_bind, (run_readHeap _ _ _ Hthis).
  by rewrite run_bind, (run_pure _ _ _ Hins).
Qed.

Lemma run_MinHeap_extractMin this res h h' σ :
  σ !! this = Some (HeapArr h) → MinHeap.extractMin h = Normal (res, h') →
  Realm.run (Realm.MinHeap_extractMin this) σ
  = Normal (res, <[this := HeapArr h']> σ).
Proof.
  intros Hthis Hext. unfold Realm.MinHeap_extractMin.
  rewrite run_bind, (run_readHeap _ _ _ Hthis).
  by rewrite run_bind, (run_pure _ _ _ Hext).
Qed.

Lemma run_MinHeap_size this h σ :
  σ !! this = Some (HeapArr h) →
  Realm.run (Realm.MinHeap_size this) σ = Normal (MinHeap.size h, σ).
Proof.
  intros Hthis. unfold Realm.MinHeap_size.
  by rewrite run_bind, (run_readHeap _ _ _ Hthis).
Qed.

Lemma run_countLoop ref chars :
  ∀ o σ, σ !! ref = Some (FreqObj o) →
    Realm.run (Realm.countLoop ref chars) σ
    = Normal (tt, <[ref := FreqObj (fold_left countStep chars o)]> σ).
Proof.
  induction chars as [|char chars IH]; intros o σ Href.
  - cbn [Realm.countLoop fold_left]. by rewrite run_ret, list_insert_id.
  - cbn [Realm.countLoop fold_left].
    rewrite run_bind, (run_readFreq _ _ _ Href), run_bind. cbn [Realm.write Realm.run].
    rewrite (IH (countStep o char)) by (by eapply lookup_written).
    by rewrite list_insert_insert_eq.
Qed.

Lemma run_calculateFrequencies text σ :
  Realm.run (Realm.calculateFrequencies text) σ
  = Normal (length σ, σ ++ [FreqObj (calculateFrequencies text)]).
Proof.
  unfold Realm.calculateFrequencies. rewrite run_bind. cbn [Realm.alloc Realm.run].
  rewrite run_bind, (run_countLoop _ _ []) by (by apply list_lookup_middle).
  rewrite run_ret, insert_app_r_alt, Nat.sub_diag by done. done.
Qed.

Lemma run_insertLeaves this es :
  ∀ h h' σ, σ !! this = Some (HeapArr h) → insertLeaves es h = Normal h' →
    Realm.run (Realm.insertLeaves this es) σ
    = Normal (tt, <[this := HeapArr h']> σ).
Proof.
  induction es as [|[char f] es IH]; intros h h' σ Hthis Hrun.
  - cbn in Hrun. injection Hrun as <-. cbn [Realm.insertLeaves].
    by rewrite run_ret, list_insert_id.
  - cbn [insertLeaves] in Hrun. cbn [Realm.insertLeaves].
    destruct (MinHeap.insert h (createNode (Some char) f None None))
      as [h1| |] eqn:Hins; try done.
    rewrite bind_Normal in Hrun.
    rewrite run_bind, (run_MinHeap_insert _ _ _ _ _ Hthis Hins).
    rewrite (IH h1 h') by (by eauto using lookup_written).
    by rewrite list_insert_insert_eq.
Qed.

Lemma run_mergeLoop this fuel :
  ∀ h h' σ, σ !! this = Some (HeapArr h) → mergeLoop fuel h = Normal h' →
    Realm.run (Realm.mergeLoop fuel this) σ
    = Normal (tt, <[this := HeapArr h']> σ).
Proof.
  induction fuel as [|fuel IH]; intros h h' σ Hthis Hrun;
    rewrite mergeLoop_eq in Hrun.
  - cbn [Realm.mergeLoop]. rewrite run_bind, (run_MinHeap_size _ _ _ Hthis).
    destruct (1 <? MinHeap.size h); [done|]. injection Hrun as <-.
    by rewrite run_ret, list_insert_id.
  - cbn [Realm.mergeLoop]. rewrite run_bind, (run_MinHeap_size _ _ _ Hthis).
    destruct (1 <? MinHeap.size h);
      [|injection Hrun as <-; by rewrite run_ret, list_insert_id].
    destruct (MinHeap.extractMin h) as [[l h1]| |] eqn:H1; try done.
    rewrite bind_Normal in Hrun. cbn beta iota in Hrun.
    destruct (MinHeap.extractMin h1) as [[r h2]| |] eqn:H2; try done.
    rewrite bind_Normal in Hrun. cbn beta iota in Hrun.
    rewrite run_bind, (run_MinHeap_extractMin _ _ _ _ _ Hthis H1).
    rewrite run_bind,
      (run_MinHeap_extractMin _ _ _ _ _ (lookup_written _ _ _ _ Hthis) H2).
    rewrite list_insert_insert_eq.
    destruct l as [l|], r as [r|]; try done.
    destruct (MinHeap.insert h2 (createNode None (freq l + freq r) (Some l) (Some r)))
      as [h3| |] eqn:H3; try done.
    rewrite bind_Normal in Hrun.
    rewrite run_bind,
      (run_MinHeap_insert _ _ _ _ _ (lookup_written _ _ _ _ Hthis) H3).
    rewrite list_insert_insert_eq.
    rewrite (IH h3 h') by (by eauto using lookup_written).
    by rewrite list_insert_insert_eq.
Qed.

(** [buildHuffmanTree] on a frequency table in the store returns what it
    returns on the entries of the table, and leaves the store as it was,
    with the array of its heap added. *)
Lemma run_buildHuffmanTree ref fr root σ :
  σ !! ref = Some (FreqObj fr) → buildHuffmanTree fr = Normal root →
  ∃ h, Realm.run (Realm.buildHuffmanTree ref) σ = Normal (root, σ ++ [HeapArr h]).
Proof.
  intros Href Hrun. unfold buildHuffmanTree in Hrun.
  destruct (insertLeaves (entries fr) []) as [h0| |] eqn:Hleaves; try done.
  rewrite bind_Normal in Hrun.
  assert ((σ ++ [HeapArr []]) !! length σ = Some (HeapArr [])) as Hthis
    by (by apply list_lookup_middle).
  assert (∀ h, <[length σ := HeapArr h]> (σ ++ [HeapArr []]) = σ ++ [HeapArr h])
    as Hwrite by (intros h; by rewrite insert_app_r_alt, Nat.sub_diag).
  unfold Realm.buildHuffmanTree, Realm.MinHeap_new.
  rewrite run_bind. cbn [Realm.alloc Realm.run].
  rewrite run_bind, (run_readFreq _ fr) by (by apply lookup_app_l_Some).
  rewrite run_bind, (run_insertLeaves _ _ _ _ _ Hthis Hleaves), Hwrite.
  assert (∀ h, (σ ++ [HeapArr h]) !! length σ = Some (HeapArr h)) as Hat
    by (intros h; by apply list_lookup_middle).
  assert (∀ h h', <[length σ := HeapArr h']> (σ ++ [HeapArr h]) = σ ++ [HeapArr h'])
    as Hwrite' by (intros h h'; by rewrite insert_app_r_alt, Nat.sub_diag).
  rewrite run_bind, (run_MinHeap_size _ _ _ (Hat h0)).
  destruct (decide (MinHeap.size h0 = 1)) as [Hone|Hmore].
  - destruct (MinHeap.extractMin h0) as [[node h1]| |] eqn:Hext; try done.
    rewrite bind_Normal in Hrun. cbn beta iota in Hrun.
    rewrite run_bind, (run_MinHeap_extractMin _ _ _ _ _ (Hat h0) Hext), Hwrite'.
    destruct node as [n|]; [|done]. injection Hrun as <-.
    exists h1. by rewrite run_ret.
  - destruct (mergeLoop (MinHeap.size h0) h0) as [h1| |] eqn:Hmerge; try done.
    rewrite bind_Normal in Hrun.
    destruct (MinHeap.extractMin h1) as [[node h2]| |] eqn:Hext; try done.
    rewrite bind_Normal in Hrun. cbn beta iota in Hrun. injection Hrun as <-.
    rewrite run_bind, (run_mergeLoop _ _ _ _ _ (Hat h0) Hmerge), Hwrite'.
    rewrite (run_MinHeap_extractMin _ _ _ _ _ (Hat h1) Hext), Hwrite'.
    by exists h2.
Qed.

Lemma run_generateCodesNode root ref :
  ∀ code o σ, σ !! ref = Some (CodeObj o) →
    Realm.run (Realm.generateCodesNode root code ref) σ
    = Normal (tt, <[ref := CodeObj (generateCodesNode root code o)]> σ).
Proof.
  induction root as [c f l r IHl IHr] using HuffmanNode_ind.
  intros code o σ Href. destruct c as [c|].
  - cbn [Realm.generateCodesNode generateCodesNode char].
    by rewrite run_bind, (run_readCodes _ _ _ Href).
  - cbn [Realm.generateCodesNode generateCodesNode char left right].
    rewrite run_bind.
    set (o1 := match l with
               | Some l => generateCodesNode l (code ++ str_0) o
               | None => o
               end).
    assert (Realm.run (match l with
                       | Some l => Realm.generateCodesNode l (code ++ str_0) ref
                       | None => mret tt
                       end) σ = Normal (tt, <[ref := CodeObj o1]> σ)) as ->.
    { unfold o1. destruct l as [l|]; [by apply IHl|].
      by rewrite run_ret, list_insert_id. }
    destruct r as [r|].
    + cbn [optP] in IHr. rewrite (IHr _ o1) by (by eapply lookup_written).
      by rewrite list_insert_insert_eq.
    + by rewrite run_ret.
Qed.

Lemma run_generateCodes root σ :
  Realm.run (Realm.generateCodes root [] None) σ
  = Normal (length σ, σ ++ [CodeObj (generateCodes root [] [])]).
Proof.
  unfold Realm.generateCodes. rewrite run_bind. cbn [Realm.alloc Realm.run].
  rewrite run_bind. destruct root as [root|].
  - rewrite (run_generateCodesNode _ _ _ []) by (by apply list_lookup_middle).
    by rewrite run_ret, insert_app_r_alt, Nat.sub_diag.
  - by rewrite !run_ret.
Qed.

(** An invocation in a store returns what the engine returns on the text:
    the two tables are new objects that hold the two tables of the
    engine, the other fields are equal, and every object the store held
    before is left as it was. *)
Lemma run_huffmanEncode text r σ :
  huffmanEncode text = Normal r →
  ∃ ro new,
    Realm.run (Realm.huffmanEncode text) σ = Normal (ro, σ ++ new)
    ∧ length σ ≤ Realm.frequencies ro ∧ length σ ≤ Realm.codes ro
    ∧ Realm.frequencies ro ≠ Realm.codes ro
    ∧ frequenciesIn (σ ++ new) ro = Some (frequencies r)
    ∧ codesIn (σ ++ new) ro = Some (codes r)
    ∧ Realm.encoded ro = encoded r
    ∧ Realm.decoded ro = decoded r
    ∧ Realm.compressionRatio ro = compressionRatio r
    ∧ Realm.originalSize ro = originalSize r
    ∧ Realm.compressedSize ro = compressedSize r.
Proof.
  unfold huffmanEncode, Realm.huffmanEncode. intros Hrun.
  destruct (decide (text = [])) as [->|Hne].
  - injection Hrun as <-.
    exists (Realm.mkResult (length σ) (S (length σ)) [] [] 0%float 0 0),
      [FreqObj []; CodeObj []].
    split.
    { rewrite run_bind. cbn [Realm.alloc Realm.run].
      rewrite run_bind. cbn [Realm.alloc Realm.run].
      rewrite run_ret, length_app, <- app_assoc. cbn [length app].
      by rewrite Nat.add_1_r. }
    unfold frequenciesIn, codesIn. cbn [Realm.frequencies Realm.codes].
    rewrite (list_lookup_middle σ [CodeObj []] (FreqObj []) (length σ)) by done.
    rewrite (lookup_app_r σ) by lia.
    replace (S (length σ) - length σ) with 1 by lia.
    split_and!; try done; lia.
  - destruct (buildHuffmanTree (calculateFrequencies text)) as [root| |] eqn:Hbuild;
      try done.
    rewrite bind_Normal in Hrun.
    destruct (decodeText (encodeText text (generateCodes root [] [])) root)
      as [dec| |] eqn:Hdec; try done.
    rewrite bind_Normal in Hrun. injection Hrun as <-.
    set (fr := calculateFrequencies text) in *.
    set (cd := generateCodes root [] []) in *.
    destruct (run_buildHuffmanTree (length σ) fr root (σ ++ [FreqObj fr]))
      as [h Hb]; [by apply list_lookup_middle | done |].
    exists (Realm.mkResult (length σ) (S (S (length σ))) (encodeText text cd) dec
              (if 0 <? length text * 8
               then (number_of_nat (length (encodeText text cd))
                     / number_of_nat (length text * 8) * 100)%float
               else 0%float)
              (length text * 8) (length (encodeText text cd))),
      [FreqObj fr; HeapArr h; CodeObj cd].
    assert (σ ++ [FreqObj fr; HeapArr h; CodeObj cd]
            = ((σ ++ [FreqObj fr]) ++ [HeapArr h]) ++ [CodeObj cd]) as Hσ
      by (by rewrite <- !app_assoc).
    assert (length ((σ ++ [FreqObj fr]) ++ [HeapArr h]) = S (S (length σ))) as Hlen
      by (rewrite !length_app; cbn; lia).
    split.
    { rewrite run_bind, run_calculateFrequencies. fold fr.
      rewrite run_bind, Hb, run_bind, run_generateCodes. fold cd.
      rewrite Hlen, <- Hσ. unfold Realm.encodeText.
      rewrite run_bind, run_bind, (run_readCodes _ cd);
        [|rewrite Hσ, <- Hlen; by apply list_lookup_middle].
      rewrite run_ret, run_bind, (run_pure _ _ _ Hdec). by rewrite run_ret. }
    unfold frequenciesIn, codesIn. cbn [Realm.frequencies Realm.codes].
    rewrite (list_lookup_middle σ [HeapArr h; CodeObj cd] (FreqObj fr) (length σ))
      by done.
    rewrite (lookup_app_r σ) by lia.
    replace (S (S (length σ)) - length σ) with 2 by lia.
    split_and!; try done; lia.
Qed.
End RealmFacts.

(** ["ab"] twice, in a store that holds one object before: every
    invocation adds its frequency table, the array of its heap (empty at
    the end) and its code table, and writes to nothing else. *)
Example two_runs_ab :
  ∃ r1 σ1 r2 σ2,
    Realm.run (Realm.huffmanEncode text_ab) [CodeObj [([120%N], str_1)]]
      = Normal (r1, σ1)
    ∧ Realm.run (Realm.huffmanEncode text_ab) σ1 = Normal (r2, σ2)
    ∧ Realm.frequencies r1 = 1 ∧ Realm.codes r1 = 3
    ∧ Realm.frequencies r2 = 4 ∧ Realm.codes r2 = 6
    ∧ σ2 = [CodeObj [([120%N], str_1)];
            FreqObj [([97%N], 1); ([98%N], 1)]; HeapArr [];
            CodeObj [([97%N], str_0); ([98%N], str_1)];
            FreqObj [([97%N], 1); ([98%N], 1)]; HeapArr [];
            CodeObj [([97%N], str_0); ([98%N], str_1)]].
Proof.
  do 4 eexists. split; [vm_compute; reflexivity|].
  split; [vm_compute; reflexivity|]. done.
Qed.

(* ===================================================================== *)
(** * Part III: the properties of the design document *)
(* ===================================================================== *)

(** ** Round trip *)

(** A text without surrogate pairs is walked the same way by the frequency
    count and by the encoder, and is decoded back to itself. *)
Lemma roundtrip_without_surrogate_pairs text :
  text ≠ [] → noSurrogatePair text →
  ∃ r, huffmanEncode text = Normal r ∧ decoded r = text.
Proof.
  intros Hne Hbmp.
  destruct (huffmanEncode_run text Hne)
    as (root & r & _ & Hrun & _ & Hcodes & _ & Hdec & _ & _ & Hchar & Hleaves & _).
  exists r. split; [done|]. rewrite Hdec, Hcodes.
  apply encodedSymbols_all. intros u Hu.
  apply (codes_of_tree root Hchar). rewrite Hleaves.
  apply (calculateFrequencies_spec text). by rewrite codePoints_units.
Qed.

(** Every symbol the encoder looks up in such a text has a code. *)
Lemma lookups_without_surrogate_pairs text :
  noSurrogatePair text →
  ∃ r, huffmanEncode text = Normal r
    ∧ ∀ u, u ∈ split_units text → is_Some (get (codes r) u).
Proof.
  intros Hbmp. destruct (decide (text = [])) as [->|Hne].
  { eexists. split; [reflexivity|]. intros u Hu. by apply elem_of_nil in Hu. }
  destruct (huffmanEncode_run text Hne)
    as (root & r & _ & Hrun & _ & Hcodes & _ & _ & _ & _ & Hchar & Hleaves & _).
  exists r. split; [done|]. intros u Hu. rewrite Hcodes.
  apply (codes_of_tree root Hchar). rewrite Hleaves.
  apply (calculateFrequencies_spec text). by rewrite codePoints_units.
Qed.

(** C1 (round trip), at the text U+1F600: the run returns normally, the
    frequency table and the code table hold the one symbol of the text, the
    encoder finds neither of its two code units in the table, and both the
    encoded and the decoded string are empty.  The decoded string is not
    the text. *)
Theorem roundtrip_fails_on_surrogate_pair :
  ∃ r, huffmanEncode text_grin = Normal r
    ∧ frequencies r = [(text_grin, 1)]
    ∧ codes r = [(text_grin, str_0)]
    ∧ encoded r = []
    ∧ decoded r = []
    ∧ decoded r ≠ text_grin.
Proof. eexists. split; [vm_compute; reflexivity|]. cbn. split_and!; done. Qed.

(** C2 (lookups cannot fail), at the text U+1F600: the encoder looks up the
    two code units of the text one by one, and neither is a key of the code
    table built from the same text, whose only key is the whole pair. *)
Theorem lookup_fails_on_surrogate_pair :
  ∃ r, huffmanEncode text_grin = Normal r
    ∧ keys (codes r) = [text_grin]
    ∧ split_units text_grin = [[0xD83D%N]; [0xDE00%N]]
    ∧ Forall (λ u, get (codes r) u = None) (split_units text_grin).
Proof.
  eexists. split; [vm_compute; reflexivity|]. cbn.
  split_and!; [done | done |]. repeat constructor.
Qed.

(** ** Prefix-free codes *)

(** C3: for every input text the run returns a code table in which no code
    is a prefix of the code of another symbol (so in particular no code is
    a proper prefix of another code of the table). *)
Theorem codes_prefix_free text :
  ∃ r, huffmanEncode text = Normal r ∧ prefixFreeTable (codes r).
Proof.
  destruct (decide (text = [])) as [->|Hne].
  { eexists. split; [reflexivity|]. intros s1 s2 c1 c2 _ H. done. }
  destruct (huffmanEncode_run text Hne)
    as (root & r & _ & Hrun & _ & Hcodes & _ & _ & _ & _ & Hchar & _).
  exists r. split; [done|]. rewrite Hcodes.
  intros s1 s2 c1 c2 Hs H1 H2 Hpre.
  apply (codes_of_tree root Hchar) in H1, H2.
  apply Hs. by eapply leafPaths_prefix.
Qed.

Lemma codes_prefix_free_witness :
  ∃ r, huffmanEncode text_ab = Normal r
    ∧ get (codes r) [97%N] = Some str_0
    ∧ get (codes r) [98%N] = Some str_1
    ∧ ¬ str_0 `prefix_of` str_1.
Proof.
  destruct (codes_prefix_free text_ab) as (r & Hrun & Hfree).
  exists r. pose proof Hrun as Heval. vm_compute in Heval. injection Heval as <-.
  split; [exact Hrun|]. split; [reflexivity|]. split; [reflexivity|].
  apply (Hfree [97%N] [98%N]); [discriminate | reflexivity | reflexivity].
Defined.

(** ** Weight of the root *)

(** C4: for every non-empty text the tree built from its frequency table
    has a root whose weight is the sum of all frequency counts, which is
    the number of symbols of the text (its length as the frequency count
    walks it); for a text without surrogate pairs that is the number of its
    code units. *)
Theorem root_weight_is_input_length text :
  text ≠ [] →
  ∃ root, buildHuffmanTree (calculateFrequencies text) = Normal (Some root)
    ∧ freq root = sumCounts (calculateFrequencies text)
    ∧ freq root = length (codePoints text)
    ∧ (noSurrogatePair text → freq root = length text).
Proof.
  intros Hne.
  destruct (huffmanEncode_run text Hne)
    as (root & r & Hbuild & _ & _ & _ & _ & _ & _ & _ & _ & _ & Hfreq & _).
  destruct (calculateFrequencies_spec text) as (_ & _ & Hsum & _).
  exists root. split_and!; [done | done | congruence |].
  intros Hbmp. rewrite Hfreq, Hsum, codePoints_units by done.
  unfold split_units. by rewrite length_map.
Qed.

Lemma root_weight_is_input_length_witness :
  ∃ root, buildHuffmanTree (calculateFrequencies text_abracadabra) = Normal (Some root)
    ∧ freq root = sumCounts (calculateFrequencies text_abracadabra)
    ∧ freq root = length (codePoints text_abracadabra)
    ∧ (noSurrogatePair text_abracadabra → freq root = length text_abracadabra).
Proof. apply (root_weight_is_input_length text_abracadabra). discriminate. Defined.

(** ** Determinism *)

(** C5: two invocations on the same text, one after the other, in a
    program that holds any objects whatever before the first.  Both
    return.  The frequency table of the first result and that of the
    second are two objects that hold the same entries in the same order,
    the same is true of the two code tables, and the two encoded strings
    are equal: all are what the engine computes from the text alone.  The
    second invocation leaves the objects of the first as they are, and
    neither writes to an object that was there before. *)
Theorem encoding_deterministic text (σ0 : Store) :
  ∃ r r1 σ1 r2 σ2,
    huffmanEncode text = Normal r
    ∧ Realm.run (Realm.huffmanEncode text) σ0 = Normal (r1, σ1)
    ∧ Realm.run (Realm.huffmanEncode text) σ1 = Normal (r2, σ2)
    ∧ frequenciesIn σ2 r1 = Some (frequencies r)
    ∧ frequenciesIn σ2 r2 = Some (frequencies r)
    ∧ codesIn σ2 r1 = Some (codes r)
    ∧ codesIn σ2 r2 = Some (codes r)
    ∧ Realm.encoded r1 = encoded r
    ∧ Realm.encoded r2 = encoded r
    ∧ Realm.frequencies r1 ≠ Realm.frequencies r2
    ∧ Realm.codes r1 ≠ Realm.codes r2
    ∧ σ0 `prefix_of` σ1 ∧ σ1 `prefix_of` σ2.
Proof.
  assert (∃ r, huffmanEncode text = Normal r) as [r Hr].
  { destruct (decide (text = [])) as [->|Hne]; [by eexists|].
    destruct (huffmanEncode_run text Hne) as (root & r & _ & Hrun & _). eauto. }
  destruct (run_huffmanEncode text r σ0 Hr)
    as (r1 & new1 & Hrun1 & _ & _ & _ & Hfr1 & Hcd1 & Henc1 & _).
  destruct (run_huffmanEncode text r (σ0 ++ new1) Hr)
    as (r2 & new2 & Hrun2 & Hf2 & Hc2 & _ & Hfr2 & Hcd2 & Henc2 & _).
  exists r, r1, (σ0 ++ new1), r2, ((σ0 ++ new1) ++ new2).
  unfold frequenciesIn, codesIn in *.
  destruct ((σ0 ++ new1) !! Realm.frequencies r1) as [c1|] eqn:E1; [|done].
  destruct ((σ0 ++ new1) !! Realm.codes r1) as [c2|] eqn:E2; [|done].
  rewrite (lookup_app_l_Some _ new2 _ _ E1), (lookup_app_l_Some _ new2 _ _ E2).
  apply lookup_lt_Some in E1, E2.
  split_and!; try done; try lia; by eexists.
Qed.

(** ** Totality *)

(** C6: on every input string, the empty one included, the run returns a
    result: it neither throws nor runs out of the fuel the model gives to
    its loops. *)
Theorem huffmanEncode_total text : ∃ r, huffmanEncode text = Normal r.
Proof.
  destruct (decide (text = [])) as [->|Hne].
  - eexists. reflexivity.
  - destruct (huffmanEncode_run text Hne) as (root & r & _ & Hrun & _). eauto.
Qed.

(** ** The single-symbol text *)

(** C7: on ["aaaa"] the tree is the wrapper over the one leaf (no right
    child), the code table is [{a: "0"}], the encoded string is ["0000"] and
    the decoded string is ["aaaa"]. *)
Theorem single_symbol_aaaa :
  buildHuffmanTree (calculateFrequencies text_aaaa)
    = Normal (Some (wrapperTree [97%N] 4))
  ∧ left (wrapperTree [97%N] 4) = Some (createNode (Some [97%N]) 4 None None)
  ∧ right (wrapperTree [97%N] 4) = None
  ∧ ∃ r, huffmanEncode text_aaaa = Normal r
      ∧ codes r = [([97%N], str_0)]
      ∧ encoded r = [48; 48; 48; 48]%N
      ∧ decoded r = text_aaaa.
Proof.
  split; [vm_compute; reflexivity|]. do 2 (split; [reflexivity|]).
  exists result_aaaa. split; [vm_compute; reflexivity|]. done.
Qed.

(** ** The empty text *)

(** C8: on the empty string the run returns the all-zero result. *)
Theorem empty_text_result :
  huffmanEncode [] = Normal (mkResult [] [] [] [] 0%float 0 0).
Proof. reflexivity. Qed.

(** ** Heavier symbols get codes that are no longer *)

(** C9: in the tables of every run, a symbol with a strictly higher
    frequency than another has a code that is not longer. *)
Theorem heavier_symbol_code_not_longer text :
  ∃ r, huffmanEncode text = Normal r
    ∧ ∀ s1 s2 f1 f2 c1 c2,
        get (frequencies r) s1 = Some f1 → get (frequencies r) s2 = Some f2 →
        get (codes r) s1 = Some c1 → get (codes r) s2 = Some c2 →
        f2 < f1 → length c1 ≤ length c2.
Proof.
  destruct (decide (text = [])) as [->|Hne].
  { eexists. split; [reflexivity|]. intros s1 s2 f1 f2 c1 c2 H. done. }
  destruct (huffmanEncode_run text Hne)
    as (root & r & _ & Hrun & Hfr & Hcodes & _ & _ & _ & _ & Hchar & Hleaves & _ & Hshape).
  destruct (calculateFrequencies_spec text) as (Hnd & _).
  exists r. split; [done|]. rewrite Hfr, Hcodes.
  intros s1 s2 f1 f2 c1 c2 Hf1 Hf2 Hc1 Hc2 Hlt.
  destruct Hshape as [(c & f & Hsingle & _)|[Hproper Hapart]].
  - rewrite Hsingle in Hf1, Hf2. cbn in Hf1, Hf2.
    repeat case_decide; simplify_eq. lia.
  - apply (codes_of_tree root Hchar) in Hc1, Hc2.
    apply leafPaths_descend in Hc1 as (m1 & Hd1 & Hm1).
    apply leafPaths_descend in Hc2 as (m2 & Hd2 & Hm2).
    assert (get (calculateFrequencies text) s1 = Some (freq m1)) as Hg1.
    { apply elem_get; [done|]. rewrite <- Hleaves. by eapply descend_leafList. }
    assert (get (calculateFrequencies text) s2 = Some (freq m2)) as Hg2.
    { apply elem_get; [done|]. rewrite <- Hleaves. by eapply descend_leafList. }
    simplify_eq.
    by apply (depth_mono root c1 Hproper Hapart c2 m2 m1).
Qed.

Lemma heavier_symbol_code_not_longer_witness :
  ∃ r, huffmanEncode text_abracadabra = Normal r
    ∧ get (frequencies r) [97%N] = Some 5
    ∧ get (frequencies r) [99%N] = Some 1
    ∧ get (codes r) [97%N] = Some [48%N]
    ∧ get (codes r) [99%N] = Some [49; 49; 49; 48]%N
    ∧ length [48%N] ≤ length [49; 49; 49; 48]%N.
Proof.
  destruct (heavier_symbol_code_not_longer text_abracadabra) as (r & Hrun & Hlen).
  exists r. pose proof Hrun as Heval. vm_compute in Heval. injection Heval as <-.
  split; [exact Hrun|]. do 4 (split; [reflexivity|]).
  apply (Hlen [97%N] [99%N] 5 1); [reflexivity.. | lia].
Defined.

(** ** The decoder on a foreign bit string *)

(** C10: on the tree built for ["aaaa"] and the bit string ["1"], which is
    not a concatenation of codes of that tree, the walk of the decoder
    steps into the absent right child and the leaf check that follows
    reads [char] of [null]: the decoder throws. *)
Theorem decodeText_throws_on_foreign_bits :
  ∃ root,
    buildHuffmanTree (calculateFrequencies text_aaaa) = Normal (Some root)
    ∧ right root = None
    ∧ (∀ syms, Forall (λ cp, cp ∈ leafPaths root) syms → concat syms.*2 ≠ str_1)
    ∧ decodeLoop root (codePoints str_1) [] (Some root) = Normal ([], None)
    ∧ decodeText str_1 (Some root) = TypeError.
Proof.
  exists (wrapperTree [97%N] 4).
  split; [vm_compute; reflexivity|]. split; [reflexivity|].
  split; [|split; reflexivity].
  intros [|[c p] syms] Hsyms; [done|].
  apply Forall_cons in Hsyms as [Hcp _]. cbn in Hcp.
  apply list_elem_of_singleton in Hcp as [= -> ->]. done.
Qed.

(* ===================================================================== *)
(** * Part IV: further properties of the code *)
(* ===================================================================== *)

(** ** MinHeap *)

Section HeapProperties.
Import MinHeap.
Implicit Types (h heap : list HuffmanNode) (x y : HuffmanNode).

(** X1: [getParentIndex] undoes [getLeftChildIndex] and [getRightChildIndex],
    and a non-root index is the left or the right child of its parent. *)
Theorem parent_of_child_index (index : nat) :
  getParentIndex (getLeftChildIndex index) = index
  ∧ getParentIndex (getRightChildIndex index) = index
  ∧ (index ≠ 0 →
     getLeftChildIndex (getParentIndex index) = index
     ∨ getRightChildIndex (getParentIndex index) = index).
Proof.
  split_and!.
  - symmetry. apply isChild_parent. by left.
  - symmetry. apply isChild_parent. by right.
  - intros Hi. destruct (parent_child index Hi) as [H|H]; auto.
Qed.

Lemma parent_of_child_index_witness :
  getParentIndex (getLeftChildIndex 5) = 5
  ∧ getParentIndex (getRightChildIndex 5) = 5
  ∧ (5 ≠ 0 →
     getLeftChildIndex (getParentIndex 5) = 5
     ∨ getRightChildIndex (getParentIndex 5) = 5).
Proof. apply (parent_of_child_index 5). Defined.

(** X2: [insert] never throws: the array it leaves holds the old elements and
    the new node, one more than before, and is heap-ordered if the array
    was. *)
Theorem insert_adds_node h x :
  ∃ h', insert h x = Normal h'
    ∧ h' ≡ₚ x :: h
    ∧ size h' = S (size h)
    ∧ (heapOrdered h → heapOrdered h').
Proof.
  destruct (insert_spec h x) as (h' & Hrun & Hperm & Hord).
  exists h'. split_and!; [done | done | | done].
  unfold size. by rewrite (Permutation_length Hperm).
Qed.

(** X3: [extractMin] never throws.  On the empty heap it returns [null] and
    leaves the heap empty; on any other heap it returns one of the elements
    and leaves exactly the others. *)
Theorem extractMin_removes_one h :
  ∃ res h', extractMin h = Normal (res, h')
    ∧ match res with
      | None => h = [] ∧ h' = []
      | Some m => h ≡ₚ m :: h' ∧ S (size h') = size h
      end.
Proof.
  destruct h as [|x t] eqn:Hh.
  - exists None, []. done.
  - destruct (extractMin_spec (x :: t)) as (m & h' & Hrun & Hperm & _); [done|].
    exists (Some m), h'. split_and!; [done | done |].
    unfold size. by rewrite (Permutation_length Hperm).
Qed.

(** X4: On a heap-ordered, non-empty array [extractMin] returns an element
    that is no heavier than any element it leaves, and leaves the array
    heap-ordered. *)
Theorem extractMin_returns_minimum h :
  heapOrdered h → h ≠ [] →
  ∃ m h', extractMin h = Normal (Some m, h')
    ∧ h ≡ₚ m :: h'
    ∧ heapOrdered h'
    ∧ Forall (λ y, freq m ≤ freq y) h'.
Proof.
  intros Ho Hne.
  destruct (extractMin_spec h Hne) as (m & h' & Hrun & Hperm & Hord).
  destruct (Hord Ho). by exists m, h'.
Qed.

(** X5: [heapifyUp] at an index of the array returns, keeps the elements, and
    restores the heap order when only the element at the index is out of
    place (lighter than its parent).  At a non-zero index outside the array
    it throws: it reads [freq] of [undefined]. *)
Theorem heapifyUp_behaviour h k :
  (k < length h →
   ∃ h', heapifyUp h k = Normal h' ∧ h' ≡ₚ h
     ∧ (orderedAbove h k → heapOrdered h'))
  ∧ (length h ≤ k → k ≠ 0 → heapifyUp h k = TypeError).
Proof.
  split.
  - intros Hk. by apply heapifyUp_fuel_spec.
  - intros Hk Hk0. unfold heapifyUp. rewrite heapifyUp_fuel_eq.
    rewrite decide_False by done. destruct k as [|k]; [done|].
    unfold freqAt. rewrite (lookup_ge_None_2 h (S k)) by done.
    by destruct (h !! getParentIndex (S k)).
Qed.

(** X6: [heapifyDown] at an index of the array returns, keeps the elements,
    and restores the heap order when only the element at the index is out
    of place (heavier than a child).  At an index outside the array it
    returns the array as it is. *)
Theorem heapifyDown_behaviour h k :
  (k < length h →
   ∃ h', heapifyDown h k = Normal h' ∧ h' ≡ₚ h
     ∧ (orderedBelow h k → heapOrdered h'))
  ∧ (length h ≤ k → heapifyDown h k = Normal h).
Proof.
  split.
  - intros Hk. apply heapifyDown_fuel_spec; [done | lia].
  - intros Hk. unfold heapifyDown. rewrite heapifyDown_fuel_eq.
    unfold smallestOf, getLeftChildIndex, getRightChildIndex.
    destruct (2 * k + 1 <? length h) eqn:H1; [apply Nat.ltb_lt in H1; lia|].
    destruct (2 * k + 2 <? length h) eqn:H2; [apply Nat.ltb_lt in H2; lia|].
    cbn. by rewrite decide_False by (intros ?; done).
Qed.
End HeapProperties.

Lemma extractMin_returns_minimum_witness :
  ∃ m h',
    MinHeap.extractMin [leafOf ([97%N], 1); leafOf ([98%N], 2); leafOf ([99%N], 3)]
      = Normal (Some m, h')
    ∧ [leafOf ([97%N], 1); leafOf ([98%N], 2); leafOf ([99%N], 3)] ≡ₚ m :: h'
    ∧ heapOrdered h'
    ∧ Forall (λ y, freq m ≤ freq y) h'.
Proof.
  apply (extractMin_returns_minimum
           [leafOf ([97%N], 1); leafOf ([98%N], 2); leafOf ([99%N], 3)]);
    [|discriminate].
  intros i c x y [-> | ->] Hi Hc; destruct i as [|[|[|i]]];
    cbn in Hi, Hc; simplify_eq; cbn; lia.
Defined.

(** ** calculateFrequencies *)

Section FrequencyProperties.
Implicit Types (text : jsstring) (k : jsstring).

Lemma occurrences_cons {A} `{EqDecision A} (x y : A) (l : list A) :
  occurrences x (y :: l) = (if decide (y = x) then 1 else 0) + occurrences x l.
Proof. unfold occurrences. rewrite filter_cons. by case_decide. Qed.

Lemma countFold_get cps (o : list (jsstring * nat)) k :
  Forall (λ e, 1 ≤ e.2) o →
  default 0 (get (fold_left countStep cps o) k)
  = default 0 (get o k) + occurrences k cps.
Proof.
  revert o. induction cps as [|c cps IH]; intros o Hpos; cbn [fold_left].
  - unfold occurrences. cbn. lia.
  - rewrite IH.
    2: { unfold countStep. apply Forall_set; [done | cbn; lia]. }
    rewrite occurrences_cons. unfold countStep.
    destruct (decide (c = k)) as [->|Hne].
    + rewrite get_set_eq. cbn.
      destruct (get o k) as [n|] eqn:Hg; cbn; [|lia].
      apply get_Some_elem in Hg. rewrite Forall_forall in Hpos.
      specialize (Hpos _ Hg). cbn in Hpos. destruct n; cbn; lia.
    + rewrite get_set_ne by done. lia.
Qed.

Lemma calculateFrequencies_get text k :
  get (calculateFrequencies text) k =
    if decide (occurrences k (codePoints text) = 0) then None
    else Some (occurrences k (codePoints text)).
Proof.
  destruct (calculateFrequencies_spec text) as (_ & Hpos & _ & Hkeys).
  pose proof (countFold_get (codePoints text) [] k (Forall_nil_2 _)) as Hcount.
  fold (calculateFrequencies text) in Hcount. cbn in Hcount.
  destruct (get (calculateFrequencies text) k) as [n|] eqn:Hg; cbn in Hcount.
  - apply get_Some_elem in Hg. rewrite Forall_forall in Hpos.
    specialize (Hpos _ Hg). cbn in Hpos.
    rewrite decide_False by lia. by rewrite <- Hcount.
  - by rewrite decide_True by lia.
Qed.

(** X7: The frequency table holds, for every symbol of the text, the number of
    its occurrences, and has no entry for a string that is not a symbol of
    the text. *)
Theorem frequencies_count_occurrences text k :
  get (calculateFrequencies text) k =
    if decide (occurrences k (codePoints text) = 0) then None
    else Some (occurrences k (codePoints text)).
Proof. apply calculateFrequencies_get. Qed.

Lemma filter_all {A} (P : A → Prop) `{∀ x, Decision (P x)} (l : list A) :
  Forall P l → filter P l = l.
Proof.
  induction 1 as [|x l Hx Hl IH]; [done|].
  by rewrite filter_cons_True, IH.
Qed.

Lemma keys_countFold cps (o : list (jsstring * nat)) :
  keys (fold_left countStep cps o)
  = keys o ++ filter (λ c, c ∉ keys o) (firstOccurrences cps).
Proof.
  revert o. induction cps as [|c cps IH] using rev_ind; intros o.
  - cbn. by rewrite app_nil_r.
  - rewrite fold_left_app. cbn [fold_left]. unfold countStep at 1.
    rewrite keys_set, IH. unfold firstOccurrences.
    rewrite reverse_snoc. cbn [remove_dups].
    destruct (decide_rel elem_of c (reverse cps)) as [Hin|Hnin].
    + rewrite elem_of_reverse in Hin. rewrite decide_True; [done|].
      rewrite elem_of_app, list_elem_of_filter, elem_of_reverse,
        elem_of_remove_dups, elem_of_reverse.
      destruct (decide (c ∈ keys o)); tauto.
    + rewrite elem_of_reverse in Hnin.
      rewrite reverse_cons, filter_app, filter_cons, filter_nil.
      assert (c ∈ keys o ++ filter (λ c0, c0 ∉ keys o)
                (reverse (remove_dups (reverse cps))) ↔ c ∈ keys o) as Hiff.
      { rewrite elem_of_app, list_elem_of_filter, elem_of_reverse,
          elem_of_remove_dups, elem_of_reverse. tauto. }
      destruct (decide (c ∉ keys o)) as [Hk|Hk].
      * rewrite decide_False by (by rewrite Hiff). by rewrite app_assoc.
      * rewrite decide_True; [by rewrite app_nil_r|].
        rewrite Hiff. by destruct (decide (c ∈ keys o)).
Qed.

Lemma codePoints_head text k :
  k ∈ codePoints text → ∃ c rest, k = c :: rest ∧ c ∈ text.
Proof.
  remember (length text) as n eqn:Hn. revert text Hn k.
  induction n as [n IH] using lt_wf_ind. intros text Hn k Hk.
  destruct text as [|c [|d rest]]; cbn [codePoints] in Hk.
  - by apply elem_of_nil in Hk.
  - apply list_elem_of_singleton in Hk as ->. exists c, []. split; [done|left].
  - destruct (isHighSurrogate c && isLowSurrogate d).
    + apply elem_of_cons in Hk as [->|Hk];
        [exists c, [d]; split; [done | left]|].
      destruct (IH (length rest)) with (text := rest) (k := k)
        as (c' & r' & -> & Hin); [cbn in Hn; lia | done | done |].
      exists c', r'. split; [done|]. by do 2 apply list_elem_of_further.
    + apply elem_of_cons in Hk as [->|Hk];
        [exists c, []; split; [done | left]|].
      destruct (IH (length (d :: rest))) with (text := d :: rest) (k := k)
        as (c' & r' & -> & Hin); [cbn in Hn |- *; lia | done | done |].
      exists c', r'. split; [done|]. by apply list_elem_of_further.
Qed.

Lemma entries_without_index {V} (o : list (jsstring * V)) :
  Forall (λ e, arrayIndex e.1 = None) o → entries o = o.
Proof.
  intros H. unfold entries.
  assert (indexEntries o = []) as ->.
  { induction H as [|e o He _ IH]; [done|]. by rewrite indexEntries_cons, He. }
  cbn. by apply filter_all.
Qed.

(** X8: The properties of the frequency table are created in the order in
    which the symbols first occur in the text.  For a text without digit
    characters this is also the order in which [Object.entries] lists
    them (a digit is an array index, and array indices are listed first). *)
Theorem frequency_keys_first_occurrence text :
  keys (calculateFrequencies text) = firstOccurrences (codePoints text)
  ∧ (Forall (λ c, isDigit c = false) text →
     entries (calculateFrequencies text) = calculateFrequencies text).
Proof.
  split.
  - unfold calculateFrequencies. rewrite keys_countFold. cbn.
    apply filter_all, Forall_forall. intros x _. apply not_elem_of_nil.
  - intros Hdigits. apply entries_without_index, Forall_forall. intros [k f] He.
    destruct (calculateFrequencies_spec text) as (_ & _ & _ & Hkeys).
    assert (k ∈ codePoints text) as Hk.
    { apply Hkeys. apply list_elem_of_fmap. by exists (k, f). }
    apply codePoints_head in Hk as (c & rest & -> & Hc).
    rewrite Forall_forall in Hdigits. specialize (Hdigits c Hc).
    cbn [fst arrayIndex forallb]. by rewrite Hdigits.
Qed.
End FrequencyProperties.

(** ** buildHuffmanTree *)

Section BuilderProperties.
Import MinHeap.
Implicit Types (h heap : list HuffmanNode) (fr : list (jsstring * nat)).

(** What is true of every heap with one element, and is carried from the heap
    after a round of the loop to the heap before it, is true of the heap
    the loop starts with and the node it ends with. *)
Lemma mergeLoop_rel (R : list HuffmanNode → HuffmanNode → Prop) :
  (∀ x, R [x] x) →
  (∀ h A h1 B h2 h3 root,
     h ≡ₚ A :: h1 → Forall (λ y, freq A ≤ freq y) h1 →
     h1 ≡ₚ B :: h2 → Forall (λ y, freq B ≤ freq y) h2 →
     h3 ≡ₚ createNode None (freq A + freq B) (Some A) (Some B) :: h2 →
     R h3 root → R h root) →
  ∀ fuel h, length h ≤ fuel → h ≠ [] → heapOrdered h →
    ∃ root, mergeLoop fuel h = Normal [root] ∧ R h root.
Proof.
  intros Hbase Hstep fuel.
  induction fuel as [|fuel IH]; intros h Hfuel Hne Ho;
    rewrite mergeLoop_eq; unfold size;
    (destruct (1 <? length h) eqn:Hlen;
      [apply Nat.ltb_lt in Hlen | apply Nat.ltb_ge in Hlen]); try lia.
  1,3: destruct h as [|x [|y h]]; [done | | cbn in Hlen; lia];
    exists x; by split.
  destruct (extractMin_spec h Hne) as (A & h1 & -> & HA & HordA).
  rewrite bind_Normal. cbn beta iota.
  pose proof (Permutation_length HA) as HlenA. cbn in HlenA.
  assert (h1 ≠ []) as Hne1 by (intros ->; cbn in HlenA; lia).
  destruct (extractMin_spec h1 Hne1) as (B & h2 & -> & HB & HordB).
  rewrite bind_Normal. cbn beta iota.
  pose proof (Permutation_length HB) as HlenB. cbn in HlenB.
  destruct (insert_spec h2 (createNode None (freq A + freq B) (Some A) (Some B)))
    as (h3 & -> & H3 & Hord3).
  rewrite bind_Normal.
  pose proof (Permutation_length H3) as Hlen3. cbn in Hlen3.
  destruct (HordA Ho) as [Ho1 HminA]. destruct (HordB Ho1) as [Ho2 HminB].
  destruct (IH h3) as (root & Hrun & Hroot).
  { lia. } { intros ->. cbn in Hlen3. lia. } { auto. }
  exists root. split; [done|]. by eapply (Hstep h A h1 B h2 h3).
Qed.

(** The same for [buildHuffmanTree] on a table of two entries or more. *)
Lemma buildHuffmanTree_rel (R : list HuffmanNode → HuffmanNode → Prop) fr :
  (∀ x, R [x] x) →
  (∀ h A h1 B h2 h3 root,
     h ≡ₚ A :: h1 → Forall (λ y, freq A ≤ freq y) h1 →
     h1 ≡ₚ B :: h2 → Forall (λ y, freq B ≤ freq y) h2 →
     h3 ≡ₚ createNode None (freq A + freq B) (Some A) (Some B) :: h2 →
     R h3 root → R h root) →
  2 ≤ length fr →
  ∃ root h, buildHuffmanTree fr = Normal (Some root)
    ∧ h ≡ₚ leafOf <$> fr ∧ R h root.
Proof.
  intros Hbase Hstep Hlen. unfold buildHuffmanTree.
  destruct (insertLeaves_spec (entries fr) []) as (h & -> & Hperm & Hord).
  rewrite bind_Normal. rewrite app_nil_r in Hperm.
  specialize (Hord heapOrdered_nil).
  rewrite (entries_perm fr) in Hperm.
  pose proof (Permutation_length Hperm) as Hlenh. rewrite length_fmap in Hlenh.
  unfold size. rewrite decide_False by lia.
  destruct (mergeLoop_rel R Hbase Hstep (length h) h) as (root & -> & HR);
    [lia | intros ->; cbn in Hlenh; lia | done |].
  rewrite bind_Normal. by exists root, h.
Qed.

Lemma properTree_strictTree n : properTree n → strictTree n.
Proof.
  induction n as [c f l r IHl IHr] using HuffmanNode_ind.
  destruct c as [c|], l as [l|], r as [r|]; cbn in *; tauto.
Qed.

(** X9: [buildHuffmanTree] never throws, and it returns [null] exactly on the
    empty table. *)
Theorem buildHuffmanTree_null_iff_empty fr :
  ∃ res, buildHuffmanTree fr = Normal res ∧ (res = None ↔ fr = []).
Proof.
  destruct fr as [|e1 [|e2 fr]].
  - exists None. done.
  - destruct e1 as [c f].
    assert (entries [(c, f)] = [(c, f)]) as Hent.
    { apply Permutation_singleton_r, entries_perm. }
    eexists. unfold buildHuffmanTree. rewrite Hent. split; [reflexivity|]. done.
  - destruct (buildHuffmanTree_rel (λ _ _, True) (e1 :: e2 :: fr))
      as (root & h & -> & _); [done | done | cbn; lia |].
    eexists. split; [done|]. done.
Qed.

(** The run of [buildHuffmanTree] on a table with a single entry. *)
Lemma buildHuffmanTree_one (c : jsstring) (f : nat) :
  buildHuffmanTree [(c, f)] = Normal (Some (wrapperTree c f)).
Proof.
  assert (entries [(c, f)] = [(c, f)]) as Hent.
  { apply Permutation_singleton_r, entries_perm. }
  unfold buildHuffmanTree. rewrite Hent. reflexivity.
Qed.

(** X10: On a table with a single entry the tree is the wrapper: an internal
    node of the weight of the entry, the leaf of the entry as its left
    child, and no right child. *)
Theorem buildHuffmanTree_single_entry (c : jsstring) (f : nat) :
  buildHuffmanTree [(c, f)] = Normal (Some (wrapperTree c f)).
Proof. apply buildHuffmanTree_one. Qed.

(** X11: On a table of two entries or more the tree is a strict binary tree:
    the root is an internal node, every internal node has two children and
    the sum of their weights as its weight, and the leaves are the entries
    of the table, each once, with its count as weight. *)
Theorem buildHuffmanTree_strict fr :
  2 ≤ length fr →
  ∃ root, buildHuffmanTree fr = Normal (Some root)
    ∧ char root = None
    ∧ strictTree root
    ∧ leafList root ≡ₚ fr
    ∧ freq root = sumCounts fr.
Proof.
  intros Hlen.
  destruct (buildHuffmanTree_rel
    (λ h root, (Forall strictTree h → strictTree root)
               ∧ leafList root ≡ₚ h ≫= leafList
               ∧ freq root = sum_list_with freq h
               ∧ (h = [root] ∨ char root = None)) fr)
    as (root & h & Hrun & Hperm & Hstrict & Hleaves & Hfreq & Hchar); [| |done|].
  - intros x. split_and!; [by rewrite Forall_singleton
                          | by rewrite bind_singleton | cbn; lia | by left].
  - intros h A h1 B h2 h3 root HA _ HB _ H3 (Hstrict & Hleaves & Hfreq & Hchar).
    split_and!.
    + intros Hall. rewrite HA, HB in Hall.
      apply Forall_cons in Hall as [HsA Hall]. apply Forall_cons in Hall as [HsB Hall].
      apply Hstrict. rewrite H3. apply Forall_cons. split; [|done]. cbn. auto.
    + rewrite Hleaves, H3, HA, HB, !bind_cons. cbn. by rewrite <- app_assoc.
    + rewrite Hfreq, H3, HA, HB. cbn. lia.
    + right. destruct Hchar as [->|?]; [|done].
      apply Permutation_singleton_l in H3. by injection H3 as -> _.
  - exists root. split_and!; [done | | | |].
    + destruct Hchar as [->|?]; [|done].
      apply Permutation_length in Hperm. rewrite length_fmap in Hperm.
      cbn in Hperm. lia.
    + apply Hstrict. rewrite Hperm. apply Forall_fmap, Forall_forall.
      intros e _. cbn. done.
    + by rewrite Hleaves, Hperm, leaves_leafList.
    + by rewrite Hfreq, Hperm, sum_freq_leaves.
Qed.

Lemma buildHuffmanTree_strict_witness :
  ∃ root, buildHuffmanTree [([97%N], 0); ([98%N], 3); ([99%N], 3)] = Normal (Some root)
    ∧ char root = None
    ∧ strictTree root
    ∧ leafList root ≡ₚ [([97%N], 0); ([98%N], 3); ([99%N], 3)]
    ∧ freq root = sumCounts [([97%N], 0); ([98%N], 3); ([99%N], 3)].
Proof.
  apply (buildHuffmanTree_strict [([97%N], 0); ([98%N], 3); ([99%N], 3)]).
  cbn. lia.
Defined.

(** X12: In the tree built for a table of two entries or more, the left child
    of every internal node is no heavier than its right child: the loop
    extracts the lighter node first. *)
Theorem buildHuffmanTree_left_lighter fr :
  2 ≤ length fr →
  ∃ root, buildHuffmanTree fr = Normal (Some root) ∧ leftLighter root.
Proof.
  intros Hlen.
  destruct (buildHuffmanTree_rel
    (λ h root, Forall leftLighter h → leftLighter root) fr)
    as (root & h & Hrun & Hperm & Hroot); [| |done|].
  - intros x. by rewrite Forall_singleton.
  - intros h A h1 B h2 h3 root HA HminA HB _ H3 IH Hall.
    rewrite HA, HB in Hall.
    apply Forall_cons in Hall as [HlA Hall]. apply Forall_cons in Hall as [HlB Hall].
    rewrite HB in HminA. apply Forall_cons in HminA as [HAB _].
    apply IH. rewrite H3. apply Forall_cons. split; [|done]. cbn. auto.
  - exists root. split; [done|]. apply Hroot. rewrite Hperm.
    apply Forall_fmap, Forall_forall. intros e _. cbn. done.
Qed.

Lemma buildHuffmanTree_left_lighter_witness :
  ∃ root, buildHuffmanTree [([97%N], 5); ([98%N], 2); ([99%N], 1)] = Normal (Some root)
    ∧ leftLighter root.
Proof.
  apply (buildHuffmanTree_left_lighter [([97%N], 5); ([98%N], 2); ([99%N], 1)]).
  cbn. lia.
Defined.
End BuilderProperties.

(** ** generateCodes *)

Section CodeProperties.
Implicit Types (n m root : HuffmanNode) (p code : jsstring) (text : jsstring).

Lemma descend_leafPaths p n m c :
  descend p n = Some m → char m = Some c → (c, p) ∈ leafPaths n.
Proof.
  revert p. induction n as [c' f l r IHl IHr] using HuffmanNode_ind. intros p Hd Hm.
  destruct p as [|b p].
  - injection Hd as <-. cbn in *. rewrite Hm. apply list_elem_of_here.
  - cbn in *. destruct c' as [c'|]; [done|]. cbn. rewrite elem_of_app.
    repeat case_decide; try done; subst.
    + left. destruct l as [l|]; [|done]. cbn in *.
      apply list_elem_of_fmap. exists (c, p). split; [done | eauto].
    + right. destruct r as [r|]; [|done]. cbn in *.
      apply list_elem_of_fmap. exists (c, p). split; [done | eauto].
Qed.

(** X13: For a tree with an internal root and no symbol on two leaves, the code
    table [generateCodes] fills maps a symbol to a code exactly when the
    code is the path from the root to the leaf of the symbol. *)
Theorem generateCodes_paths root s p :
  char root = None → NoDup (leafList root).*1 →
  get (generateCodes (Some root) [] []) s = Some p
  ↔ ∃ leaf, descend p root = Some leaf ∧ char leaf = Some s.
Proof.
  intros Hroot Hnd. destruct (codes_of_tree root Hroot) as [Hcodes Hkeys]. split.
  - intros Hg. by apply leafPaths_descend, Hcodes.
  - intros (leaf & Hd & Hleaf).
    pose proof (descend_leafPaths _ _ _ _ Hd Hleaf) as Hin.
    destruct (Hkeys s) as [p' Hp'].
    { rewrite <- leafPaths_keys. apply list_elem_of_fmap. by exists (s, p). }
    rewrite Hp'. f_equal.
    apply Hcodes in Hp'. rewrite <- leafPaths_keys in Hnd.
    pose proof (elem_get (leafPaths root) s p Hnd Hin) as H1.
    pose proof (elem_get (leafPaths root) s p' Hnd Hp') as H2.
    congruence.
Qed.

Lemma generateCodes_paths_witness :
  get (generateCodes (Some tree_a_bc) [] []) [99%N] = Some [49; 49]%N
  ↔ ∃ leaf, descend [49; 49]%N tree_a_bc = Some leaf ∧ char leaf = Some [99%N].
Proof.
  apply (generateCodes_paths tree_a_bc [99%N] [49; 49]%N); [reflexivity|].
  cbn. repeat constructor; rewrite ?elem_of_cons, ?elem_of_nil; intros H;
    repeat destruct H as [H|H]; done.
Defined.

(** X14: In a run on a non-empty text, the code of every symbol of the
    frequency table is the path from the root of the built tree to a leaf
    that carries the symbol and, as its weight, the count of the symbol. *)
Theorem code_is_path_to_leaf text :
  text ≠ [] →
  ∃ root r,
    buildHuffmanTree (calculateFrequencies text) = Normal (Some root)
    ∧ huffmanEncode text = Normal r
    ∧ ∀ s f, get (frequencies r) s = Some f →
        ∃ p leaf, get (codes r) s = Some p
          ∧ descend p root = Some leaf
          ∧ char leaf = Some s ∧ freq leaf = f
          ∧ left leaf = None ∧ right leaf = None.
Proof.
  intros Hne.
  destruct (huffmanEncode_run text Hne)
    as (root & r & Hbuild & Hrun & Hfr & Hcodes & _ & _ & _ & _ & Hchar & Hleaves
        & _ & Hshape).
  destruct (calculateFrequencies_spec text) as (Hnd & _).
  exists root, r. split; [done|]. split; [done|].
  rewrite Hfr, Hcodes. intros s f Hf.
  destruct (codes_of_tree root Hchar) as [Hpaths Hkeys].
  destruct (Hkeys s) as [p Hp].
  { rewrite Hleaves. apply get_Some_elem in Hf.
    apply list_elem_of_fmap. by exists (s, f). }
  pose proof (Hpaths _ _ Hp) as Hin.
  apply leafPaths_descend in Hin as (leaf & Hd & Hleaf).
  exists p, leaf. split_and!; [done | done | done | | |].
  - assert (get (calculateFrequencies text) s = Some (freq leaf)) as Hg.
    { apply elem_get; [done|]. rewrite <- Hleaves. by eapply descend_leafList. }
    congruence.
  - destruct Hshape as [(c & f' & _ & ->)|[Hproper _]].
    + destruct p as [|b [|b' p]]; cbn in Hd; repeat case_decide; simplify_eq; done.
    + pose proof (descend_proper _ _ _ Hproper Hd) as Hpl.
      destruct leaf as [lc lf ll lr]. cbn in Hleaf. subst lc. cbn in Hpl. tauto.
  - destruct Hshape as [(c & f' & _ & ->)|[Hproper _]].
    + destruct p as [|b [|b' p]]; cbn in Hd; repeat case_decide; simplify_eq; done.
    + pose proof (descend_proper _ _ _ Hproper Hd) as Hpl.
      destruct leaf as [lc lf ll lr]. cbn in Hleaf. subst lc. cbn in Hpl. tauto.
Qed.

Lemma code_is_path_to_leaf_witness :
  ∃ root r,
    buildHuffmanTree (calculateFrequencies text_abracadabra) = Normal (Some root)
    ∧ huffmanEncode text_abracadabra = Normal r
    ∧ ∀ s f, get (frequencies r) s = Some f →
        ∃ p leaf, get (codes r) s = Some p
          ∧ descend p root = Some leaf
          ∧ char leaf = Some s ∧ freq leaf = f
          ∧ left leaf = None ∧ right leaf = None.
Proof. apply (code_is_path_to_leaf text_abracadabra). discriminate. Defined.

(** X15: The code table of a run has a code for exactly the symbols of the
    text (the code points the frequency count walks). *)
Theorem codes_cover_symbols text :
  ∃ r, huffmanEncode text = Normal r
    ∧ ∀ k, is_Some (get (codes r) k) ↔ k ∈ codePoints text.
Proof.
  destruct (decide (text = [])) as [->|Hne].
  { eexists. split; [reflexivity|]. intros k. cbn.
    split; [by intros [? ?] | intros H; by apply elem_of_nil in H]. }
  destruct (huffmanEncode_run text Hne)
    as (root & r & _ & Hrun & _ & Hcodes & _ & _ & _ & _ & Hchar & Hleaves & _).
  destruct (calculateFrequencies_spec text) as (_ & _ & _ & Hkeys).
  destruct (codes_of_tree root Hchar) as [Hpaths Hcover].
  exists r. split; [done|]. rewrite Hcodes. intros k. rewrite <- Hkeys. split.
  - intros [p Hp]. apply Hpaths in Hp. unfold keys. rewrite <- Hleaves, <- leafPaths_keys.
    apply list_elem_of_fmap. by exists (k, p).
  - intros Hk. apply Hcover. by rewrite Hleaves.
Qed.

Lemma encodeText_bits text (codes : list (jsstring * jsstring)) :
  (∀ k v, get codes k = Some v → Forall isBit v) →
  Forall isBit (encodeText text codes).
Proof.
  intros Hbits. unfold encodeText, join_empty, split_units.
  apply Forall_concat, Forall_forall. intros v Hv.
  apply list_elem_of_fmap in Hv as (o & -> & Ho).
  apply list_elem_of_fmap in Ho as (u & -> & _).
  destruct (get codes u) as [v|] eqn:Hg; cbn; [by eapply Hbits | done].
Qed.

(** X16: Every code of a run is a non-empty string of the characters ['0'] and
    ['1'], and so the encoded string consists of ['0'] and ['1'] only. *)
Theorem codes_are_bit_strings text :
  ∃ r, huffmanEncode text = Normal r
    ∧ (∀ s c, get (codes r) s = Some c → c ≠ [] ∧ Forall isBit c)
    ∧ Forall isBit (encoded r).
Proof.
  destruct (decide (text = [])) as [->|Hne].
  { eexists. split; [reflexivity|]. cbn. split; [by intros s c|done]. }
  destruct (huffmanEncode_run text Hne)
    as (root & r & _ & Hrun & _ & Hcodes & Henc & _ & _ & _ & Hchar & _).
  destruct (codes_of_tree root Hchar) as [Hpaths _].
  assert (∀ s c, get (codes r) s = Some c → c ≠ [] ∧ Forall isBit c) as Hbits.
  { rewrite Hcodes. intros s c Hc. apply Hpaths in Hc. split.
    - by eapply leafPaths_nonempty.
    - by eapply leafPaths_bits. }
  exists r. split; [done|]. split; [done|].
  rewrite Henc. apply encodeText_bits. intros k v Hv. by apply (Hbits k v).
Qed.

Lemma strictTree_has_leaf n : strictTree n → 1 ≤ length (leafList n).
Proof.
  induction n as [c f l r IHl IHr] using HuffmanNode_ind.
  destruct c as [c|], l as [l|], r as [r|]; cbn in *; try tauto; try lia.
  intros (_ & Hl & _). rewrite length_app. specialize (IHl Hl). lia.
Qed.

Lemma strictTree_inner n :
  strictTree n → char n = None →
  ∃ l r, left n = Some l ∧ right n = Some r
    ∧ freq n = freq l + freq r ∧ strictTree l ∧ strictTree r.
Proof.
  destruct n as [c f [l|] [r|]]; cbn; intros H ->; try done.
  exists l, r. tauto.
Qed.

Lemma leafList_inner n l r :
  char n = None → left n = Some l → right n = Some r →
  leafList n = leafList l ++ leafList r.
Proof. destruct n as [c f l' r']. cbn. by intros -> -> ->. Qed.

(** A node at depth [d] of a strict tree leaves room for at most
    [leaves - d] leaves below it. *)
Lemma descend_depth_bound p n m :
  strictTree n → descend p n = Some m →
  strictTree m ∧ length p + length (leafList m) ≤ length (leafList n).
Proof.
  revert n. induction p as [|b p IH]; intros n Hn.
  - intros [= <-]. split; [done | cbn; lia].
  - intros (Hc & x & Hd & Hx)%descend_cons_inv.
    destruct (strictTree_inner n Hn Hc) as (l & r & Hl & Hr & _ & Hsl & Hsr).
    rewrite (leafList_inner n l r Hc Hl Hr), length_app.
    pose proof (strictTree_has_leaf l Hsl). pose proof (strictTree_has_leaf r Hsr).
    destruct Hx as [[_ Hx]|[_ Hx]]; simplify_eq.
    + destruct (IH _ Hsl Hd). split; [done | cbn; lia].
    + destruct (IH _ Hsr Hd). split; [done | cbn; lia].
Qed.

(** The lengths of the codes of a run. *)
Lemma codes_length_bounded text :
  ∃ r, huffmanEncode text = Normal r
    ∧ ∀ s c, get (codes r) s = Some c →
        1 ≤ length c ∧ length c ≤ Nat.max 1 (length (frequencies r) - 1).
Proof.
  destruct (decide (text = [])) as [->|Hne].
  { eexists. split; [reflexivity|]. by intros s c. }
  destruct (huffmanEncode_run text Hne)
    as (root & r & _ & Hrun & Hfr & Hcodes & _ & _ & _ & _ & Hchar & Hleaves
        & _ & Hshape).
  destruct (codes_of_tree root Hchar) as [Hpaths _].
  exists r. split; [done|]. rewrite Hfr, Hcodes. intros s c Hc.
  apply Hpaths in Hc.
  pose proof (leafPaths_nonempty _ _ _ Hchar Hc) as Hne'.
  split; [destruct c; [done | cbn; lia]|].
  destruct Hshape as [(c0 & f0 & Hsingle & ->)|[Hproper _]].
  - cbn in Hc. apply list_elem_of_singleton in Hc as [= -> ->]. cbn. lia.
  - apply leafPaths_descend in Hc as (leaf & Hd & Hleaf).
    destruct (descend_depth_bound _ _ _ (properTree_strictTree _ Hproper) Hd)
      as [Hsl Hlen].
    pose proof (strictTree_has_leaf _ Hsl).
    rewrite <- (Permutation_length Hleaves). lia.
Qed.

(** X17: No code of a run is longer than the number of distinct symbols less
    one (one bit when the text has a single distinct symbol). *)
Theorem code_length_bound text :
  ∃ r, huffmanEncode text = Normal r
    ∧ ∀ s c, get (codes r) s = Some c →
        1 ≤ length c ∧ length c ≤ Nat.max 1 (length (frequencies r) - 1).
Proof. apply codes_length_bounded. Qed.
End CodeProperties.

(** ** encodeText *)

Section EncodeProperties.
Implicit Types (text : jsstring) (codes : list (jsstring * jsstring)).

(** Encoding goes code unit by code unit: the encoding of two texts put
    together is the two encodings put together. *)
Lemma encodeText_app text1 text2 codes :
  encodeText (text1 ++ text2) codes
  = encodeText text1 codes ++ encodeText text2 codes.
Proof.
  unfold encodeText, join_empty, split_units.
  by rewrite !map_app, concat_app.
Qed.

(** X18: A code unit that is not a key of the table is skipped without an
    error: the encoding is that of the text with these units left out, and
    it is empty when no unit of the text is a key. *)
Theorem encodeText_skips_missing_keys text codes :
  encodeText text codes
  = encodeText (filter (λ c, is_Some (get codes [c])) text) codes
  ∧ ((∀ c, c ∈ text → get codes [c] = None) → encodeText text codes = []).
Proof.
  split.
  - induction text as [|c text IH]; [done|].
    rewrite filter_cons.
    change (c :: text) with ([c] ++ text). rewrite encodeText_app, IH.
    destruct (decide (is_Some (get codes [c]))) as [Hs|Hn].
    + change (c :: filter _ text) with ([c] ++ filter (λ c, is_Some (get codes [c])) text).
      by rewrite encodeText_app.
    + assert (get codes [c] = None) as Hnone.
      { destruct (get codes [c]); [|done]. exfalso. apply Hn. by eexists. }
      unfold encodeText at 1. cbn. by rewrite Hnone.
  - induction text as [|c text IH]; intros Hall; [done|].
    change (c :: text) with ([c] ++ text). rewrite encodeText_app, IH.
    + unfold encodeText. cbn. rewrite Hall; [done | apply list_elem_of_here].
    + intros c' Hc'. apply Hall. by apply list_elem_of_further.
Qed.

Lemma encodeText_length text codes :
  length (encodeText text codes)
  = sum_list_with (λ u, length (default [] (get codes u))) (split_units text).
Proof.
  unfold encodeText, join_empty, split_units.
  induction text as [|c text IH]; [done|].
  cbn. rewrite length_app, IH. done.
Qed.

Lemma sum_split_occurrences (g : jsstring → nat) (k : jsstring) (l : list jsstring) :
  sum_list_with g l
  = occurrences k l * g k + sum_list_with g (filter (λ u, u ≠ k) l).
Proof.
  induction l as [|u l IH]; [done|].
  rewrite occurrences_cons, filter_cons. cbn [sum_list_with]. rewrite IH.
  destruct (decide (u = k)) as [->|Hne].
  - rewrite decide_False by (intros H; by apply H). lia.
  - rewrite decide_True by done. cbn. lia.
Qed.

Lemma occurrences_filter_ne (k k' : jsstring) (l : list jsstring) :
  k' ≠ k → occurrences k' (filter (λ u, u ≠ k) l) = occurrences k' l.
Proof.
  intros Hne. unfold occurrences. rewrite list_filter_filter. f_equal.
  apply list_filter_iff. intros u. split; [tauto|]. intros ->. done.
Qed.

(** Summing over a list is summing over a table of its distinct elements
    with their numbers of occurrences. *)
Lemma sum_by_occurrences (g : jsstring → nat) (fr : list (jsstring * nat)) :
  ∀ l : list jsstring,
    NoDup (keys fr) →
    (∀ e, e ∈ fr → e.2 = occurrences e.1 l) →
    (∀ u, u ∈ l → u ∈ keys fr) →
    sum_list_with g l = sum_list_with (λ e, e.2 * g e.1) fr.
Proof.
  unfold keys. induction fr as [|[k f] fr IH]; intros l Hnd Hocc Hcover.
  - destruct l as [|u l]; [done|].
    specialize (Hcover u (list_elem_of_here _ _)). by apply elem_of_nil in Hcover.
  - cbn in Hnd. apply NoDup_cons in Hnd as [Hk Hnd].
    rewrite (sum_split_occurrences g k l). cbn [sum_list_with fst snd].
    pose proof (Hocc (k, f) (list_elem_of_here _ _)) as Hf. cbn [fst snd] in Hf.
    rewrite <- Hf. f_equal.
    apply IH; [done | |].
    + intros [k' f'] He. cbn.
      rewrite occurrences_filter_ne.
      * apply (Hocc (k', f')). by apply list_elem_of_further.
      * intros ->. apply Hk. apply list_elem_of_fmap. by exists (k, f').
    + intros u Hu. apply list_elem_of_filter in Hu as [Hne Hu].
      specialize (Hcover u Hu). cbn in Hcover.
      apply elem_of_cons in Hcover as [->|?]; done.
Qed.

(** X19: For a text without surrogate pairs the compressed size is the sum,
    over the symbols of the frequency table, of count times code length. *)
Theorem compressedSize_is_weighted_code_length text :
  noSurrogatePair text →
  ∃ r, huffmanEncode text = Normal r
    ∧ compressedSize r = tableCost (frequencies r) (codes r).
Proof.
  intros Hpair. destruct (decide (text = [])) as [->|Hne].
  { eexists. split; [reflexivity|]. done. }
  destruct (huffmanEncode_run text Hne)
    as (root & r & _ & Hrun & Hfr & _ & Henc & _ & _ & Hsize & _).
  destruct (calculateFrequencies_spec text) as (Hnd & _ & _ & Hkeys).
  exists r. split; [done|].
  rewrite Hsize, Henc, encodeText_length, Hfr. unfold tableCost.
  rewrite <- (codePoints_units text Hpair).
  apply sum_by_occurrences; [done | |].
  - intros [k f] He. cbn. apply (elem_get _ _ _ Hnd) in He.
    rewrite calculateFrequencies_get in He.
    case_decide; congruence.
  - intros u Hu. by apply Hkeys.
Qed.

Lemma compressedSize_is_weighted_code_length_witness :
  ∃ r, huffmanEncode text_abracadabra = Normal r
    ∧ compressedSize r = tableCost (frequencies r) (codes r).
Proof.
  apply (compressedSize_is_weighted_code_length text_abracadabra).
  cbn. repeat split.
Defined.
End EncodeProperties.

(** ** decodeText *)

Section DecodeProperties.
Implicit Types (n m root : HuffmanNode) (p : jsstring).

(** X20: For any tree with an internal root, decoding the paths of a sequence
    of its leaves, one after the other, gives the symbols of the leaves in
    that order. *)
Theorem decodeText_inverts_paths root (syms : list (jsstring * jsstring)) :
  char root = None →
  Forall (λ cp, cp ∈ leafPaths root) syms →
  decodeText (concat (syms.*2)) (Some root) = Normal (concat (syms.*1)).
Proof. apply decodeText_symbols. Qed.

Lemma decodeText_inverts_paths_witness :
  decodeText
    (concat ([([99%N], [49; 49]%N); ([97%N], [48%N]); ([98%N], [49; 48]%N)].*2))
    (Some tree_a_bc)
  = Normal (concat ([([99%N], [49; 49]%N); ([97%N], [48%N]); ([98%N], [49; 48]%N)].*1)).
Proof.
  apply (decodeText_inverts_paths tree_a_bc
           [([99%N], [49; 49]%N); ([97%N], [48%N]); ([98%N], [49; 48]%N)]);
    [reflexivity|].
  cbn. repeat constructor; rewrite !elem_of_cons; auto.
Defined.

Lemma descend_bits p n m : descend p n = Some m → Forall isBit p.
Proof.
  revert n. induction p as [|b p IH]; intros n; [done|].
  intros (_ & x & Hd & Hx)%descend_cons_inv. apply Forall_cons. split.
  - destruct Hx as [[-> _]|[-> _]]; [by left | by right].
  - by eapply IH.
Qed.

(** The loop follows a path of the tree without emitting anything. *)
Lemma decodeLoop_descend root p n m rest out :
  descend p n = Some m →
  decodeLoop root (split_units p ++ rest) out (Some n)
  = decodeLoop root rest out (Some m).
Proof.
  revert n. induction p as [|b p IH]; intros n; [by intros [= ->]|].
  intros (Hc & x & Hd & Hx)%descend_cons_inv.
  cbn [split_units map app decodeLoop]. rewrite Hc.
  destruct Hx as [[-> Hx]|[-> Hx]].
  - rewrite decide_True by done. rewrite Hx. by apply IH.
  - rewrite decide_False by done. rewrite Hx. by apply IH.
Qed.

Lemma decodeLoop_app root bits1 bits2 out cur :
  decodeLoop root (bits1 ++ bits2) out cur
  = decodeLoop root bits1 out cur ≫= λ st, decodeLoop root bits2 st.1 st.2.
Proof.
  revert out cur. induction bits1 as [|bit bits1 IH]; intros out cur; [done|].
  cbn. destruct cur as [cur|]; [|done]. destruct (char cur); apply IH.
Qed.

(** X21: Bits after the last complete code that stop at an internal node are
    dropped without an error: the decoder returns the symbols of the
    complete codes. *)
Theorem decodeText_ignores_incomplete_tail root
    (syms : list (jsstring * jsstring)) (tail : jsstring) m :
  char root = None →
  Forall (λ cp, cp ∈ leafPaths root) syms →
  descend tail root = Some m → char m = None →
  decodeText (concat (syms.*2) ++ tail) (Some root) = Normal (concat (syms.*1)).
Proof.
  intros Hroot Hsyms Htail Hm.
  destruct tail as [|b tail].
  { rewrite app_nil_r. by apply decodeText_symbols. }
  unfold decodeText. rewrite decide_False by (by destruct (concat syms.*2)).
  rewrite codePoints_units.
  2: { apply noHighSurrogate_noSurrogatePair, bits_noHighSurrogate, Forall_app.
       split.
       - apply Forall_concat, Forall_fmap. eapply Forall_impl; [done|].
         intros [c p] Hcp. cbn. by eapply leafPaths_bits.
       - by eapply descend_bits. }
  rewrite split_units_app.
  destruct (decodeLoop_symbols root syms [] root Hroot Hsyms)
    as (out' & cur' & Hrun & Hcur' & Htext); [by left|].
  rewrite decodeLoop_app, Hrun, bind_Normal. cbn [fst snd].
  assert (decodeLoop root (split_units (b :: tail)) out' (Some cur')
          = Normal (pendingText (out', Some cur'), Some m)) as ->.
  { assert (∀ out, decodeLoop root (split_units (b :: tail)) out (Some root)
                   = Normal (out, Some m)) as Hwalk.
    { intros out. rewrite <- (app_nil_r (split_units (b :: tail))).
      by rewrite (decodeLoop_descend root (b :: tail) root m [] out Htail). }
    destruct Hcur' as [->|[c0 Hc0]].
    - rewrite Hwalk. unfold pendingText. cbn [fst snd]. rewrite Hroot. cbn.
      by rewrite app_nil_r.
    - cbn [split_units map]. rewrite (decodeLoop_pending root cur' c0) by done.
      change ([b] :: map (λ c, [c]) tail) with (split_units (b :: tail)).
      rewrite Hwalk. unfold pendingText. cbn [fst snd]. rewrite Hc0. done. }
  rewrite bind_Normal. cbn beta iota. rewrite Hm, Htext.
  unfold pendingText. cbn. by rewrite Hroot.
Qed.

Lemma decodeText_ignores_incomplete_tail_witness :
  decodeText
    (concat ([([99%N], [49; 49]%N); ([97%N], [48%N])].*2) ++ [49%N])
    (Some tree_a_bc)
  = Normal (concat ([([99%N], [49; 49]%N); ([97%N], [48%N])].*1)).
Proof.
  apply (decodeText_ignores_incomplete_tail tree_a_bc
           [([99%N], [49; 49]%N); ([97%N], [48%N])] [49%N]
           (createNode None 2
              (Some (createNode (Some [98%N]) 1 None None))
              (Some (createNode (Some [99%N]) 1 None None))));
    [reflexivity | | reflexivity | reflexivity].
  cbn. repeat constructor; rewrite !elem_of_cons; auto.
Defined.

Lemma decodeLoop_strict root bits out cur :
  strictTree root → char root = None → strictTree cur →
  ∃ out' cur', decodeLoop root bits out (Some cur) = Normal (out', Some cur')
    ∧ strictTree cur'.
Proof.
  intros Hroot Hchar. revert out cur.
  induction bits as [|bit bits IH]; intros out cur Hcur.
  - by exists out, cur.
  - cbn [decodeLoop].
    assert (∀ n, strictTree n → char n = None →
      ∃ x, (if decide (bit = str_0) then left n else right n) = Some x
           ∧ strictTree x) as Hstep.
    { intros n Hn Hc.
      destruct (strictTree_inner n Hn Hc) as (l & r & -> & -> & _ & Hl & Hr).
      case_decide; eauto. }
    destruct (char cur) as [c|] eqn:Hc.
    + destruct (Hstep root Hroot Hchar) as (x & -> & Hx). by apply IH.
    + destruct (Hstep cur Hcur Hc) as (x & -> & Hx). by apply IH.
Qed.

(** X22: On a strict tree with an internal root the decoder never throws,
    whatever string it is given: every step has a child to go to. *)
Theorem decodeText_total_on_strict_tree root (encoded : jsstring) :
  strictTree root → char root = None →
  ∃ out, decodeText encoded (Some root) = Normal out.
Proof.
  intros Hroot Hchar. unfold decodeText. case_decide; [by eexists|].
  destruct (decodeLoop_strict root (codePoints encoded) [] root)
    as (out' & cur' & -> & _); [done..|].
  rewrite bind_Normal. cbn beta iota. destruct (char cur'); by eexists.
Qed.

Lemma decodeText_total_on_strict_tree_witness :
  ∃ out, decodeText [49; 50; 48; 0xD83D; 0xDE00; 49]%N (Some tree_a_bc) = Normal out.
Proof.
  apply (decodeText_total_on_strict_tree tree_a_bc); [|reflexivity].
  cbn. tauto.
Defined.

Lemma decodeLoop_null root bits out :
  bits ≠ [] → decodeLoop root bits out None = TypeError.
Proof. by destruct bits. Qed.

Lemma decodeLoop_asBits root (bits : list jsstring) :
  ∀ out cur,
    decodeLoop root ((λ bit, if decide (bit = str_0) then str_0 else str_1) <$> bits)
      out cur
    = decodeLoop root bits out cur.
Proof.
  induction bits as [|bit bits IH]; intros out cur; [done|].
  cbn [fmap list_fmap decodeLoop]. destruct cur as [cur|]; [|done].
  destruct (char cur) as [c|];
    (destruct (decide (bit = str_0)) as [->|Hne];
      [rewrite decide_True by done | rewrite decide_False by done]); apply IH.
Qed.

(** X23: The decoder tells ['0'] from everything else: a character other than
    ['0'] and ['1'] in the encoded string (a surrogate pair counts as one
    character) is not an error, it is read as ['1']. *)
Theorem decodeText_reads_other_characters_as_one (encoded : jsstring)
    (tree : option HuffmanNode) :
  decodeText encoded tree = decodeText (asBits encoded) tree.
Proof.
  destruct tree as [root|]; [|done]. unfold decodeText.
  assert (codePoints (asBits encoded)
          = (λ bit, if decide (bit = str_0) then str_0 else str_1)
              <$> codePoints encoded) as Hcp.
  { rewrite codePoints_units.
    - unfold asBits, split_units. rewrite <- list_fmap_compose.
      apply list_fmap_ext. intros i bit _. cbn. by case_decide.
    - apply noHighSurrogate_noSurrogatePair, bits_noHighSurrogate.
      unfold asBits. apply Forall_fmap, Forall_forall. intros bit _. cbn.
      case_decide; auto. }
  destruct (decide (encoded = [])) as [->|Hne]; [done|].
  rewrite decide_False.
  - by rewrite Hcp, decodeLoop_asBits.
  - unfold asBits. intros Hnil. apply fmap_nil_inv in Hnil.
    by apply codePoints_nil_inv in Hnil.
Qed.

(** X24: A root that is a bare leaf gets the code ["0"] from [generateCodes],
    but [decodeText] throws on every non-empty string for such a root: the
    first step leaves the leaf for an absent child. *)
Theorem bare_leaf_root_not_decodable (c : jsstring) (f : nat) (encoded : jsstring) :
  encoded ≠ [] →
  generateCodes (Some (leafOf (c, f))) [] [] = [(c, str_0)]
  ∧ decodeText encoded (Some (leafOf (c, f))) = TypeError.
Proof.
  intros Hne. split; [reflexivity|].
  unfold decodeText. rewrite decide_False by done.
  destruct (codePoints encoded) as [|bit bits] eqn:Hcp.
  { by apply codePoints_nil_inv in Hcp. }
  cbn [decodeLoop leafOf createNode char left right fst snd].
  assert ((if decide (bit = str_0) then None else None) = @None HuffmanNode) as ->
    by (by case_decide).
  destruct bits as [|bit' bits]; reflexivity.
Qed.

Lemma bare_leaf_root_not_decodable_witness :
  generateCodes (Some (leafOf ([97%N], 4))) [] [] = [([97%N], str_0)]
  ∧ decodeText [48; 48; 48; 48]%N (Some (leafOf ([97%N], 4))) = TypeError.
Proof.
  apply (bare_leaf_root_not_decodable [97%N] 4 [48; 48; 48; 48]%N). discriminate.
Defined.
End DecodeProperties.

(** ** huffmanEncode *)

Section EngineProperties.
Implicit Types (text : jsstring).

(** X25: The round trip holds for every text without surrogate pairs (in
    particular for every text of characters of the Basic Multilingual
    Plane): each code unit the encoder looks up has a code, and the decoded
    string is the text. *)
Theorem roundtrip_on_text_without_surrogate_pairs text :
  noSurrogatePair text →
  ∃ r, huffmanEncode text = Normal r
    ∧ (∀ u, u ∈ split_units text → is_Some (get (codes r) u))
    ∧ decoded r = text.
Proof.
  intros Hpair.
  destruct (lookups_without_surrogate_pairs text Hpair) as (r & Hrun & Hall).
  exists r. split; [done|]. split; [done|].
  destruct (decide (text = [])) as [->|Hne].
  { cbn in Hrun. by injection Hrun as <-. }
  destruct (roundtrip_without_surrogate_pairs text Hne Hpair) as (r' & Hrun' & Hdec).
  congruence.
Qed.

Lemma roundtrip_on_text_without_surrogate_pairs_witness :
  ∃ r, huffmanEncode text_abracadabra = Normal r
    ∧ (∀ u, u ∈ split_units text_abracadabra → is_Some (get (codes r) u))
    ∧ decoded r = text_abracadabra.
Proof.
  apply (roundtrip_on_text_without_surrogate_pairs text_abracadabra).
  cbn. repeat split.
Defined.

Lemma encodedSymbols_sublist text (codes : list (jsstring * jsstring)) :
  concat (encodedSymbols text codes).*1 `sublist_of` text.
Proof.
  unfold encodedSymbols, split_units.
  induction text as [|c text IH]; [done|]. cbn.
  destruct (get codes [c]) as [v|]; cbn.
  - by apply sublist_skip.
  - by apply sublist_cons.
Qed.

Lemma encodedSymbols_all_inv text (codes : list (jsstring * jsstring)) :
  concat (encodedSymbols text codes).*1 = text →
  ∀ u, u ∈ split_units text → is_Some (get codes u).
Proof.
  induction text as [|c text IH]; intros Heq u Hu.
  { by apply elem_of_nil in Hu. }
  pose proof (encodedSymbols_sublist text codes) as Hsub.
  unfold encodedSymbols, split_units in *. cbn in Heq, Hu.
  destruct (get codes [c]) as [v|] eqn:Hg; cbn in Heq.
  - injection Heq as Heq. apply elem_of_cons in Hu as [->|Hu]; [by eexists|].
    by apply IH.
  - apply sublist_length in Hsub. rewrite Heq in Hsub. cbn in Hsub. lia.
Qed.

(** X26: Whatever the text, the decoded string is the text with some code units
    left out (those without a code), and it is the text exactly when every
    code unit of the text, taken as a string, has a code. *)
Theorem roundtrip_iff_units_have_codes text :
  ∃ r, huffmanEncode text = Normal r
    ∧ decoded r `sublist_of` text
    ∧ (decoded r = text ↔ ∀ u, u ∈ split_units text → is_Some (get (codes r) u)).
Proof.
  destruct (decide (text = [])) as [->|Hne].
  { eexists. split; [reflexivity|]. cbn. split; [done|].
    split; [intros _ u Hu; by apply elem_of_nil in Hu | done]. }
  destruct (huffmanEncode_run text Hne)
    as (root & r & _ & Hrun & _ & _ & _ & Hdec & _).
  exists r. split; [done|]. rewrite Hdec. split.
  - apply encodedSymbols_sublist.
  - split; [apply encodedSymbols_all_inv | apply encodedSymbols_all].
Qed.

Lemma surrogates_disjoint (c : N) : isHighSurrogate c && isLowSurrogate c = false.
Proof.
  unfold isHighSurrogate, isLowSurrogate.
  destruct (c <=? 0xDBFF)%N eqn:H1, (0xDC00 <=? c)%N eqn:H2;
    rewrite ?andb_false_r, ?andb_false_l; try done.
  apply N.leb_le in H1, H2. lia.
Qed.

Lemma noSurrogatePair_replicate n (c : N) : noSurrogatePair (replicate n c).
Proof.
  induction n as [|n IH]; [done|]. cbn. split; [|done].
  destruct n; [done|]. cbn. apply surrogates_disjoint.
Qed.

Lemma countStep_hit (c : jsstring) k : countStep [(c, S k)] c = [(c, S (S k))].
Proof.
  unfold countStep. cbn. rewrite !decide_True by done. cbn.
  do 3 f_equal. lia.
Qed.

Lemma countFold_replicate m (c : jsstring) k :
  fold_left countStep (replicate m c) [(c, S k)] = [(c, S k + m)].
Proof.
  revert k. induction m as [|m IH]; intros k; cbn [replicate fold_left].
  - by rewrite Nat.add_0_r.
  - rewrite countStep_hit, IH. do 2 f_equal. lia.
Qed.

Lemma encodeText_replicate n (c : N) :
  encodeText (replicate n c) [([c], str_0)] = replicate n 48%N.
Proof.
  induction n as [|n IH]; [done|].
  change (replicate (S n) c) with ([c] ++ replicate n c).
  rewrite encodeText_app, IH. unfold encodeText. cbn.
  by rewrite decide_True.
Qed.

(** X27: A text that repeats one code unit is encoded with one bit per unit:
    the table has the one symbol with the code ["0"], the encoded string is
    as many ['0'] as the text is long, and the decoded string is the text. *)
Theorem single_symbol_text (c : N) (n : nat) :
  ∃ r, huffmanEncode (replicate (S n) c) = Normal r
    ∧ frequencies r = [([c], S n)]
    ∧ codes r = [([c], str_0)]
    ∧ encoded r = replicate (S n) 48%N
    ∧ decoded r = replicate (S n) c
    ∧ compressedSize r = S n.
Proof.
  assert (calculateFrequencies (replicate (S n) c) = [([c], S n)]) as Hfreq.
  { unfold calculateFrequencies.
    rewrite (codePoints_units _ (noSurrogatePair_replicate (S n) c)).
    cbn. change (map (λ c0 : N, [c0]) (replicate n c)) with ((λ c0 : N, [c0]) <$> replicate n c).
    rewrite fmap_replicate.
    change (countStep [] [c]) with [([c], 1)].
    by rewrite (countFold_replicate n [c] 0). }
  destruct (huffmanEncode_run (replicate (S n) c))
    as (root & r & Hbuild & Hrun & Hfr & Hcodes & Henc & _ & _ & Hsize & _); [done|].
  destruct (roundtrip_without_surrogate_pairs (replicate (S n) c))
    as (r' & Hrun' & Hdec); [done | apply noSurrogatePair_replicate |].
  assert (r' = r) as -> by congruence.
  rewrite Hfreq, buildHuffmanTree_one in Hbuild. injection Hbuild as <-.
  assert (codes r = [([c], str_0)]) as Hc by (by rewrite Hcodes).
  assert (encoded r = replicate (S n) 48%N) as He
    by (by rewrite Henc, Hc, encodeText_replicate).
  exists r. split_and!; try done; [congruence|].
  by rewrite Hsize, He, length_replicate.
Qed.

(** X28: For a text without surrogate pairs the compressed size is at least one
    bit and at most (distinct symbols less one, or one) bits per code
    unit. *)
Theorem compressedSize_bounds text :
  noSurrogatePair text →
  ∃ r, huffmanEncode text = Normal r
    ∧ length text ≤ compressedSize r
    ∧ compressedSize r ≤ length text * Nat.max 1 (length (frequencies r) - 1).
Proof.
  intros Hpair.
  destruct (codes_length_bounded text) as (r & Hrun & Hbound).
  destruct (lookups_without_surrogate_pairs text Hpair) as (r' & Hrun' & Hall).
  assert (r' = r) as -> by congruence.
  exists r. split; [done|].
  assert (compressedSize r = length (encodeText text (codes r))) as ->.
  { destruct (decide (text = [])) as [->|Hne].
    - cbn in Hrun. by injection Hrun as <-.
    - destruct (huffmanEncode_run text Hne)
        as (root & r2 & _ & Hrun2 & _ & _ & Henc & _ & _ & Hsize & _).
      assert (r2 = r) as -> by congruence. by rewrite Hsize, Henc. }
  rewrite encodeText_length. generalize (Nat.max 1 (length (frequencies r) - 1)) Hbound.
  intros B HB. revert Hall. unfold split_units. clear Hpair Hrun Hrun'.
  induction text as [|c text IH]; intros Hall; [cbn; lia|].
  cbn [map sum_list_with length].
  destruct (Hall [c]) as [v Hv]; [apply list_elem_of_here|].
  rewrite Hv. cbn [default from_option id]. destruct (HB _ _ Hv) as [H1 H2].
  assert (∀ u, u ∈ map (λ c0 : N, [c0]) text → is_Some (get (codes r) u)) as Hall'
    by (intros u Hu; apply Hall; by apply list_elem_of_further).
  specialize (IH Hall'). cbn. lia.
Qed.

Lemma compressedSize_bounds_witness :
  ∃ r, huffmanEncode text_abracadabra = Normal r
    ∧ length text_abracadabra ≤ compressedSize r
    ∧ compressedSize r
      ≤ length text_abracadabra * Nat.max 1 (length (frequencies r) - 1).
Proof. apply (compressedSize_bounds text_abracadabra). cbn. repeat split. Defined.
End EngineProperties.

(** ** Optimality of the code *)

Section AssignmentFacts.
Implicit Types (l : list (nat * nat)) (ds : list nat).

Lemma swap_gain a x d D : a ≤ x → d ≤ D → a * D + x * d ≤ a * d + x * D.
Proof. nia. Qed.

Lemma pow2_pos n : 1 ≤ 2 ^ n.
Proof. induction n; cbn; lia. Qed.

Lemma pow2_succ_sub D d : d ≤ D → 2 ^ (S D - d) = 2 * 2 ^ (D - d).
Proof. intros H. replace (S D - d) with (S (D - d)) by lia. cbn. lia. Qed.

Lemma kraftSum_half D ds :
  Forall (λ d, d ≤ D) ds → kraftSum (S D) ds = 2 * kraftSum D ds.
Proof.
  unfold kraftSum. induction 1 as [|d ds Hd Hds IH]; [done|].
  cbn [sum_list_with]. rewrite IH, pow2_succ_sub by done. lia.
Qed.

Lemma kraftSum_perm D ds1 ds2 : ds1 ≡ₚ ds2 → kraftSum D ds1 = kraftSum D ds2.
Proof. unfold kraftSum. by intros ->. Qed.

Lemma assignmentCost_perm l1 l2 : l1 ≡ₚ l2 → assignmentCost l1 = assignmentCost l2.
Proof. unfold assignmentCost. by intros ->. Qed.

Lemma find_deepest D l :
  Forall (λ wd, wd.2 ≤ S D) l →
  (∃ w l', l ≡ₚ (w, S D) :: l') ∨ Forall (λ wd, wd.2 ≤ D) l.
Proof.
  induction 1 as [|[w d] l Hd Hl IH]; [by right|]. cbn in Hd.
  destruct (decide (d = S D)) as [->|Hne]; [left; by exists w, l|].
  destruct IH as [(w' & l' & Hperm)|Hall].
  - left. exists w', ((w, d) :: l'). rewrite Hperm. apply Permutation_swap.
  - right. apply Forall_cons. split; [cbn; lia | done].
Qed.

(** With the two lightest weights [a] and [b] among the weights of an
    assignment that satisfies Kraft's inequality, there is an assignment
    for the weights with [a] and [b] merged that satisfies it too and
    costs at least [a + b] less. *)
Lemma merge_lightest_aux T :
  ∀ D a b da db l0,
    D + da + db + sum_list (l0.*2) ≤ T →
    da ≤ D → db ≤ D → Forall (λ wd, wd.2 ≤ D) l0 →
    2 ^ (D - da) + (2 ^ (D - db) + kraftSum D (l0.*2)) ≤ 2 ^ D →
    Forall (λ wd, a ≤ wd.1) l0 → Forall (λ wd, b ≤ wd.1) l0 →
    ∃ l2, l2.*1 ≡ₚ (a + b) :: l0.*1 ∧ kraft l2
      ∧ assignmentCost l2 + a + b ≤ a * da + b * db + assignmentCost l0.
Proof.
  induction T as [|T IH]; intros D a b da db l0 HT Hda Hdb Hl0 Hk Ha Hb.
  { assert (D = 0) as -> by lia. assert (da = 0) as -> by lia.
    assert (db = 0) as -> by lia. cbn in Hk. lia. }
  destruct D as [|D].
  { assert (da = 0) as -> by lia. assert (db = 0) as -> by lia. cbn in Hk. lia. }
  assert (2 ^ S D = 2 * 2 ^ D) as Hpow by (cbn; lia).
  (* the assignment after merging two items at depth [S D] *)
  assert (∀ rest, Forall (λ wd, wd.2 ≤ S D) rest →
            2 + kraftSum (S D) (rest.*2) ≤ 2 ^ S D →
            kraft ((a + b, D) :: rest)) as Hmerge.
  { intros rest Hrest Hsum. exists (S D). split.
    - apply Forall_cons. split; [cbn; lia | done].
    - cbn [fmap list_fmap snd]. unfold kraftSum in *. cbn [sum_list_with].
      replace (S D - D) with 1 by lia. cbn [Nat.pow]. lia. }
  destruct (decide (da = S D)) as [->|Hda'], (decide (db = S D)) as [->|Hdb'].
  - (* both at the deepest level *)
    exists ((a + b, D) :: l0). rewrite Nat.sub_diag in Hk. cbn [Nat.pow] in Hk.
    split_and!; [done | apply Hmerge; [done | lia] |].
    unfold assignmentCost. cbn [sum_list_with fst snd]. nia.
  - (* [a] at the deepest level, [b] above *)
    rewrite Nat.sub_diag in Hk. cbn [Nat.pow] in Hk.
    destruct (find_deepest D l0 Hl0) as [(x & l0' & Hperm)|Hall].
    + rewrite Hperm in Hl0, Hb. apply Forall_cons in Hl0 as [_ Hl0'].
      apply Forall_cons in Hb as [Hbx _]. cbn in Hbx.
      rewrite (kraftSum_perm _ _ _ (fmap_Permutation snd _ _ Hperm)) in Hk.
      rewrite (assignmentCost_perm _ _ Hperm).
      unfold kraftSum in Hk. cbn [fmap list_fmap snd sum_list_with] in Hk.
      rewrite Nat.sub_diag in Hk. cbn [Nat.pow] in Hk.
      exists ((a + b, D) :: (x, db) :: l0'). split_and!.
      * cbn. by rewrite Hperm.
      * apply Hmerge.
        -- apply Forall_cons. split; [cbn; lia | done].
        -- unfold kraftSum. cbn [fmap list_fmap snd sum_list_with]. lia.
      * unfold assignmentCost. cbn [sum_list_with fst snd].
        pose proof (swap_gain b x db (S D) Hbx Hdb). nia.
    + assert (db ≤ D) as Hdb2 by lia.
      pose proof (kraftSum_half D (l0.*2)) as Hhalf.
      rewrite Hhalf in Hk by (by apply Forall_fmap).
      rewrite (pow2_succ_sub D db Hdb2) in Hk.
      destruct (IH (S D) a b D db l0) as (l2 & Hw & Hkr & Hcost);
        [lia | lia | lia | done | | done | done |].
      { replace (S D - D) with 1 by lia. cbn [Nat.pow].
        rewrite Hhalf by (by apply Forall_fmap).
        rewrite (pow2_succ_sub D db Hdb2). lia. }
      exists l2. split_and!; [done | done | nia].
  - (* [b] at the deepest level, [a] above *)
    rewrite Nat.sub_diag in Hk. cbn [Nat.pow] in Hk.
    destruct (find_deepest D l0 Hl0) as [(x & l0' & Hperm)|Hall].
    + rewrite Hperm in Hl0, Ha. apply Forall_cons in Hl0 as [_ Hl0'].
      apply Forall_cons in Ha as [Hax _]. cbn in Hax.
      rewrite (kraftSum_perm _ _ _ (fmap_Permutation snd _ _ Hperm)) in Hk.
      rewrite (assignmentCost_perm _ _ Hperm).
      unfold kraftSum in Hk. cbn [fmap list_fmap snd sum_list_with] in Hk.
      rewrite Nat.sub_diag in Hk. cbn [Nat.pow] in Hk.
      exists ((a + b, D) :: (x, da) :: l0'). split_and!.
      * cbn. by rewrite Hperm.
      * apply Hmerge.
        -- apply Forall_cons. split; [cbn; lia | done].
        -- unfold kraftSum. cbn [fmap list_fmap snd sum_list_with]. lia.
      * unfold assignmentCost. cbn [sum_list_with fst snd].
        pose proof (swap_gain a x da (S D) Hax Hda). nia.
    + assert (da ≤ D) as Hda2 by lia.
      pose proof (kraftSum_half D (l0.*2)) as Hhalf.
      rewrite Hhalf in Hk by (by apply Forall_fmap).
      rewrite (pow2_succ_sub D da Hda2) in Hk.
      destruct (IH (S D) a b da D l0) as (l2 & Hw & Hkr & Hcost);
        [lia | lia | lia | done | | done | done |].
      { replace (S D - D) with 1 by lia. cbn [Nat.pow].
        rewrite Hhalf by (by apply Forall_fmap).
        rewrite (pow2_succ_sub D da Hda2). lia. }
      exists l2. split_and!; [done | done | nia].
  - (* both above the deepest level *)
    assert (da ≤ D) as Hda2 by lia. assert (db ≤ D) as Hdb2 by lia.
    rewrite (pow2_succ_sub D da Hda2), (pow2_succ_sub D db Hdb2) in Hk.
    destruct (find_deepest D l0 Hl0) as [(x & l0' & Hperm)|Hall].
    2: { (* nothing at depth [S D]: the bound [D] does *)
      rewrite (kraftSum_half D (l0.*2)) in Hk by (by apply Forall_fmap).
      apply (IH D a b da db l0); try done; lia. }
    pose proof Hl0 as Hl0x. rewrite Hperm in Hl0x.
    apply Forall_cons in Hl0x as [_ Hl0'].
    pose proof Ha as Hax. rewrite Hperm in Hax. apply Forall_cons in Hax as [Hax Ha'].
    pose proof Hb as Hbx. rewrite Hperm in Hbx. apply Forall_cons in Hbx as [Hbx Hb'].
    cbn in Hax, Hbx.
    rewrite (kraftSum_perm _ _ _ (fmap_Permutation snd _ _ Hperm)) in Hk.
    rewrite (assignmentCost_perm _ _ Hperm).
    unfold assignmentCost. cbn [sum_list_with fst snd]. fold (assignmentCost l0').
    unfold kraftSum in Hk. cbn [fmap list_fmap snd sum_list_with] in Hk.
    fold (kraftSum (S D) (l0'.*2)) in Hk.
    rewrite Nat.sub_diag in Hk. cbn [Nat.pow] in Hk.
    destruct (find_deepest D l0' Hl0') as [(y & l0'' & Hperm')|Hall'].
    + pose proof Hl0' as Hl0y. rewrite Hperm' in Hl0y.
      apply Forall_cons in Hl0y as [_ Hl0''].
      pose proof Hb' as Hby. rewrite Hperm' in Hby. apply Forall_cons in Hby as [Hby _].
      cbn in Hby.
      rewrite (kraftSum_perm _ _ _ (fmap_Permutation snd _ _ Hperm')) in Hk.
      rewrite (assignmentCost_perm _ _ Hperm').
      unfold kraftSum in Hk. cbn [fmap list_fmap snd sum_list_with] in Hk.
      rewrite Nat.sub_diag in Hk. cbn [Nat.pow] in Hk.
      exists ((a + b, D) :: (x, da) :: (y, db) :: l0''). split_and!.
      * cbn. by rewrite Hperm, Hperm'.
      * apply Hmerge.
        -- repeat (apply Forall_cons; split; [cbn; lia|]). done.
        -- unfold kraftSum. cbn [fmap list_fmap snd sum_list_with].
           rewrite (pow2_succ_sub D da Hda2), (pow2_succ_sub D db Hdb2). lia.
      * unfold assignmentCost. cbn [sum_list_with fst snd].
        pose proof (swap_gain a x da (S D) Hax Hda).
        pose proof (swap_gain b y db (S D) Hby Hdb). nia.
    + (* one item only at depth [S D]: it can go one level up *)
      rewrite (kraftSum_half D (l0'.*2)) in Hk by (by apply Forall_fmap).
      destruct (IH (S D) a b da db ((x, D) :: l0')) as (l2 & Hw & Hkr & Hcost).
      * assert (sum_list (l0.*2) = S D + sum_list (l0'.*2)) as Hs
          by (by rewrite Hperm).
        cbn [fmap list_fmap snd sum_list_with]. unfold id at 1. lia.
      * lia.
      * lia.
      * apply Forall_cons. split; [cbn; lia | done].
      * rewrite (pow2_succ_sub D da Hda2), (pow2_succ_sub D db Hdb2).
        unfold kraftSum. cbn [fmap list_fmap snd sum_list_with].
        fold (kraftSum (S D) (l0'.*2)).
        rewrite (kraftSum_half D (l0'.*2)) by (by apply Forall_fmap).
        replace (S D - D) with 1 by lia. cbn [Nat.pow]. lia.
      * by apply Forall_cons.
      * by apply Forall_cons.
      * exists l2. split_and!; [by rewrite Hw, Hperm | done |].
        unfold assignmentCost in *. cbn [sum_list_with fst snd] in *. nia.
Qed.
End AssignmentFacts.

Section HuffmanCostFacts.
Implicit Types (l : list (nat * nat)) (W : list nat).

Lemma weights_cons_inv l a W :
  l.*1 ≡ₚ a :: W → ∃ d l', l ≡ₚ (a, d) :: l' ∧ l'.*1 ≡ₚ W.
Proof.
  intros Hperm.
  assert (a ∈ l.*1) as Hin by (rewrite Hperm; left).
  apply list_elem_of_fmap in Hin as ([a' d] & -> & Hin).
  apply elem_of_Permutation in Hin as [l' Hl']. exists d, l'. split; [done|].
  rewrite Hl' in Hperm. cbn in Hperm. by apply Permutation_cons_inv in Hperm.
Qed.

Lemma kraft_perm l1 l2 : l1 ≡ₚ l2 → kraft l1 → kraft l2.
Proof.
  intros Hperm (D & Hall & Hsum). exists D. split; [by rewrite <- Hperm|].
  by rewrite <- (kraftSum_perm D _ _ (fmap_Permutation snd _ _ Hperm)).
Qed.

Lemma merge_lightest l a b W :
  l.*1 ≡ₚ a :: b :: W → a ≤ b → Forall (λ x, b ≤ x) W → kraft l →
  ∃ l2, l2.*1 ≡ₚ (a + b) :: W ∧ kraft l2
    ∧ assignmentCost l2 + a + b ≤ assignmentCost l.
Proof.
  intros Hperm Hab HW Hkr.
  destruct (weights_cons_inv _ _ _ Hperm) as (da & l1 & Hl & Hperm1).
  destruct (weights_cons_inv _ _ _ Hperm1) as (db & l0 & Hl1 & Hperm0).
  assert (l ≡ₚ (a, da) :: (b, db) :: l0) as Hl' by (by rewrite Hl, Hl1).
  destruct (kraft_perm _ _ Hl' Hkr) as (D & Hall & Hsum).
  apply Forall_cons in Hall as [Hda Hall]. apply Forall_cons in Hall as [Hdb Hall].
  cbn in Hda, Hdb. unfold kraftSum in Hsum.
  cbn [fmap list_fmap snd sum_list_with] in Hsum.
  assert (Forall (λ wd : nat * nat, b ≤ wd.1) l0) as Hb.
  { rewrite <- Hperm0 in HW. rewrite Forall_fmap in HW. exact HW. }
  assert (Forall (λ wd : nat * nat, a ≤ wd.1) l0) as Ha.
  { eapply Forall_impl; [exact Hb|]. cbn. lia. }
  destruct (merge_lightest_aux _ D a b da db l0 (Nat.le_refl _)
              Hda Hdb Hall Hsum Ha Hb) as (l2 & Hw & Hkr2 & Hcost).
  exists l2. split_and!; [by rewrite Hw, Hperm0 | done |].
  rewrite (assignmentCost_perm _ _ Hl'). unfold assignmentCost in *.
  cbn [sum_list_with fst snd]. lia.
Qed.

(** No assignment of depths that satisfies Kraft's inequality costs less
    than the merging of the two lightest weights. *)
Lemma huffmanCost_least W c :
  huffmanCost W c → ∀ l, l.*1 ≡ₚ W → kraft l → c ≤ assignmentCost l.
Proof.
  induction 1 as [w|W a b W' c HW Hab Hle _ IH]; intros l Hl Hkr; [lia|].
  rewrite HW in Hl.
  destruct (merge_lightest l a b W' Hl Hab Hle Hkr) as (l2 & Hw & Hkr2 & Hcost).
  specialize (IH l2 Hw Hkr2). lia.
Qed.

Lemma huffmanCost_perm W1 W2 c : W1 ≡ₚ W2 → huffmanCost W1 c → huffmanCost W2 c.
Proof.
  intros Hperm H. revert W2 Hperm.
  induction H as [w|W a b W' c HW Hab Hle H IH]; intros W2 Hperm.
  - apply Permutation_singleton_l in Hperm. subst W2. constructor.
  - apply (huffmanCost_merge W2 a b W' c); [by rewrite <- Hperm | done..].
Qed.
End HuffmanCostFacts.

Section KraftFacts.
Implicit Types (w v : jsstring) (ws : list jsstring).

Lemma tailsAfter_cons_hit b t ws :
  tailsAfter b ((b :: t) :: ws) = t :: tailsAfter b ws.
Proof. unfold tailsAfter. cbn. by rewrite decide_True. Qed.

Lemma tailsAfter_cons_miss b c t ws :
  c ≠ b → tailsAfter b ((c :: t) :: ws) = tailsAfter b ws.
Proof. intros ?. unfold tailsAfter. cbn. by rewrite decide_False. Qed.

Lemma elem_of_tailsAfter b t ws : t ∈ tailsAfter b ws ↔ (b :: t) ∈ ws.
Proof.
  unfold tailsAfter. rewrite list_elem_of_omap. split.
  - intros (w & Hin & Heq). destruct w as [|c t']; [done|].
    case_decide; naive_solver.
  - intros Hin. exists (b :: t). split; [done|]. by rewrite decide_True.
Qed.

Lemma prefixFreeWords_tailsAfter b ws :
  prefixFreeWords ws → prefixFreeWords (tailsAfter b ws).
Proof.
  induction ws as [|w ws IH]; [done|]. intros [Hhd Htl].
  destruct w as [|c t]; [by apply IH|].
  destruct (decide (c = b)) as [->|Hne].
  - rewrite tailsAfter_cons_hit. split; [|by apply IH].
    apply Forall_forall. intros v Hv. apply elem_of_tailsAfter in Hv.
    rewrite Forall_forall in Hhd. destruct (Hhd _ Hv) as [H1 H2].
    split; intros Hp; [apply H1 | apply H2]; by apply prefix_cons.
  - rewrite tailsAfter_cons_miss by done. by apply IH.
Qed.

Lemma kraftSum_split D ws :
  Forall (λ w, w ≠ [] ∧ Forall isBit w) ws →
  kraftSum (S D) (length <$> ws)
  = kraftSum D (length <$> tailsAfter 48%N ws)
    + kraftSum D (length <$> tailsAfter 49%N ws).
Proof.
  unfold kraftSum. induction 1 as [|[|c t] ws [Hne Hbits] _ IH]; [done..|].
  apply Forall_cons in Hbits as [[-> | ->] _].
  - rewrite tailsAfter_cons_hit, tailsAfter_cons_miss by done.
    cbn [fmap list_fmap sum_list_with length]. rewrite IH.
    replace (S D - S (length t)) with (D - length t) by lia. lia.
  - rewrite tailsAfter_cons_hit, tailsAfter_cons_miss by done.
    cbn [fmap list_fmap sum_list_with length]. rewrite IH.
    replace (S D - S (length t)) with (D - length t) by lia. lia.
Qed.

Lemma tailsAfter_bounds b D ws :
  Forall (λ w, length w ≤ S D ∧ Forall isBit w) ws →
  Forall (λ w, length w ≤ D ∧ Forall isBit w) (tailsAfter b ws).
Proof.
  rewrite !Forall_forall. intros H t Ht. apply elem_of_tailsAfter in Ht.
  destruct (H _ Ht) as [Hlen Hbits]. cbn in Hlen.
  apply Forall_cons in Hbits as [_ Hbits]. split; [lia | done].
Qed.

(** Kraft's inequality for words of bits none of which is a prefix of
    another one. *)
Lemma prefixFreeWords_kraft D :
  ∀ ws, prefixFreeWords ws →
    Forall (λ w, length w ≤ D ∧ Forall isBit w) ws →
    kraftSum D (length <$> ws) ≤ 2 ^ D.
Proof.
  induction D as [|D IH]; intros ws Hpf Hall.
  - destruct ws as [|w [|v ws]];
      [unfold kraftSum; cbn; lia
      | unfold kraftSum; cbn [fmap list_fmap sum_list_with];
        rewrite Nat.sub_0_l; cbn; lia |].
    apply Forall_cons in Hall as [[Hw _] Hall].
    apply Forall_cons in Hall as [[Hv _] _].
    destruct w; [|cbn in Hw; lia]. destruct Hpf as [Hhd _].
    apply Forall_cons in Hhd as [[Hp _] _]. destruct Hp. apply prefix_nil.
  - destruct (decide ([] ∈ ws)) as [Hnil|Hnil].
    + (* the empty word is a prefix of every word: it is alone *)
      assert (ws = [[]]) as ->;
        [|unfold kraftSum; cbn [fmap list_fmap sum_list_with length];
          rewrite Nat.sub_0_r; lia].
      clear IH Hall. induction ws as [|w ws IHws]; [by apply elem_of_nil in Hnil|].
      destruct Hpf as [Hhd Htl].
      destruct w as [|c t].
      * destruct ws as [|v ws]; [done|].
        apply Forall_cons in Hhd as [[Hp _] _]. destruct Hp. apply prefix_nil.
      * apply elem_of_cons in Hnil as [?|Hnil]; [done|].
        rewrite Forall_forall in Hhd. destruct (Hhd _ Hnil) as [_ Hp].
        destruct Hp. apply prefix_nil.
    + rewrite kraftSum_split.
      * pose proof (IH (tailsAfter 48%N ws) (prefixFreeWords_tailsAfter _ _ Hpf)
                      (tailsAfter_bounds _ _ _ Hall)).
        pose proof (IH (tailsAfter 49%N ws) (prefixFreeWords_tailsAfter _ _ Hpf)
                      (tailsAfter_bounds _ _ _ Hall)).
        cbn [Nat.pow]. lia.
      * rewrite Forall_forall in Hall |- *. intros w Hw.
        split; [by intros -> | by apply Hall].
Qed.
End KraftFacts.

Section TreeCost.
Import MinHeap.
Implicit Types (n root : HuffmanNode) (fr : list (jsstring * nat))
  (codes : list (jsstring * jsstring)).

Lemma sum_list_with_fmap_compose {A B} (f : B → nat) (g : A → B) (l : list A) :
  sum_list_with f (g <$> l) = sum_list_with (λ x, f (g x)) l.
Proof. induction l as [|x l IH]; [done|]. cbn. by rewrite IH. Qed.

Lemma sum_list_with_ext_in {A} (f g : A → nat) (l : list A) :
  (∀ x, x ∈ l → f x = g x) → sum_list_with f l = sum_list_with g l.
Proof.
  induction l as [|x l IH]; [done|]. intros H. cbn.
  rewrite (H x) by apply list_elem_of_here. rewrite IH; [done|].
  intros y Hy. apply H. by apply list_elem_of_further.
Qed.

Lemma leafRows_leafList n : leafList n = (λ row, (row.1, row.2.1)) <$> leafRows n.
Proof.
  induction n as [c f l r IHl IHr] using HuffmanNode_ind.
  cbn. destruct c as [c|]; [done|]. cbn. rewrite fmap_app. f_equal.
  - destruct l as [l|]; [|done]. cbn in *. rewrite IHl, <- list_fmap_compose. done.
  - destruct r as [r|]; [|done]. cbn in *. rewrite IHr, <- list_fmap_compose. done.
Qed.

Lemma leafRows_leafPaths n : leafPaths n = (λ row, (row.1, row.2.2)) <$> leafRows n.
Proof.
  induction n as [c f l r IHl IHr] using HuffmanNode_ind.
  cbn. destruct c as [c|]; [done|]. cbn. rewrite fmap_app. f_equal.
  - destruct l as [l|]; [|done]. cbn in *. rewrite IHl, <- !list_fmap_compose. done.
  - destruct r as [r|]; [|done]. cbn in *. rewrite IHr, <- !list_fmap_compose. done.
Qed.

Lemma weightedDepths_node f A B :
  weightedDepths (createNode None f (Some A) (Some B))
  = ((λ wd, (wd.1, S wd.2)) <$> weightedDepths A)
    ++ ((λ wd, (wd.1, S wd.2)) <$> weightedDepths B).
Proof.
  unfold weightedDepths. cbn. rewrite fmap_app, <- !list_fmap_compose. done.
Qed.

Lemma assignmentCost_deeper (l : list (nat * nat)) :
  assignmentCost ((λ wd, (wd.1, S wd.2)) <$> l) = assignmentCost l + sum_list (l.*1).
Proof.
  unfold assignmentCost. induction l as [|[w d] l IH]; [done|].
  cbn [fmap list_fmap sum_list_with fst snd] in *. rewrite IH. unfold id. lia.
Qed.

Lemma assignmentCost_app (l1 l2 : list (nat * nat)) :
  assignmentCost (l1 ++ l2) = assignmentCost l1 + assignmentCost l2.
Proof. unfold assignmentCost. apply sum_list_with_app. Qed.

(** In a strict tree the weight of a node is the sum of the weights of
    the leaves under it. *)
Lemma strictTree_weight n : strictTree n → sum_list ((weightedDepths n).*1) = freq n.
Proof.
  induction n as [c f l r IHl IHr] using HuffmanNode_ind.
  destruct c as [c|]; [cbn; lia|].
  destruct l as [l|], r as [r|]; cbn [strictTree char left right]; try done.
  intros (Hf & Hl & Hr). cbn [optP] in IHl, IHr. cbn [freq] in Hf |- *.
  change (mkNode None f (Some l) (Some r)) with (createNode None f (Some l) (Some r)).
  rewrite weightedDepths_node, fmap_app, <- !list_fmap_compose.
  rewrite sum_list_with_app.
  change (sum_list_with id (fst ∘ (λ wd : nat * nat, (wd.1, S wd.2)) <$> weightedDepths l))
    with (sum_list ((weightedDepths l).*1)).
  change (sum_list_with id (fst ∘ (λ wd : nat * nat, (wd.1, S wd.2)) <$> weightedDepths r))
    with (sum_list ((weightedDepths r).*1)).
  rewrite IHl, IHr by done. lia.
Qed.

Lemma pathCost_node A B :
  strictTree A → strictTree B →
  pathCost (createNode None (freq A + freq B) (Some A) (Some B))
  = pathCost A + pathCost B + freq A + freq B.
Proof.
  intros HA HB. unfold pathCost.
  rewrite weightedDepths_node, assignmentCost_app, !assignmentCost_deeper.
  rewrite !strictTree_weight by done. lia.
Qed.

(** The weighted path length of the tree [buildHuffmanTree] returns is
    the cost of merging the counts of the table. *)
Lemma buildHuffmanTree_cost fr :
  2 ≤ length fr →
  ∃ root, buildHuffmanTree fr = Normal (Some root)
    ∧ huffmanCost (fr.*2) (pathCost root).
Proof.
  intros Hlen.
  destruct (buildHuffmanTree_rel
    (λ h root, Forall strictTree h →
       ∃ c, huffmanCost (freq <$> h) c
         ∧ pathCost root = sum_list_with pathCost h + c) fr)
    as (root & h & Hrun & Hperm & HR); [| |done|].
  - intros x _. exists 0. split; [constructor | cbn; lia].
  - intros h A h1 B h2 h3 root HA HminA HB HminB H3 IH Hall.
    rewrite HB in HA. rewrite HA in Hall.
    apply Forall_cons in Hall as [HsA Hall]. apply Forall_cons in Hall as [HsB Hall].
    destruct IH as (c & Hc & Hcost).
    { rewrite H3. apply Forall_cons. split; [|done]. cbn. auto. }
    exists (freq A + freq B + c). split.
    + apply (huffmanCost_merge _ (freq A) (freq B) (freq <$> h2) c).
      * by rewrite HA.
      * rewrite HB in HminA. by apply Forall_cons in HminA as [? _].
      * rewrite Forall_fmap. exact HminB.
      * eapply huffmanCost_perm; [|exact Hc]. by rewrite H3.
    + rewrite Hcost, H3, HA. cbn [sum_list_with].
      rewrite pathCost_node by done. lia.
  - exists root. split; [done|].
    destruct HR as (c & Hc & Hcost).
    { rewrite Hperm. apply Forall_fmap, Forall_forall. by intros [s f] _. }
    assert (sum_list_with pathCost h = 0) as Hzero.
    { rewrite Hperm, sum_list_with_fmap_compose.
      clear. induction fr as [|[s f] fr IH]; [done|].
      cbn [sum_list_with]. rewrite IH. unfold pathCost, assignmentCost. cbn. lia. }
    rewrite Hcost, Hzero. cbn [Nat.add].
    eapply huffmanCost_perm; [|exact Hc].
    rewrite Hperm, <- list_fmap_compose. done.
Qed.

(** With the codes [generateCodes] reads off a tree, the cost of the
    table is the weighted path length of the tree. *)
Lemma tableCost_pathCost root fr :
  char root = None → NoDup (keys fr) → leafList root ≡ₚ fr →
  tableCost fr (generateCodes (Some root) [] []) = pathCost root.
Proof.
  intros Hroot Hnd Hleaves. destruct (codes_of_tree root Hroot) as [Hpaths Hkeys].
  unfold keys in Hnd. rewrite <- Hleaves in Hnd.
  unfold tableCost. rewrite <- Hleaves.
  unfold pathCost, assignmentCost, weightedDepths.
  rewrite leafRows_leafList, !sum_list_with_fmap_compose.
  apply sum_list_with_ext_in. intros [s [w p]] Hrow. cbn [fst snd].
  assert ((s, p) ∈ leafPaths root) as Hin.
  { rewrite leafRows_leafPaths. apply list_elem_of_fmap. by exists (s, (w, p)). }
  destruct (Hkeys s) as [p' Hp'].
  { rewrite <- leafPaths_keys. apply list_elem_of_fmap. by exists (s, p). }
  rewrite Hp'. cbn [default]. unfold id. do 2 f_equal.
  apply Hpaths in Hp'. rewrite <- leafPaths_keys in Hnd.
  pose proof (elem_get (leafPaths root) s p Hnd Hin) as H1.
  pose proof (elem_get (leafPaths root) s p' Hnd Hp') as H2.
  congruence.
Qed.

(** The codes of distinct symbols of a prefix-free table are words none
    of which is a prefix of another one. *)
Lemma prefixFreeTable_words codes fr :
  prefixFreeTable codes → NoDup (keys fr) →
  (∀ e, e ∈ fr → is_Some (get codes e.1)) →
  prefixFreeWords ((λ e, default [] (get codes e.1)) <$> fr).
Proof.
  intros Hpf. unfold keys.
  induction fr as [|[s f] fr IH]; intros Hnd Hsome; [done|].
  cbn in Hnd. apply NoDup_cons in Hnd as [Hs Hnd].
  cbn [fmap list_fmap prefixFreeWords fst]. split.
  - apply Forall_fmap, Forall_forall. intros [s' f'] He. cbn [fst].
    assert (s ≠ s') as Hne.
    { intros ->. apply Hs. apply list_elem_of_fmap. by exists (s', f'). }
    destruct (Hsome (s, f) (list_elem_of_here _ _)) as [c1 H1].
    destruct (Hsome (s', f') (list_elem_of_further _ _ _ He)) as [c2 H2].
    cbn [fst] in H1, H2. unfold compose. cbn [fst]. rewrite H1, H2. cbn [default].
    split; [by apply (Hpf s s') | by apply (Hpf s' s)].
  - apply IH; [done|]. intros e He. apply Hsome. by apply list_elem_of_further.
Qed.

Lemma le_sum_list (l : list nat) : Forall (λ x, x ≤ sum_list l) l.
Proof.
  induction l as [|x l IH]; [done|]. apply Forall_cons. cbn. split; [lia|].
  eapply Forall_impl; [exact IH|]. cbn. lia.
Qed.

(** The code lengths of a prefix-free table of bit strings satisfy
    Kraft's inequality. *)
Lemma prefixFreeTable_kraft codes fr :
  prefixFreeTable codes → NoDup (keys fr) →
  (∀ e, e ∈ fr → ∃ c, get codes e.1 = Some c ∧ Forall isBit c) →
  kraft ((λ e, (e.2, length (default [] (get codes e.1)))) <$> fr).
Proof.
  intros Hpf Hnd Hbits.
  set (ws := (λ e : jsstring * nat, default [] (get codes e.1)) <$> fr).
  assert (((λ e : jsstring * nat, (e.2, length (default [] (get codes e.1)))) <$> fr).*2
          = length <$> ws) as Hlens.
  { unfold ws. by rewrite <- !list_fmap_compose. }
  exists (sum_list (length <$> ws)). split.
  - pose proof (le_sum_list (length <$> ws)) as Hle. rewrite Forall_forall in Hle.
    apply Forall_fmap, Forall_forall. intros e He. apply Hle.
    unfold ws. rewrite <- list_fmap_compose. apply list_elem_of_fmap. by exists e.
  - rewrite Hlens. apply prefixFreeWords_kraft.
    + apply prefixFreeTable_words; [done | done |].
      intros e He. destruct (Hbits e He) as (c & -> & _). by eexists.
    + pose proof (le_sum_list (length <$> ws)) as Hle.
      rewrite Forall_fmap in Hle. rewrite Forall_forall in Hle |- *.
      intros w Hw. split; [by apply Hle|].
      unfold ws in Hw. apply list_elem_of_fmap in Hw as (e & -> & He).
      destruct (Hbits e He) as (c & -> & Hc). done.
Qed.

(** On a table of two entries or more, the codes read off the tree that
    [buildHuffmanTree] returns cost no more than any prefix-free table of
    bit strings. *)
Lemma huffman_table_least fr codes :
  2 ≤ length fr → NoDup (keys fr) →
  prefixFreeTable codes →
  (∀ e, e ∈ fr → ∃ c, get codes e.1 = Some c ∧ Forall isBit c) →
  ∃ root, buildHuffmanTree fr = Normal (Some root)
    ∧ pathCost root ≤ tableCost fr codes.
Proof.
  intros Hlen Hnd Hpf Hbits.
  destruct (buildHuffmanTree_cost fr Hlen) as (root & Hrun & Hcost).
  exists root. split; [done|].
  pose proof (huffmanCost_least _ _ Hcost
    ((λ e, (e.2, length (default [] (get codes e.1)))) <$> fr)) as Hleast.
  unfold tableCost.
  replace (sum_list_with
             (λ e : jsstring * nat, e.2 * length (default [] (get codes e.1))) fr)
    with (assignmentCost
            ((λ e : jsstring * nat, (e.2, length (default [] (get codes e.1))))
               <$> fr))
    by (unfold assignmentCost; by rewrite sum_list_with_fmap_compose).
  apply Hleast.
  - by rewrite <- list_fmap_compose.
  - by apply prefixFreeTable_kraft.
Qed.

(** The same for the table and the codes of a run of [huffmanEncode]. *)
Lemma huffmanEncode_table_least text codes' :
  (∀ s, s ∈ codePoints text →
     ∃ c, get codes' s = Some c ∧ c ≠ [] ∧ Forall isBit c) →
  prefixFreeTable codes' →
  ∃ r, huffmanEncode text = Normal r
    ∧ frequencies r = calculateFrequencies text
    ∧ tableCost (frequencies r) (codes r) ≤ tableCost (frequencies r) codes'.
Proof.
  intros Hcodes Hpf. destruct (decide (text = [])) as [->|Hne].
  { eexists. split; [reflexivity|]. split; [done|]. cbn. lia. }
  destruct (huffmanEncode_run text Hne)
    as (root & r & Hbuild & Hrun & Hfr & Hcr & _ & _ & _ & _ & Hchar & Hleaves & _).
  destruct (calculateFrequencies_spec text) as (Hnd & _ & _ & Hkeys).
  pose proof (calculateFrequencies_nonempty text Hne) as Hfrne.
  exists r. split; [done|]. split; [done|]. rewrite Hfr, Hcr.
  assert (∀ e, e ∈ calculateFrequencies text →
            ∃ c, get codes' e.1 = Some c ∧ c ≠ [] ∧ Forall isBit c) as Hcodes'.
  { intros [s f] He. apply Hcodes, Hkeys. apply list_elem_of_fmap. by exists (s, f). }
  revert Hbuild Hnd Hleaves Hfrne Hcodes'.
  generalize (calculateFrequencies text). intros fr Hbuild Hnd Hleaves Hfrne Hcodes'.
  destruct fr as [|[s f] [|e2 fr]]; [done| |].
  - rewrite buildHuffmanTree_one in Hbuild. injection Hbuild as <-.
    destruct (Hcodes' (s, f) (list_elem_of_here _ _)) as (c & Hc & Hcne & _).
    unfold tableCost. cbn [sum_list_with fst snd] in *. rewrite Hc.
    unfold generateCodes, wrapperTree, createNode. cbn. rewrite decide_True by done.
    cbn [default]. destruct c; [done|].
    destruct (decide (str_0 = [])); cbn; nia.
  - destruct (huffman_table_least (((s, f)) :: e2 :: fr) codes')
      as (root' & Hbuild' & Hle); [cbn; lia | done | done | |].
    { intros e He. destruct (Hcodes' e He) as (c & Hc & _ & Hbits). eauto. }
    rewrite Hbuild in Hbuild'. injection Hbuild' as <-.
    by rewrite tableCost_pathCost.
Qed.

Lemma encodeText_length_table text codes :
  noSurrogatePair text →
  length (encodeText text codes) = tableCost (calculateFrequencies text) codes.
Proof.
  intros Hpair. destruct (calculateFrequencies_spec text) as (Hnd & _ & _ & Hkeys).
  rewrite encodeText_length. unfold tableCost.
  rewrite <- (codePoints_units text Hpair).
  apply sum_by_occurrences; [done | |].
  - intros [k f] He. cbn. apply (elem_get _ _ _ Hnd) in He.
    rewrite calculateFrequencies_get in He.
    case_decide; congruence.
  - intros u Hu. by apply Hkeys.
Qed.
End TreeCost.

Section Optimality.
Implicit Types (text : jsstring) (codes : list (jsstring * jsstring)).

(** X29: The code table of a run is optimal.  Take any other table that
    gives every symbol of the text a non-empty string of ["0"] and ["1"]
    and in which no code is a prefix of the code of another symbol.  Then
    the codes of the run, weighted with the counts of the frequency table,
    cost no more than the codes of that table. *)
Theorem huffman_code_is_optimal text codes' :
  (∀ s, s ∈ codePoints text →
     ∃ c, get codes' s = Some c ∧ c ≠ [] ∧ Forall isBit c) →
  prefixFreeTable codes' →
  ∃ r, huffmanEncode text = Normal r
    ∧ tableCost (frequencies r) (codes r) ≤ tableCost (frequencies r) codes'.
Proof.
  intros Hcodes Hpf.
  destruct (huffmanEncode_table_least text codes' Hcodes Hpf) as (r & Hrun & _ & Hle).
  by exists r.
Qed.

Lemma fixedCodes_abracadabra_cover s :
  s ∈ codePoints text_abracadabra →
  ∃ c, get fixedCodes_abracadabra s = Some c ∧ c ≠ [] ∧ Forall isBit c.
Proof.
  intros Hs. cbn in Hs.
  repeat (apply elem_of_cons in Hs as [->|Hs]); [..|by apply elem_of_nil in Hs];
    (eexists; split; [reflexivity|]; split; [done|];
     repeat (apply Forall_cons; split; [(by left) || (by right)|]);
     apply Forall_nil_2).
Qed.

Lemma fixedCodes_abracadabra_prefix_free : prefixFreeTable fixedCodes_abracadabra.
Proof.
  intros s1 s2 c1 c2 Hne H1 H2 [k Hk].
  unfold fixedCodes_abracadabra, get in H1, H2. cbn in H1, H2.
  repeat case_decide; simplify_eq.
Qed.

Lemma huffman_code_is_optimal_witness :
  ∃ r, huffmanEncode text_abracadabra = Normal r
    ∧ tableCost (frequencies r) (codes r)
      ≤ tableCost (frequencies r) fixedCodes_abracadabra.
Proof.
  apply (huffman_code_is_optimal text_abracadabra fixedCodes_abracadabra).
  - apply fixedCodes_abracadabra_cover.
  - apply fixedCodes_abracadabra_prefix_free.
Defined.

(** X30: No prefix-free code is shorter.  For a text without surrogate
    pairs, the encoded string of a run is no longer than the text encoded
    with any table that gives every symbol of the text a non-empty string
    of ["0"] and ["1"] and in which no code is a prefix of the code of
    another symbol. *)
Theorem huffman_encoding_is_shortest text codes' :
  noSurrogatePair text →
  (∀ s, s ∈ codePoints text →
     ∃ c, get codes' s = Some c ∧ c ≠ [] ∧ Forall isBit c) →
  prefixFreeTable codes' →
  ∃ r, huffmanEncode text = Normal r
    ∧ compressedSize r ≤ length (encodeText text codes').
Proof.
  intros Hpair Hcodes Hpf.
  destruct (huffmanEncode_table_least text codes' Hcodes Hpf)
    as (r & Hrun & Hfr & Hle).
  exists r. split; [done|].
  rewrite Hfr, <- !encodeText_length_table in Hle by done.
  destruct (decide (text = [])) as [->|Hne].
  { cbn in Hrun. injection Hrun as <-. cbn. lia. }
  destruct (huffmanEncode_run text Hne)
    as (root & r' & _ & Hrun' & _ & _ & Henc & _ & _ & Hsize & _).
  rewrite Hrun in Hrun'. injection Hrun' as <-.
  by rewrite Hsize, Henc.
Qed.

Lemma huffman_encoding_is_shortest_witness :
  ∃ r, huffmanEncode text_abracadabra = Normal r
    ∧ compressedSize r
      ≤ length (encodeText text_abracadabra fixedCodes_abracadabra).
Proof.
  apply (huffman_encoding_is_shortest text_abracadabra fixedCodes_abracadabra).
  - cbn. repeat split.
  - apply fixedCodes_abracadabra_cover.
  - apply fixedCodes_abracadabra_prefix_free.
Defined.
End Optimality.
